(** * tagger: caption routes and download packager

    A shallow embedding of [server/routes/caption.js] and of the
    [GET /all/:sessionId] handler of [server/routes/upload.js].

    Strings are sequences of code units; the embedding keeps the code units
    below 256 ([Ascii.ascii]).  The file system is the pair of directory
    trees the handlers look at: [uploads/<sessionId>] (a listing, in
    [readdirSync] order) and [results/<sessionId>] (file name to content).
    The external services (the [sharp] metadata reader, the chat completion
    API, a write that throws) are oracles of an environment record, and the
    order in which pending promises of one group settle is a list of
    choices handed to the runner.

    Request bodies are taken as parsed: a missing or empty string field is
    the empty string, [fileIndices] is the list of its JSON values when it
    is an array.  The outer [catch] of a handler (the 500 answers) is only
    modelled where a handler can reach it on these inputs: in the paired
    layout of the download and in the selection of [/batch].

    A session id names a directory: [path.join] puts it under [uploads] and
    under [results], so the two trees are keyed by the id as long as it is
    a plain name ([plain_name]: not empty, no separator, neither [.] nor
    [..]); the statements about what a handler leaves untouched ask for
    that. *)

From Stdlib Require Import ZArith String Ascii Bool DecimalString DecimalNat DecimalFacts.
From Stdlib Require Import Floats.SpecFloat.
From stdpp Require Import gmap strings list fin_maps.


(** ** Strings *)

Definition code (c : ascii) : nat := nat_of_ascii c.

(** [WhiteSpace] and [LineTerminator] code units below 256: TAB, LF, VT, FF,
    CR, SP and NBSP. *)
Definition is_white (c : ascii) : bool :=
  let n := code c in
  (9 <=? n)%nat && (n <=? 13)%nat || (n =? 32)%nat || (n =? 160)%nat.

(** [String.prototype.toLowerCase] on one code unit. *)
Definition lower_char (c : ascii) : ascii :=
  let n := code c in
  if (65 <=? n)%nat && (n <=? 90)%nat then ascii_of_nat (n + 32)
  else if (192 <=? n)%nat && (n <=? 222)%nat && negb (n =? 215)%nat
       then ascii_of_nat (n + 32)
  else c.

Fixpoint toLowerCase (s : string) : string :=
  match s with
  | "" => ""
  | String c r => String (lower_char c) (toLowerCase r)
  end.

Fixpoint trimStart (s : string) : string :=
  match s with
  | "" => ""
  | String c r => if is_white c then trimStart r else s
  end.

Fixpoint trimEnd (s : string) : string :=
  match s with
  | "" => ""
  | String c r =>
      match trimEnd r with
      | "" => if is_white c then "" else String c ""
      | r' => String c r'
      end
  end.

(** [String.prototype.trim]. *)
Definition trim (s : string) : string := trimEnd (trimStart s).

(** [s.split(',')]: the pieces between commas; never the empty list. *)
Fixpoint split_comma (s : string) : list string :=
  match s with
  | "" => [""]
  | String c r =>
      if Ascii.eqb c ","%char then "" :: split_comma r
      else match split_comma r with
           | p :: ps => String c p :: ps
           | [] => [String c ""]
           end
  end.

(** [s.includes(t)]: [t] occurs in [s] as a contiguous substring. *)
Fixpoint includes (s t : string) : bool :=
  String.prefix t s ||
  match s with
  | "" => false
  | String _ r => includes r t
  end.

(** Decimal rendering of a length inside a template literal. *)
Definition string_of_nat (n : nat) : string :=
  NilZero.string_of_uint (Nat.to_uint n).

(** An integer inside a template literal. *)
Definition string_of_Z (z : Z) : string :=
  if (z <? 0)%Z then "-" +:+ string_of_nat (Z.to_nat (- z)) else string_of_nat (Z.to_nat z).

(** The double quote, for the messages that hold one. *)
Definition dquote : string := String (ascii_of_nat 34) "".

(** ** Paths

    Directory entries never contain a separator, so [path.extname] and
    [path.parse] only have to find the last dot of the name. *)

(** Splits at the last dot: [Some (before, after)], [None] without a dot. *)
Fixpoint split_last_dot (s : string) : option (string * string) :=
  match s with
  | "" => None
  | String c r =>
      match split_last_dot r with
      | Some (a, b) => Some (String c a, b)
      | None => if Ascii.eqb c "."%char then Some ("", r) else None
      end
  end.

(** [path.extname(file)]: from the last dot to the end; empty when there is
    no dot, when the only dot is the first character, and for [".."]. *)
Definition extname (file : string) : string :=
  match split_last_dot file with
  | Some (a, b) =>
      if String.eqb a "" || String.eqb file ".." then "" else String "." b
  | None => ""
  end.

(** [path.parse(file).name]: the name without its [extname]. *)
Definition parse_name (file : string) : string :=
  match split_last_dot file with
  | Some (a, b) =>
      if String.eqb a "" || String.eqb file ".." then file else a
  | None => file
  end.

(** [path.join(dir, file)] for a directory and an entry name. *)
Definition join (dir file : string) : string := dir +:+ "/" +:+ file.

Definition image_exts : list string :=
  [".jpg"; ".jpeg"; ".png"; ".gif"; ".webp"; ".bmp"].

(** The filter of [readdirSync(sessionDir)] in every handler. *)
Definition is_image (file : string) : bool :=
  bool_decide (toLowerCase (extname file) ∈ image_exts).

(** The filter of [readdirSync(resultsDir)]. *)
Definition is_caption_file (file : string) : bool :=
  String.eqb (toLowerCase (extname file)) ".txt".

(** ** File system *)

Record filesys := Filesys {
  uploads : gmap string (list string);
  results : gmap string (gmap string string)
}.

(** [readdirSync(resultsDir)]. *)
Definition readdir_results (d : gmap string string) : list string :=
  (map_to_list d).*1.

(** [fs.ensureDirSync(resultsDir)]. *)
Definition ensureDir (sessionId : string) (fs : filesys) : filesys :=
  match results fs !! sessionId with
  | Some _ => fs
  | None => Filesys (uploads fs) (<[sessionId := ∅]> (results fs))
  end.

(** The entries of the results directory, empty before it is created. *)
Definition results_dir (fs : filesys) (sessionId : string) : gmap string string :=
  default ∅ (results fs !! sessionId).

(** [fs.writeFileSync(path.join(resultsDir, name), content)]. *)
Definition writeFile (sessionId name content : string) (fs : filesys) : filesys :=
  Filesys (uploads fs)
          (<[sessionId := <[name := content]> (results_dir fs sessionId)]> (results fs)).

Definition uploadsDir (sessionId : string) : string := "uploads/" +:+ sessionId.
Definition resultsDir (sessionId : string) : string := "results/" +:+ sessionId.

(** A name that [path.join(dir, name)] puts right under [dir]: not empty,
    without a separator, and neither [.] nor [..]. *)
Definition plain_name (name : string) : bool :=
  negb (String.eqb name "") && negb (includes name "/")
  && negb (String.eqb name ".") && negb (String.eqb name "..").

(** ** IEEE 754 doubles

    JavaScript numbers are binary64; [/] and [*] round to nearest even. *)

Definition double_of_nat (n : nat) : spec_float :=
  binary_normalize 53 1024 (Z.of_nat n) 0 false.

Definition double_div : spec_float -> spec_float -> spec_float := SFdiv 53 1024.
Definition double_mul : spec_float -> spec_float -> spec_float := SFmul 53 1024.

(** [Math.floor] of a finite double, as an integer. *)
Definition math_floor (x : spec_float) : Z :=
  match x with
  | S754_finite s m e =>
      let v := cond_Zopp s (Zpos m) in
      if (0 <=? e)%Z then (v * 2 ^ e)%Z else (v / 2 ^ (- e))%Z
  | _ => 0%Z
  end.

(** ** GET /api/caption/status/:sessionId *)

Record status_body := StatusBody {
  st_sessionId : string;
  totalImages : nat;
  processedImages : nat;
  progress : Z;
  isComplete : bool;
  status : string
}.

Inductive status_response :=
| StatusNotFound (message : string)
| StatusOk (body : status_body).

(** [totalImages > 0 ? Math.floor((processedImages / totalImages) * 100) : 0] *)
Definition compute_progress (processed total : nat) : Z :=
  if (0 <? total)%nat
  then math_floor (double_mul (double_div (double_of_nat processed) (double_of_nat total))
                              (double_of_nat 100))
  else 0%Z.

Definition caption_status (fs : filesys) (sessionId : string) : status_response :=
  match uploads fs !! sessionId with
  | None => StatusNotFound "Upload session not found"
  | Some entries =>
      let imageFiles := filter (λ f, is_image f = true) entries in
      let captionFiles :=
        match results fs !! sessionId with
        | Some d => filter (λ f, is_caption_file f = true) (readdir_results d)
        | None => []
        end in
      let total := length imageFiles in
      let processed := length captionFiles in
      let complete := (total <=? processed)%nat && (0 <? total)%nat in
      StatusOk {| st_sessionId := sessionId;
                  totalImages := total;
                  processedImages := processed;
                  progress := compute_progress processed total;
                  isComplete := complete;
                  status := if complete then "complete" else "in-progress" |}
  end.

(** ** Environment

    What the handlers cannot decide themselves.  The first argument of the
    two promise oracles is the position of the file in the list being
    processed: the model samples at temperature 0.7, so two calls with one
    prompt need not agree. *)

Inductive outcome (A : Type) :=
| Resolved (value : A)
| Rejected (message : string).
Arguments Resolved {A} value.
Arguments Rejected {A} message.

Record metadata := Metadata {
  md_width : nat;
  md_height : nat;
  md_format : string
}.

Record chat_message := ChatMessage {
  role : string;
  content : string
}.

Record env := Env {
  (** [sharp(imagePath).metadata()] *)
  sharp_metadata : nat -> string -> outcome metadata;
  (** [openai.chat.completions.create({messages, max_tokens, ...})]: the
      [message.content] of each choice, [None] for [null]. *)
  chat_completion : nat -> list chat_message -> nat -> outcome (list (option string));
  (** the message of the exception [writeFileSync] throws on a file of the
      results directory, if it throws *)
  write_error : string -> option string
}.

Record file_error := FileError {
  fe_file : string;
  fe_error : string
}.

(** [err.message || 'Unknown error'] *)
Definition error_message (message : string) : string :=
  if String.eqb message "" then "Unknown error" else message.

(** ** POST /api/caption/add-global-tags *)

Record tag_update := TagUpdate {
  tu_file : string;
  updatedCaption : string
}.

Inductive tags_response :=
| TagsFailure (code : nat) (message : string)
| TagsOk (message : string) (updates : list tag_update)
         (errors : list file_error) (sessionId : string).

(** [globalTags.trim().split(',').map(tag => tag.trim()).filter(tag => tag !== '')] *)
Definition tagsToAdd (globalTags : string) : list string :=
  filter (λ tag, tag ≠ "") (map trim (split_comma (trim globalTags))).

(** The body of [tagsToAdd.forEach]. *)
Definition add_tag (caption tag : string) : string :=
  if includes caption tag then caption else caption +:+ ", " +:+ tag.

Definition add_tags (caption : string) (tags : list string) : string :=
  foldl add_tag caption tags.

Definition tags_state : Type := filesys * list tag_update * list file_error.

(** The body of [files.forEach] with its [try]/[catch]. *)
Definition update_caption_file (e : env) (sessionId globalTags : string)
    (acc : tags_state) (file : string) : tags_state :=
  let '(fs, ups, errs) := acc in
  match results_dir fs sessionId !! file with
  | None =>
      (fs, ups, errs ++ [FileError file ("ENOENT: no such file or directory, open '"
                                         +:+ join (resultsDir sessionId) file +:+ "'")])
  | Some text =>
      let caption := add_tags (trim text) (tagsToAdd globalTags) in
      match write_error e file with
      | Some message => (fs, ups, errs ++ [FileError file (error_message message)])
      | None => (writeFile sessionId file caption fs, ups ++ [TagUpdate file caption], errs)
      end
  end.

Definition add_global_tags (e : env) (fs : filesys) (sessionId globalTags : string)
    : filesys * tags_response :=
  if String.eqb sessionId "" then (fs, TagsFailure 400 "Session ID is required")
  else if String.eqb globalTags "" || String.eqb (trim globalTags) ""
  then (fs, TagsFailure 400 "Global tags are required")
  else match results fs !! sessionId with
  | None => (fs, TagsFailure 404 "Results not found for this session")
  | Some d =>
      let files := filter (λ f, is_caption_file f = true) (readdir_results d) in
      if decide (length files = 0)
      then (fs, TagsFailure 400 "No caption files found for this session")
      else
        let '(fs', ups, errs) :=
          foldl (update_caption_file e sessionId globalTags) (fs, [], []) files in
        (fs', TagsOk ("Global tags added to " +:+ string_of_nat (length ups)
                      +:+ " files. " +:+ string_of_nat (length errs) +:+ " errors.")
                     ups errs sessionId)
  end.

(** ** GET /api/download/all/:sessionId *)

(** [captionMap] is an object literal: besides the properties assigned to it,
    a lookup finds the members of [Object.prototype]. *)
Definition object_prototype_keys : list string :=
  ["constructor"; "__defineGetter__"; "__defineSetter__"; "hasOwnProperty";
   "__lookupGetter__"; "__lookupSetter__"; "isPrototypeOf";
   "propertyIsEnumerable"; "toString"; "valueOf"; "__proto__"; "toLocaleString"].

Inductive property :=
| Own (value : string)
| Inherited
| Undefined.

(** [obj[key] = value]: assigning a string to [__proto__] goes to the
    prototype setter, which ignores it. *)
Definition js_set (obj : gmap string string) (key value : string) : gmap string string :=
  if String.eqb key "__proto__" then obj else <[key := value]> obj.

(** [obj[key]] *)
Definition js_get (obj : gmap string string) (key : string) : property :=
  match obj !! key with
  | Some v => Own v
  | None => if bool_decide (key ∈ object_prototype_keys) then Inherited else Undefined
  end.

Record zip_entry := ZipEntry {
  ze_source : string;
  ze_name : string
}.

Inductive download_response :=
| DownloadNotFound (message : string)
| DownloadError (message : string)
| DownloadZip (attachment : string) (entries : list zip_entry).

Definition build_captionMap (captionFiles : list string) : gmap string string :=
  foldl (λ m file, js_set m (parse_name file) file) ∅ captionFiles.

(** The [imageFiles.forEach] of the paired layout; [None] when [path.join]
    is handed a value that is not a string and throws. *)
Fixpoint paired_entries (sessionId : string) (captionMap : gmap string string)
    (imageFiles : list string) : option (list zip_entry) :=
  match imageFiles with
  | [] => Some []
  | file :: rest =>
      let baseName := parse_name file in
      let image := ZipEntry (join (uploadsDir sessionId) file) (baseName +:+ "/" +:+ file) in
      match js_get captionMap baseName with
      | Undefined => cons image <$> paired_entries sessionId captionMap rest
      | Own cap =>
          if String.eqb cap "" then cons image <$> paired_entries sessionId captionMap rest
          else (λ l, image :: ZipEntry (join (resultsDir sessionId) cap)
                                       (baseName +:+ "/" +:+ cap) :: l)
               <$> paired_entries sessionId captionMap rest
      | Inherited => None
      end
  end.

Definition download_all (fs : filesys) (sessionId format : string) : download_response :=
  match uploads fs !! sessionId with
  | None => DownloadNotFound "Upload session not found"
  | Some entries =>
      let attachment := "lora-training-" +:+ sessionId +:+ ".zip" in
      let imageFiles := filter (λ f, is_image f = true) entries in
      let captionFiles :=
        match results fs !! sessionId with
        | Some d => filter (λ f, is_caption_file f = true) (readdir_results d)
        | None => []
        end in
      let captionMap := build_captionMap captionFiles in
      if String.eqb format "separate" then
        DownloadZip attachment
          (map (λ file, ZipEntry (join (uploadsDir sessionId) file) ("images/" +:+ file)) imageFiles
           ++ map (λ file, ZipEntry (join (resultsDir sessionId) file) ("captions/" +:+ file)) captionFiles)
      else if String.eqb format "paired" then
        match paired_entries sessionId captionMap imageFiles with
        | Some l => DownloadZip attachment l
        | None => DownloadError "Error downloading all files"
        end
      else if String.eqb format "flat" then
        DownloadZip attachment
          (map (λ file, ZipEntry (join (uploadsDir sessionId) file) file) imageFiles
           ++ map (λ file, ZipEntry (join (resultsDir sessionId) file) file) captionFiles)
      else DownloadZip attachment []
  end.

(** ** Caption batch processor: POST /api/caption/generate and /batch *)

(** A parsed JSON value, as an entry of [fileIndices]: [JInt] is a number
    that is an integer, [JFrac] a number that is none. *)
#[warnings="-register-all"] Inductive json :=
| JNull
| JBool (b : bool)
| JInt (z : Z)
| JFrac
| JStr (s : string)
| JArr (items : list json)
| JObj (members : list (string * json)).

Record caption_request := CaptionRequest {
  rq_sessionId : string;
  rq_apiKey : string;
  rq_globalTags : string;
  (** the entries of [fileIndices] when it is an array *)
  rq_fileIndices : option (list json);
  rq_maxTokens : nat
}.

(** What [files[index]] can give besides a file name: the [length] of the
    array, or a member that arrays inherit. *)
Inductive non_file :=
| NLength (n : nat)
| NMember (key : string).

(** An entry of the list the processor goes through. *)
Inductive selected :=
| SFile (name : string)
| SValue (v : non_file).

Global Instance non_file_eq_dec : EqDecision non_file.
Proof. solve_decision. Defined.

Global Instance selected_eq_dec : EqDecision selected.
Proof. solve_decision. Defined.

(** An entry of [errors]: [{file, error}]. *)
Record run_error := RunError {
  re_file : selected;
  re_error : string
}.

Record caption_result := CaptionResult {
  cr_file : string;
  cr_outputPath : string;
  cr_caption : string
}.

Inductive caption_response :=
| CaptionFailure (code : nat) (message : string)
| CaptionError (message : string) (error : string)
| CaptionOk (message : string) (results : list caption_result)
            (errors : list run_error) (sessionId : string).

(** What the async function of one file does that can be seen from
    outside: the metadata read when it is called ([Started]), its call of
    [openai.chat.completions.create] ([Requested]; how many HTTP requests
    the client library makes of one call is the library's business), and
    the settling of its promise ([Settled]). *)
Inductive event :=
| Started (id : nat)
| Requested (id : nat)
| Settled (id : nat).

Global Instance event_eq_dec : EqDecision event.
Proof. solve_decision. Defined.

Definition system_prompt : string :=
  "You are an expert image captioner for LoRA training. Your task is to create detailed, accurate captions that describe only what is visible in the image. Follow the tagging guidelines precisely.".

Definition user_prompt (md : metadata) : string :=
  "
I need you to create a detailed caption for an image that will be used for training a LoRA (Low-Rank Adaptation) model. 
The caption should follow these guidelines:

1. Describe ONLY what is actually visible in the image
2. Be accurate and consistent in terminology
3. Balance detail with generalization
4. Follow this structure:
   - Overall image type/style
   - Number and type of subjects
   - Major characteristics (appearance, clothing)
   - Actions or poses
   - Setting/environment
   - Supporting details
   - Style/mood descriptors

5. Include 20-30 tags for standard complexity images
6. Separate tags with commas
7. Avoid redundancy, over-interpretation, or subjective descriptions

Image details:
- Resolution: " +:+ string_of_nat (md_width md) +:+ "x" +:+ string_of_nat (md_height md) +:+ "
- Format: " +:+ md_format md +:+ "

Please provide ONLY the comma-separated tags, with no additional text or explanation.
".

Definition chat_messages (md : metadata) : list chat_message :=
  [ChatMessage "system" system_prompt; ChatMessage "user" (user_prompt md)].

(** [`${path.parse(file).name}.txt`] *)
Definition outputName (file : string) : string := parse_name file +:+ ".txt".

(** Lines 119-124 and 414-419: the trimmed completion, then the global tags
    when they are not blank. *)
Definition build_caption (globalTags completion : string) : string :=
  let caption := trim completion in
  if negb (String.eqb globalTags "") && negb (String.eqb (trim globalTags) "")
  then caption +:+ ", " +:+ trim globalTags
  else caption.

Record run_state := RunState {
  rs_fs : filesys;
  rs_results : list caption_result;
  rs_errors : list run_error;
  rs_trace : list event
}.

(** A promise one file's async function is suspended on. *)
Inductive pending :=
| AwaitMetadata (id : nat) (file : string)
| AwaitCompletion (id : nat) (file : string) (md : metadata).

Definition pending_id (p : pending) : nat :=
  match p with
  | AwaitMetadata id _ => id
  | AwaitCompletion id _ _ => id
  end.

(** The [catch] block of one file. *)
Definition fail_file (id : nat) (file message : string) (st : run_state) : run_state :=
  RunState (rs_fs st) (rs_results st)
           (rs_errors st ++ [RunError (SFile file) (error_message message)])
           (rs_trace st ++ [Settled id]).

(** One file's async function resumes after the promise it awaits settles
    and runs to its next [await] or to its end. *)
Definition settle (e : env) (rq : caption_request) (p : pending) (st : run_state)
    : option pending * run_state :=
  let sid := rq_sessionId rq in
  match p with
  | AwaitMetadata id file =>
      match sharp_metadata e id (join (uploadsDir sid) file) with
      | Rejected message => (None, fail_file id file message st)
      | Resolved md =>
          (Some (AwaitCompletion id file md),
           RunState (rs_fs st) (rs_results st) (rs_errors st) (rs_trace st ++ [Requested id]))
      end
  | AwaitCompletion id file md =>
      match chat_completion e id (chat_messages md) (rq_maxTokens rq) with
      | Rejected message => (None, fail_file id file message st)
      | Resolved [] =>
          (None, fail_file id file "Cannot read properties of undefined (reading 'message')" st)
      | Resolved (None :: _) =>
          (None, fail_file id file "Cannot read properties of null (reading 'trim')" st)
      | Resolved (Some completion :: _) =>
          let caption := build_caption (rq_globalTags rq) completion in
          match write_error e (outputName file) with
          | Some message => (None, fail_file id file message st)
          | None =>
              (None,
               RunState (writeFile sid (outputName file) caption (rs_fs st))
                        (rs_results st ++
                           [CaptionResult file (join (resultsDir sid) (outputName file)) caption])
                        (rs_errors st)
                        (rs_trace st ++ [Settled id]))
          end
      end
  end.

(** [await Promise.all(...)]: the pending promises settle one at a time, in
    the order [choices] dictates (each choice picks among those pending). *)
Fixpoint settle_all (e : env) (rq : caption_request) (fuel : nat) (choices : list nat)
    (pend : list pending) (st : run_state) : list nat * list pending * run_state :=
  match fuel with
  | 0 => (choices, pend, st)
  | S fuel' =>
      let k := (hd 0 choices `mod` length pend)%nat in
      match pend !! k with
      | None => (choices, pend, st)
      | Some p =>
          match settle e rq p st with
          | (Some p', st') => settle_all e rq fuel' (tl choices) (<[k := p']> pend) st'
          | (None, st') => settle_all e rq fuel' (tl choices) (delete k pend) st'
          end
      end
  end.

(** One iteration of [for (const batch of batches)]: [batch.map] calls the
    async function of every file, each runs up to its first [await]; then
    all are awaited. *)
Definition run_group (e : env) (rq : caption_request)
    (acc : list nat * run_state) (group : list (nat * string)) : list nat * run_state :=
  let '(choices, st) := acc in
  let started :=
    RunState (rs_fs st) (rs_results st) (rs_errors st)
             (rs_trace st ++ ((λ t, Started t.1) <$> group)) in
  let '(choices', _, st') :=
    settle_all e rq (2 * length group) choices
               ((λ t, AwaitMetadata t.1 t.2) <$> group) started in
  (choices', st').

(** [files.slice(i, j)] *)
Definition slice {A} (i j : nat) (l : list A) : list A := take (j - i) (drop i l).

(** [for (let i = 0; i < files.length; i += size) push(files.slice(i, i + size))] *)
Fixpoint chunk_loop {A} (fuel size : nat) (files : list A) (i : nat) : list (list A) :=
  match fuel with
  | 0 => []
  | S fuel' =>
      if (i <? length files)%nat
      then slice i (i + size) files :: chunk_loop fuel' size files (i + size)
      else []
  end.

Definition chunks {A} (size : nat) (files : list A) : list (list A) :=
  chunk_loop (length files) size files 0.

(** The files with their positions, which identify the calls. *)
Definition tasks_of (files : list string) : list (nat * string) :=
  imap (λ i f, (i, f)) files.

Definition process_files (e : env) (rq : caption_request) (size : nat)
    (choices : list nat) (fs : filesys) (files : list string) : run_state :=
  (foldl (run_group e rq) (choices, RunState fs [] [] []) (chunks size (tasks_of files))).2.

Definition completed_response (rq : caption_request) (st : run_state) : caption_response :=
  CaptionOk ("Caption generation completed for " +:+ string_of_nat (length (rs_results st))
             +:+ " files. " +:+ string_of_nat (length (rs_errors st)) +:+ " errors.")
            (rs_results st) (rs_errors st) (rq_sessionId rq).

(** [const batchSize = 5] of [/generate], [const concurrencyLimit = 3] of
    [/batch]. *)
Definition batchSize : nat := 5.
Definition concurrencyLimit : nat := 3.

Definition generate (e : env) (choices : list nat) (fs : filesys) (rq : caption_request)
    : filesys * list event * caption_response :=
  let sid := rq_sessionId rq in
  if String.eqb sid "" then (fs, [], CaptionFailure 400 "Session ID is required")
  else if String.eqb (rq_apiKey rq) "" then (fs, [], CaptionFailure 400 "OpenAI API key is required")
  else match uploads fs !! sid with
  | None => (fs, [], CaptionFailure 404 "Session not found")
  | Some entries =>
      let fs1 := ensureDir sid fs in
      let files := filter (λ f, is_image f = true) entries in
      if decide (length files = 0)
      then (fs1, [], CaptionFailure 400 "No image files found in session")
      else
        let st := process_files e rq batchSize choices fs1 files in
        (rs_fs st, rs_trace st, completed_response rq st)
  end.

(** *** The selection of [/batch]: [fileIndices.map(index => files[index]).filter(Boolean)] *)

(** The property key [files[index]] makes of its index. *)
Inductive index_key :=
| Key (s : string)
(** the rendering of a number that is no integer, or of an array of
    several items: a string that names no property of an array *)
| NoProperty
(** [TypeError: Cannot convert object to primitive value] *)
| KeyThrows.

(** [ToString] of an object throws when the object has a member [toString]
    of its own: a JSON value cannot be called, and [valueOf] gives no
    primitive.  An array converts each of its items. *)
Fixpoint to_string_throws (v : json) : bool :=
  match v with
  | JObj members => existsb (λ m, String.eqb m.1 "toString") members
  | JArr items => existsb to_string_throws items
  | _ => false
  end.

(** [ToPropertyKey]: a string is its own key, a number its decimal
    rendering (that of an integer is taken from [string_of_Z]; from 1e21 on
    the engine writes an exponent, and neither string names a property), an
    array the renderings of its items joined by commas ([null] giving the
    empty string), an object [[object Object]]. *)
Fixpoint index_key_of (v : json) : index_key :=
  if to_string_throws v then KeyThrows
  else match v with
       | JNull => Key "null"
       | JBool b => Key (if b then "true" else "false")
       | JInt z => Key (string_of_Z z)
       | JFrac => NoProperty
       | JStr s => Key s
       | JArr [] => Key ""
       | JArr [JNull] => Key ""
       | JArr [x] => index_key_of x
       | JArr _ => NoProperty
       | JObj _ => Key "[object Object]"
       end.

(** The members an array inherits from [Array.prototype] and
    [Object.prototype] under a string key (ECMAScript 2023). *)
Definition array_prototype_keys : list string :=
  ["constructor"; "at"; "concat"; "copyWithin"; "fill"; "find"; "findIndex";
   "findLast"; "findLastIndex"; "lastIndexOf"; "pop"; "push"; "reverse";
   "shift"; "unshift"; "slice"; "sort"; "splice"; "includes"; "indexOf";
   "join"; "keys"; "entries"; "values"; "forEach"; "filter"; "flat";
   "flatMap"; "map"; "every"; "some"; "reduce"; "reduceRight";
   "toReversed"; "toSorted"; "toSpliced"; "with";
   "toLocaleString"; "toString";
   "__defineGetter__"; "__defineSetter__"; "hasOwnProperty";
   "__lookupGetter__"; "__lookupSetter__"; "isPrototypeOf";
   "propertyIsEnumerable"; "valueOf"; "__proto__"].

(** [files[key]]: the element when the key is the decimal rendering of a
    position of the array, the length, an inherited member, or
    [undefined] ([None]). *)
Definition array_get (files : list string) (key : string) : option selected :=
  match List.find (λ i, String.eqb (string_of_nat i) key) (seq 0 (length files)) with
  | Some i => SFile <$> files !! i
  | None =>
      if String.eqb key "length" then Some (SValue (NLength (length files)))
      else if bool_decide (key ∈ array_prototype_keys) then Some (SValue (NMember key))
      else None
  end.

(** [Boolean(value)]: a non-empty string, a number other than 0, a
    function or an object. *)
Definition truthy (v : selected) : bool :=
  match v with
  | SFile name => negb (String.eqb name "")
  | SValue (NLength n) => negb (n =? 0)%nat
  | SValue (NMember _) => true
  end.

Definition select_value (files : list string) (index : json) : option selected :=
  match index_key_of index with
  | Key key =>
      match array_get files key with
      | Some v => if truthy v then Some v else None
      | None => None
      end
  | _ => None
  end.

(** [None] when the conversion of an index throws. *)
Definition select_values (files : list string) (fileIndices : list json)
    : option (list selected) :=
  if existsb to_string_throws fileIndices then None
  else Some (omap (select_value files) fileIndices).

(** The message of the [TypeError] that [path.join(sessionDir, file)]
    throws for a [file] that is no string. *)
Definition path_error (v : non_file) : string :=
  "The " +:+ dquote +:+ "path" +:+ dquote
  +:+ " argument must be of type string. Received "
  +:+ match v with
      | NLength n => "type number (" +:+ string_of_nat n +:+ ")"
      | NMember key =>
          if String.eqb key "__proto__" then "an instance of Array"
          else if String.eqb key "constructor" then "function Array"
          else "function " +:+ key
      end.

(** The files among the entries of a group, with their positions. *)
Definition file_tasks (group : list (nat * selected)) : list (nat * string) :=
  omap (λ t, match t.2 with SFile file => Some (t.1, file) | SValue _ => None end) group.

(** The errors of the entries of a group that are no file names: the async
    function of such an entry throws before its first [await], and its
    [catch] block records the error while [chunk.map] is still running. *)
Definition value_errors (group : list (nat * selected)) : list run_error :=
  omap (λ t, match t.2 with
             | SFile _ => None
             | SValue v => Some (RunError (SValue v) (error_message (path_error v)))
             end) group.

(** One iteration of [for (const chunk of chunks)] over selected entries. *)
Definition run_chunk (e : env) (rq : caption_request)
    (acc : list nat * run_state) (chunk : list (nat * selected)) : list nat * run_state :=
  let '(choices, st) := acc in
  run_group e rq
    (choices, RunState (rs_fs st) (rs_results st) (rs_errors st ++ value_errors chunk)
                       (rs_trace st))
    (file_tasks chunk).

(** The selected entries with their positions. *)
Definition entries_of (files : list selected) : list (nat * selected) :=
  imap (λ i v, (i, v)) files.

Definition process_selected (e : env) (rq : caption_request) (size : nat)
    (choices : list nat) (fs : filesys) (files : list selected) : run_state :=
  (foldl (run_chunk e rq) (choices, RunState fs [] [] []) (chunks size (entries_of files))).2.

Definition batch (e : env) (choices : list nat) (fs : filesys) (rq : caption_request)
    : filesys * list event * caption_response :=
  let sid := rq_sessionId rq in
  if String.eqb sid "" then (fs, [], CaptionFailure 400 "Session ID is required")
  else if String.eqb (rq_apiKey rq) "" then (fs, [], CaptionFailure 400 "OpenAI API key is required")
  else match uploads fs !! sid with
  | None => (fs, [], CaptionFailure 404 "Session not found")
  | Some entries =>
      let fs1 := ensureDir sid fs in
      let all := filter (λ f, is_image f = true) entries in
      let files :=
        match rq_fileIndices rq with
        | Some (index :: rest) => select_values all (index :: rest)
        | _ => Some (SFile <$> all)
        end in
      match files with
      | None =>
          (fs1, [], CaptionError "Error generating captions"
                                 "Cannot convert object to primitive value")
      | Some files =>
          if decide (length files = 0)
          then (fs1, [], CaptionFailure 400 "No image files found to process")
          else
            let st := process_selected e rq concurrencyLimit choices fs1 files in
            (rs_fs st, rs_trace st, completed_response rq st)
      end
  end.

(** ** Vocabulary of the statements *)

(** No white space at either end. *)
Definition trimmed (s : string) : Prop := trimStart s = s ∧ trimEnd s = s.

(** What [tagsToAdd] holds: trimmed, non-empty tags. *)
Definition clean_tag (t : string) : Prop := trimmed t ∧ t ≠ "".

(** The tag list in the words of the specification: split the tag string on
    commas, trim each piece, drop the empty pieces. *)
Definition spec_tags (globalTags : string) : list string :=
  filter (λ tag, tag ≠ "") (map trim (split_comma globalTags)).

(** The tags an update appends to [content]: going through the tags in
    order, a tag is appended when the content as it stands does not contain
    it. *)
Fixpoint spec_appended (content : string) (tags : list string) : list string :=
  match tags with
  | [] => []
  | tag :: rest =>
      if includes content tag then spec_appended content rest
      else tag :: spec_appended (content +:+ ", " +:+ tag) rest
  end.

(** Each appended tag preceded by a comma and a space. *)
Definition tag_suffix (tags : list string) : string :=
  foldr (λ tag acc, ", " +:+ tag +:+ acc) "" tags.

(** Only white space. *)
Definition blank (s : string) : Prop := trimEnd s = "".

(** What an update leaves in the file [name] that held [text]: a file whose
    write throws keeps its text. *)
Definition updated_text (e : env) (globalTags name text : string) : string :=
  match write_error e name with
  | Some _ => text
  | None => add_tags (trim text) (tagsToAdd globalTags)
  end.

(** The caption files of a results directory, as every handler lists them. *)
Definition caption_files (d : gmap string string) : list string :=
  filter (λ f, is_caption_file f = true) (readdir_results d).

(** The percentage the specification asks for. *)
Definition spec_progress (processed total : nat) : Z :=
  if (0 <? total)%nat then (100 * Z.of_nat processed / Z.of_nat total)%Z else 0%Z.

(** The counts [(processed, total)] with [processed <= total <= n] and at
    least one image. *)
Definition pairs_up_to (n : nat) : list (nat * nat) :=
  t ← seq 1 n; (λ p, (p, t)) <$> seq 0 (S t).

(** ** What a run of the processor must produce

    The fate of one file does not depend on the order in which promises
    settle: it is decided by what the environment answers to its calls. *)

(** The rest of a file's async function once its metadata is known: the
    message of the error it records, or the caption it writes. *)
Definition completion_outcome (e : env) (rq : caption_request)
    (id : nat) (file : string) (md : metadata) : string + string :=
  match chat_completion e id (chat_messages md) (rq_maxTokens rq) with
  | Rejected message => inl (error_message message)
  | Resolved [] =>
      inl (error_message "Cannot read properties of undefined (reading 'message')")
  | Resolved (None :: _) =>
      inl (error_message "Cannot read properties of null (reading 'trim')")
  | Resolved (Some completion :: _) =>
      match write_error e (outputName file) with
      | Some message => inl (error_message message)
      | None => inr (build_caption (rq_globalTags rq) completion)
      end
  end.

Definition task_outcome (e : env) (rq : caption_request)
    (id : nat) (file : string) : string + string :=
  match sharp_metadata e id (join (uploadsDir (rq_sessionId rq)) file) with
  | Rejected message => inl (error_message message)
  | Resolved md => completion_outcome e rq id file md
  end.

(** A file, its position and its fate. *)
Definition task_info : Type := nat * string * (string + string).

Definition task_info_of (e : env) (rq : caption_request) (t : nat * string) : task_info :=
  (t.1, t.2, task_outcome e rq t.1 t.2).

Definition pending_info (e : env) (rq : caption_request) (p : pending) : task_info :=
  match p with
  | AwaitMetadata id file => (id, file, task_outcome e rq id file)
  | AwaitCompletion id file md => (id, file, completion_outcome e rq id file md)
  end.

Definition result_of (sid : string) (i : task_info) : option caption_result :=
  match i with
  | (_, file, inr caption) =>
      Some (CaptionResult file (join (resultsDir sid) (outputName file)) caption)
  | _ => None
  end.

Definition error_of (i : task_info) : option run_error :=
  match i with
  | (_, file, inl message) => Some (RunError (SFile file) message)
  | _ => None
  end.

(** The writes of the files that succeed, in the order given. *)
Definition write_info (sid : string) (fs : filesys) (i : task_info) : filesys :=
  match i with
  | (_, file, inr caption) => writeFile sid (outputName file) caption fs
  | _ => fs
  end.

(** Steps a pending promise is away from the end of its async function. *)
Definition pending_weight (p : pending) : nat :=
  match p with
  | AwaitMetadata _ _ => 2
  | AwaitCompletion _ _ _ => 1
  end.

Definition event_id (ev : event) : nat :=
  match ev with
  | Started id | Requested id | Settled id => id
  end.

Definition is_started (ev : event) : bool :=
  match ev with Started _ => true | _ => false end.

Definition settled_id (ev : event) : option nat :=
  match ev with Settled id => Some id | _ => None end.

Definition weight (pend : list pending) : nat := sum_list_with pending_weight pend.

Definition requested_id (ev : event) : option nat :=
  match ev with Requested id => Some id | _ => None end.

(** The position of a file whose metadata read resolves. *)
Definition metadata_read (e : env) (rq : caption_request) (t : nat * string) : option nat :=
  match sharp_metadata e t.1 (join (uploadsDir (rq_sessionId rq)) t.2) with
  | Resolved _ => Some t.1
  | Rejected _ => None
  end.

(** The request a pending promise still leads to. *)
Definition pending_request (e : env) (rq : caption_request) (p : pending) : option nat :=
  match p with
  | AwaitMetadata id file => metadata_read e rq (id, file)
  | AwaitCompletion _ _ _ => None
  end.

(** The events of the file at position [id], in the order of the trace. *)
Definition events_of (id : nat) (tr : list event) : list event :=
  filter (λ ev, event_id ev = id) tr.

(** What is still to be seen of a pending promise: the call of the
    captioning service when the metadata read it waits for resolves, and
    the settling. *)
Definition pending_events (e : env) (rq : caption_request) (p : pending) : list event :=
  match pending_request e rq p with
  | Some id => [Requested id; Settled id]
  | None => [Settled (pending_id p)]
  end.

(** What follows the start of a file. *)
Definition task_events (e : env) (rq : caption_request) (t : nat * string) : list event :=
  match metadata_read e rq t with
  | Some id => [Requested id; Settled id]
  | None => [Settled t.1]
  end.

(** The trace of a group that settles: no file is started in it, every
    event belongs to one of the [ids], and the files settle in the order
    [settled]. *)
Definition settles (ids settled : list nat) (tr : list event) : Prop :=
  Forall (λ ev, is_started ev = false ∧ event_id ev ∈ ids) tr ∧
  omap settled_id tr = settled.

(** The trace of one group: its files are started together, in order, before
    anything else happens; what follows belongs to these files, and of each
    file it holds, in this order, the call of the captioning service (one,
    when the metadata read of the file resolves; none otherwise) and the
    settling: every call is made after all files of the group are started
    and is awaited, and every file settles exactly once, before the trace of
    the group ends. *)
Definition group_trace (e : env) (rq : caption_request)
    (group : list (nat * string)) (t : list event) : Prop :=
  ∃ settled tr,
    t = ((λ x, Started x.1) <$> group) ++ tr ∧
    settled ≡ₚ group.*1 ∧
    settles (group.*1) settled tr ∧
    ∀ x, x ∈ group → events_of x.1 tr = task_events e rq x.

(** The metadata read of the file resolves. *)
Definition resolves (e : env) (rq : caption_request) (t : nat * string) : Prop :=
  ∃ md, sharp_metadata e t.1 (join (uploadsDir (rq_sessionId rq)) t.2) = Resolved md.

(** The schedule that settles the metadata reads of a group of [n] files in
    order and then the completions in order. *)
Definition together (n : nat) : list nat := seq 0 n ++ replicate n 0.

(** The trace of a group all of whose calls are in flight at once. *)
Definition in_flight (group : list (nat * string)) : list event :=
  ((λ x, Started x.1) <$> group) ++ ((λ x, Requested x.1) <$> group)
  ++ ((λ x, Settled x.1) <$> group).

(** The caption the last successful file of [order] with output [name]
    leaves there. *)
Fixpoint written (name : string) (order : list task_info) : option string :=
  match order with
  | [] => None
  | (_, file, outcome) :: rest =>
      match written name rest with
      | Some caption => Some caption
      | None =>
          match outcome with
          | inr caption => if String.eqb (outputName file) name then Some caption else None
          | inl _ => None
          end
      end
  end.

(** The two endpoints share the handler body up to the file selection, the
    group size and one message. *)
Inductive endpoint := Generate | Batch.

Definition handler (ep : endpoint) :=
  match ep with Generate => generate | Batch => batch end.

Definition group_size (ep : endpoint) : nat :=
  match ep with Generate => batchSize | Batch => concurrencyLimit end.

Definition no_files_message (ep : endpoint) : string :=
  match ep with
  | Generate => "No image files found in session"
  | Batch => "No image files found to process"
  end.

(** The entries an endpoint goes through, given the directory listing;
    [None] when the selection throws. *)
Definition selection (ep : endpoint) (rq : caption_request)
    (entries : list string) : option (list selected) :=
  let all := filter (λ f, is_image f = true) entries in
  match ep, rq_fileIndices rq with
  | Batch, Some (index :: rest) => select_values all (index :: rest)
  | _, _ => Some (SFile <$> all)
  end.

(** The file names among selected entries. *)
Definition files_of (sel : list selected) : list string :=
  omap (λ v, match v with SFile file => Some file | SValue _ => None end) sel.

(** The selection in the words of the claim: the files at the listed
    indices that are in range, in the order listed. *)
Definition spec_selected (files : list string) (fileIndices : list Z) : list string :=
  omap (λ i, if ((0 <=? i) && (i <? Z.of_nat (length files)))%Z
             then files !! Z.to_nat i else None) fileIndices.

(** ** GET /api/download/all-captions/:sessionId *)

Definition download_all_captions (fs : filesys) (sessionId : string) : download_response :=
  match results fs !! sessionId with
  | None => DownloadNotFound "No results found for this session"
  | Some d =>
      let files := filter (λ f, is_caption_file f = true) (readdir_results d) in
      if decide (length files = 0)
      then DownloadNotFound "No caption files found for this session"
      else DownloadZip ("captions-" +:+ sessionId +:+ ".zip")
             ((λ file, ZipEntry (join (resultsDir sessionId) file) file) <$> files)
  end.

(** ** GET /api/download/status/:sessionId *)

Record image_link := ImageLink {
  il_name : string;
  il_path : string;
  il_size : nat
}.

Record caption_link := CaptionLink {
  cl_name : string;
  cl_path : string;
  cl_size : nat;
  (** [imageFiles.find(...)?.name] *)
  cl_imageFile : option string
}.

Record download_links := DownloadLinks {
  allCaptions : string;
  allFilesSeparate : string;
  allFilesPaired : string;
  allFilesFlat : string
}.

Record download_status_body := DownloadStatusBody {
  ds_sessionId : string;
  imageCount : nat;
  captionCount : nat;
  allCaptioned : bool;
  downloadLinks : download_links;
  ds_imageFiles : list image_link;
  ds_captionFiles : list caption_link
}.

Inductive download_status_response :=
| DownloadStatusNotFound (message : string)
| DownloadStatusOk (body : download_status_body).

(** [Array.prototype.find] *)
Definition js_find {A} (p : A → bool) (l : list A) : option A := head (List.filter p l).

(** [size_of] is [fs.statSync(path).size]. *)
Definition download_status (size_of : string → nat) (fs : filesys) (sessionId : string)
    : download_status_response :=
  match uploads fs !! sessionId with
  | None => DownloadStatusNotFound "Upload session not found"
  | Some entries =>
      let imageFiles :=
        (λ file, ImageLink file ("/api/download/image/" +:+ sessionId +:+ "/" +:+ file)
                           (size_of (join (uploadsDir sessionId) file)))
        <$> filter (λ f, is_image f = true) entries in
      let captionFiles :=
        match results fs !! sessionId with
        | Some d =>
            (λ file, CaptionLink file ("/api/download/caption/" +:+ sessionId +:+ "/" +:+ file)
                       (size_of (join (resultsDir sessionId) file))
                       (il_name <$> js_find (λ img, String.eqb (parse_name (il_name img))
                                                               (parse_name file)) imageFiles))
            <$> filter (λ f, is_caption_file f = true) (readdir_results d)
        | None => []
        end in
      let allCaptioned :=
        (0 <? length imageFiles)%nat &&
        forallb (λ img, existsb (λ cap, String.eqb (parse_name (cl_name cap))
                                                   (parse_name (il_name img))) captionFiles)
                imageFiles in
      DownloadStatusOk
        {| ds_sessionId := sessionId;
           imageCount := length imageFiles;
           captionCount := length captionFiles;
           allCaptioned := allCaptioned;
           downloadLinks :=
             {| allCaptions := "/api/download/all-captions/" +:+ sessionId;
                allFilesSeparate := "/api/download/all/" +:+ sessionId +:+ "?format=separate";
                allFilesPaired := "/api/download/all/" +:+ sessionId +:+ "?format=paired";
                allFilesFlat := "/api/download/all/" +:+ sessionId +:+ "?format=flat" |};
           ds_imageFiles := imageFiles;
           ds_captionFiles := captionFiles |}
  end.

(** ** DELETE /api/upload/sessions/:sessionId *)

Inductive delete_response :=
| DeleteNotFound (message : string)
| DeleteOk (message : string) (sessionId : string).

(** [fs.removeSync(sessionDir)] removes the upload directory of the session;
    its results directory is not looked at. *)
Definition delete_session (fs : filesys) (sessionId : string) : filesys * delete_response :=
  match uploads fs !! sessionId with
  | None => (fs, DeleteNotFound "Session not found")
  | Some _ =>
      (Filesys (delete sessionId (uploads fs)) (results fs),
       DeleteOk "Session deleted successfully" sessionId)
  end.

(** Checks of the reported progress against the exact percentage, for
    the bounded tables of the progress lemmas. *)
Definition progress_close (x : nat * nat) : bool :=
  ((spec_progress x.1 x.2 - 1 <=? compute_progress x.1 x.2)
   && (compute_progress x.1 x.2 <=? spec_progress x.1 x.2))%Z.

Definition progress_ends (n : nat) : bool :=
  ((compute_progress n n =? 100) && (compute_progress 0 n =? 0))%Z.

(** ** The client's processing page

    [calculateTimeRemaining] of [ProcessingPage.js]; the two counts are the
    [processedImages] and [totalImages] of the status, integers that doubles
    hold exactly, as are their difference and its product with 5. *)

Definition double_of_Z (z : Z) : spec_float := binary_normalize 53 1024 z 0 false.

(** [Math.ceil] of a finite double, as an integer. *)
Definition math_ceil (x : spec_float) : Z :=
  match x with
  | S754_finite s m e =>
      let v := cond_Zopp s (Zpos m) in
      if (0 <=? e)%Z then (v * 2 ^ e)%Z else (- ((- v) / 2 ^ (- e)))%Z
  | _ => 0%Z
  end.

Definition calculateTimeRemaining (processedFiles totalFiles : nat) : string :=
  if (processedFiles =? 0)%nat then "Calculating..."
  else
    let remainingFiles := (Z.of_nat totalFiles - Z.of_nat processedFiles)%Z in
    let estimatedSecondsRemaining := (remainingFiles * 5)%Z in
    if (estimatedSecondsRemaining <? 60)%Z
    then "About " +:+ string_of_Z estimatedSecondsRemaining +:+ " seconds remaining"
    else if (estimatedSecondsRemaining <? 3600)%Z
    then "About "
         +:+ string_of_Z (math_ceil (double_div (double_of_Z estimatedSecondsRemaining)
                                                (double_of_Z 60)))
         +:+ " minutes remaining"
    else "About "
         +:+ string_of_Z (math_ceil (double_div (double_of_Z estimatedSecondsRemaining)
                                                (double_of_Z 3600)))
         +:+ " hours remaining".

(** The rounded quotient against the exact one, for the bounded tables of
    the estimate's lemmas. *)
Definition ceil_div_ok (d : Z) (remaining : nat) : bool :=
  let s := (Z.of_nat remaining * 5)%Z in
  (math_ceil (double_div (double_of_Z s) (double_of_Z d)) =? (s + d - 1) / d)%Z.

(** ** The client's results page

    [findMatchingImage] of [ResultsPage.js]. *)

Fixpoint string_drop (n : nat) (s : string) : string :=
  match n, s with
  | S n', String _ r => string_drop n' r
  | _, _ => s
  end.

(** [s.replace(pat, rep)] for a string pattern: the first occurrence. *)
Fixpoint replace_first (pat rep s : string) : string :=
  if String.prefix pat s then rep +:+ string_drop (String.length pat) s
  else match s with
       | "" => ""
       | String c r => String c (replace_first pat rep r)
       end.

Fixpoint string_forallb (p : ascii → bool) (s : string) : bool :=
  match s with
  | "" => true
  | String c r => p c && string_forallb p r
  end.

(** [s.replace(/\.[^/.]+$/, '')]: the leftmost dot that is followed, up to
    the end, by one or more characters other than a slash and a dot. *)
Fixpoint strip_extension (s : string) : string :=
  match s with
  | "" => ""
  | String c r =>
      if Ascii.eqb c "." && negb (String.eqb r "")
         && string_forallb (λ d, negb (Ascii.eqb d "/" || Ascii.eqb d ".")) r
      then ""
      else String c (strip_extension r)
  end.

(** [a.startsWith(b)] *)
Definition startsWith (a b : string) : bool := String.prefix b a.

Definition matches_image (baseName : string) (img : image_link) : bool :=
  startsWith (il_name img) baseName || startsWith baseName (strip_extension (il_name img)).

Definition findMatchingImage (imageFiles : list image_link) (captionFile : caption_link)
    : option image_link :=
  let baseName := replace_first ".txt" "" (cl_name captionFile) in
  js_find (matches_image baseName) imageFiles.

(** ** POST /api/upload/folder

    The callback the handler gives to multer; [dirname] is [path.dirname]. *)

(** A file as multer reports it. *)
Record multer_file := MulterFile {
  mf_fieldname : string;
  mf_originalname : string;
  mf_encoding : string;
  mf_mimetype : string;
  mf_destination : string;
  mf_filename : string;
  mf_path : string;
  mf_size : nat
}.

(** The fields the response repeats. *)
Record file_info := FileInfo {
  fi_filename : string;
  fi_originalname : string;
  fi_mimetype : string;
  fi_size : nat;
  fi_path : string
}.

Definition file_info_of (file : multer_file) : file_info :=
  FileInfo (mf_filename file) (mf_originalname file) (mf_mimetype file)
           (mf_size file) (mf_path file).

Inductive folder_response :=
| FolderNext (err : string)
| FolderFailure (code : nat) (message : string)
| FolderThrows (message : string)
| FolderOk (message : string) (files : list file_info)
           (filesByDirectory : gmap string (list file_info)) (sessionId : string).

(** One step of [req.files.forEach]; [filesByDirectory] is an object
    literal, so a directory named as a member of [Object.prototype] finds
    that member, which has no [push]: [None] when that throws. *)
Definition group_file (dirname : string → string)
    (acc : option (gmap string (list file_info))) (file : multer_file)
    : option (gmap string (list file_info)) :=
  match acc with
  | None => None
  | Some filesByDirectory =>
      let dirPath := dirname (mf_originalname file) in
      match filesByDirectory !! dirPath with
      | Some l => Some (<[dirPath := l ++ [file_info_of file]]> filesByDirectory)
      | None =>
          if bool_decide (dirPath ∈ object_prototype_keys) then None
          else Some (<[dirPath := [file_info_of file]]> filesByDirectory)
      end
  end.

Definition folder_uploaded (dirname : string → string) (sessionId : string)
    (err : option string) (files : option (list multer_file)) : folder_response :=
  match err with
  | Some err => FolderNext err
  | None =>
      match files with
      | None | Some [] => FolderFailure 400 "No files uploaded"
      | Some files =>
          match foldl (group_file dirname) (Some ∅) files with
          | None => FolderThrows "filesByDirectory[dirPath].push is not a function"
          | Some filesByDirectory =>
              FolderOk (string_of_nat (length files) +:+ " files uploaded successfully")
                       (file_info_of <$> files) filesByDirectory sessionId
          end
      end
  end.

Fixpoint drop_while {A} (p : A → bool) (l : list A) : list A :=
  match l with
  | [] => []
  | x :: r => if p x then drop_while p r else l
  end.

(** [path.dirname] of Node on POSIX: the path up to the last separator
    that has a name after it, trailing separators apart; [.] without one. *)
Definition posix_dirname (path : string) : string :=
  match path with
  | "" => "."
  | String c rest =>
      let hasRoot := Ascii.eqb c "/" in
      let is_slash := λ d, Ascii.eqb d "/" in
      let r := drop_while (λ d, negb (is_slash d))
                          (drop_while is_slash (rev (list_ascii_of_string rest))) in
      match r with
      | [] => if hasRoot then "/" else "."
      | _ :: before =>
          if hasRoot && (length r =? 1)%nat then "//"
          else String c (string_of_list_ascii (rev before))
      end
  end.

(** ** Sample data for the examples *)

(** Nothing answers and every write goes through. *)
Definition env_silent : env :=
  Env (λ _ _, Rejected "offline") (λ _ _ _, Rejected "offline") (λ _, None).

(** One session with the single caption file [a.txt] holding [a]. *)
Definition fs_one_caption : filesys :=
  Filesys ∅ {[ "s" := {[ "a.txt" := "a" ]} ]}.

(** [n] names: stem, number, extension. *)
Definition numbered (stem ext : string) (n : nat) : list string :=
  map (λ i, stem +:+ string_of_nat i +:+ ext) (seq 0 n).

(** Fifty uploaded images, twenty-nine of them captioned so far. *)
Definition fs_partial : filesys :=
  Filesys {[ "s" := numbered "img" ".png" 50 ]}
          {[ "s" := list_to_map (map (λ f, (f, "a cat, sitting")) (numbered "img" ".txt" 29)) ]}.

(** One uploaded image whose basename is a member of [Object.prototype],
    not captioned yet. *)
Definition fs_constructor : filesys :=
  Filesys {[ "s" := ["constructor.jpg"] ]} ∅.

(** Every call is answered with one completion. *)
Definition env_echo : env :=
  Env (λ _ _, Resolved (Metadata 640 480 "png"))
      (λ _ _ _, Resolved [Some "  a cat, sitting  "])
      (λ _, None).

(** As [env_echo], but the metadata of the second file cannot be read. *)
Definition env_flaky : env :=
  Env (λ id _, if (id =? 1)%nat then Rejected "Input file is missing"
               else Resolved (Metadata 640 480 "png"))
      (λ _ _ _, Resolved [Some "  a cat, sitting  "])
      (λ _, None).

(** Three images and a file that is none. *)
Definition fs_three : filesys :=
  Filesys {[ "s" := ["a.jpg"; "b.png"; "notes.md"; "c.gif"] ]} ∅.

(** Two images with one basename. *)
Definition fs_clash : filesys :=
  Filesys {[ "s" := ["a.jpg"; "a.png"] ]} ∅.

Definition rq_plain : caption_request := CaptionRequest "s" "sk-test" "" None 300.

Definition rq_tagged : caption_request := CaptionRequest "s" "sk-test" " cat " None 300.

(** A request without an API key. *)
Definition rq_no_key : caption_request := CaptionRequest "s" "" "" None 300.

(** * Properties *)

Example extname_samples :
  map extname ["index.html"; "index.coffee.md"; "index."; "index"; ".index";
               ".index.md"; ".."; "..."; "..a"; "."]
  = [".html"; ".md"; "."; ""; ""; ".md"; ""; "."; ".a"; ""].
Proof. reflexivity. Qed.

Example parse_name_samples :
  map parse_name ["cat.JPG"; "a.b.png"; ".jpg"; "noext"; ".."]
  = ["cat"; "a.b"; ".jpg"; "noext"; ".."].
Proof. reflexivity. Qed.

Example trim_samples :
  map trim ["  a b  "; ""; "   "; "x"] = ["a b"; ""; ""; "x"].
Proof. reflexivity. Qed.

Example split_samples :
  map split_comma ["a, b"; ""; ","; "a,,b"] = [["a"; " b"]; [""]; [""; ""]; ["a"; ""; "b"]].
Proof. reflexivity. Qed.

Example is_image_samples :
  map is_image ["a.jpg"; "b.JPEG"; "c.txt"; ".png"; "d.webp.bak"; "e.BmP"]
  = [true; true; false; false; false; true].
Proof. vm_compute. reflexivity. Qed.

Example progress_samples :
  map (λ '(p, t), compute_progress p t) [(0, 3); (3, 3); (1, 3); (5, 0); (29, 50); (29, 100)]%nat
  = [0; 100; 33; 0; 57; 28]%Z.
Proof. vm_compute. reflexivity. Qed.
(** ** Facts about strings *)


Lemma trimEnd_cons c r :
  trimEnd (String c r) =
    if String.eqb (trimEnd r) "" then (if is_white c then "" else String c "")
    else String c (trimEnd r).
Proof. simpl. destruct (trimEnd r); reflexivity. Qed.

Lemma eqb_empty s : String.eqb s "" = true ↔ s = "".
Proof. apply String.eqb_eq. Qed.

Lemma trimEnd_idem s : trimEnd (trimEnd s) = trimEnd s.
Proof.
  induction s as [|c r IH]; [done|].
  rewrite trimEnd_cons.
  destruct (String.eqb (trimEnd r) "") eqn:E.
  - destruct (is_white c) eqn:W; [done|]. simpl. by rewrite W.
  - rewrite trimEnd_cons, IH, E. done.
Qed.

Lemma trimStart_idem s : trimStart (trimStart s) = trimStart s.
Proof.
  induction s as [|c r IH]; [done|]. simpl.
  destruct (is_white c) eqn:W; [done|]. simpl. by rewrite W.
Qed.

Lemma trim_comm s : trimEnd (trimStart s) = trimStart (trimEnd s).
Proof.
  induction s as [|c r IH]; [done|].
  rewrite trimEnd_cons. simpl trimStart at 1.
  destruct (is_white c) eqn:W.
  - rewrite IH. destruct (String.eqb (trimEnd r) "") eqn:E.
    + apply eqb_empty in E. by rewrite E.
    + simpl. by rewrite W.
  - rewrite trimEnd_cons.
    destruct (String.eqb (trimEnd r) ""); simpl; by rewrite W.
Qed.

Lemma trim_trimmed s : trimmed (trim s).
Proof.
  split; unfold trim.
  - by rewrite trim_comm, trimStart_idem.
  - apply trimEnd_idem.
Qed.

Lemma trimmed_trim s : trimmed s → trim s = s.
Proof. intros [H1 H2]. unfold trim. by rewrite H1. Qed.

Lemma trimEnd_app_keep a b : trimEnd b ≠ "" → trimEnd (a +:+ b) = a +:+ trimEnd b.
Proof.
  intros Hb. induction a as [|c a IH]; [done|].
  change (String c a +:+ b) with (String c (a +:+ b)).
  rewrite trimEnd_cons, IH.
  destruct (String.eqb (a +:+ trimEnd b) "") eqn:E; [|done].
  apply eqb_empty in E. destruct a; simpl in E; [done|discriminate].
Qed.

Lemma trimStart_head_nonwhite c r : is_white c = false → trimStart (String c r) = String c r.
Proof. intros W. simpl. by rewrite W. Qed.

Lemma trimStart_fixed s : trimStart s = s → s = "" ∨ ∃ c r, s = String c r ∧ is_white c = false.
Proof.
  destruct s as [|c r]; [by left|]. intros H. right. exists c, r. split; [done|].
  destruct (is_white c) eqn:W; [|done]. simpl in H. rewrite W in H.
  exfalso. clear W.
  assert (∀ s, String.length (trimStart s) <= String.length s)%nat as Hlen.
  { clear. induction s as [|c s IH]; simpl; [lia|]. destruct (is_white c); simpl; lia. }
  specialize (Hlen r). rewrite H in Hlen. simpl in Hlen. lia.
Qed.

Lemma trimmed_append x t :
  trimmed x → trimmed t → t ≠ "" → trimmed (x +:+ ", " +:+ t).
Proof.
  intros [Hx1 Hx2] [Ht1 Ht2] Hne. split.
  - destruct (trimStart_fixed x Hx1) as [->|(c & r & -> & W)].
    + reflexivity.
    + change (String c r +:+ ", " +:+ t) with (String c (r +:+ ", " +:+ t)).
      by apply trimStart_head_nonwhite.
  - assert (trimEnd (", " +:+ t) = ", " +:+ t) as Hc.
    { rewrite trimEnd_app_keep; by rewrite Ht2. }
    rewrite trimEnd_app_keep; rewrite Hc; [done|].
    intros E. apply (f_equal String.length) in E. simpl in E. lia.
Qed.

Lemma prefix_refl t : String.prefix t t = true.
Proof. induction t as [|c t IH]; [done|]. simpl. destruct (ascii_dec c c); [done | congruence]. Qed.

Lemma prefix_app_r t s y : String.prefix t s = true → String.prefix t (s +:+ y) = true.
Proof.
  revert s. induction t as [|c t IH]; intros s H; [by destruct (s +:+ y)|].
  destruct s as [|d s]; simpl in *; [done|].
  destruct (ascii_dec c d); [by apply IH | done].
Qed.

Lemma includes_unfold s t :
  includes s t = String.prefix t s || match s with "" => false | String _ r => includes r t end.
Proof. by destruct s. Qed.

Lemma includes_app_l s t y : includes s t = true → includes (s +:+ y) t = true.
Proof.
  induction s as [|c s IH]; intros H.
  - rewrite includes_unfold in H. rewrite orb_false_r in H.
    destruct t; [|done]. rewrite includes_unfold. by destruct y.
  - rewrite includes_unfold in H. apply orb_true_iff in H as [H|H].
    + rewrite includes_unfold. apply orb_true_iff. left. by apply prefix_app_r.
    + change (String c s +:+ y) with (String c (s +:+ y)).
      rewrite includes_unfold. apply orb_true_iff. right. by apply IH.
Qed.

Lemma includes_app_r a b t : includes b t = true → includes (a +:+ b) t = true.
Proof.
  intros H. induction a as [|c a IH]; [done|].
  change (String c a +:+ b) with (String c (a +:+ b)).
  rewrite includes_unfold. apply orb_true_iff. by right.
Qed.

Lemma includes_self t : includes t t = true.
Proof. rewrite includes_unfold. by rewrite prefix_refl. Qed.

Lemma add_tag_includes c t : includes (add_tag c t) t = true.
Proof.
  unfold add_tag. destruct (includes c t) eqn:E; [done|].
  apply includes_app_r, includes_app_r, includes_self.
Qed.

Lemma add_tag_mono c t u : includes c u = true → includes (add_tag c t) u = true.
Proof.
  intros H. unfold add_tag. destruct (includes c t); [done|]. by apply includes_app_l.
Qed.

Lemma add_tags_cons c t T : add_tags c (t :: T) = add_tags (add_tag c t) T.
Proof. reflexivity. Qed.

Lemma add_tags_mono T c u : includes c u = true → includes (add_tags c T) u = true.
Proof.
  revert c. induction T as [|t T IH]; intros c H; [done|].
  rewrite add_tags_cons. apply IH. by apply add_tag_mono.
Qed.

Lemma add_tags_includes T c t : t ∈ T → includes (add_tags c T) t = true.
Proof.
  revert c. induction T as [|t' T IH]; intros c Hin; [by apply elem_of_nil in Hin|].
  rewrite add_tags_cons. apply elem_of_cons in Hin as [->|Hin].
  - apply add_tags_mono, add_tag_includes.
  - by apply IH.
Qed.

Lemma add_tags_fixed T c : (∀ t, t ∈ T → includes c t = true) → add_tags c T = c.
Proof.
  induction T as [|t T IH]; intros H; [done|].
  rewrite add_tags_cons. unfold add_tag. rewrite H by apply list_elem_of_here.
  apply IH. intros u Hu. apply H. by apply list_elem_of_further.
Qed.

Lemma add_tags_idem T c : add_tags (add_tags c T) T = add_tags c T.
Proof. apply add_tags_fixed. intros t Ht. by apply add_tags_includes. Qed.


Lemma add_tags_trimmed T c : trimmed c → Forall clean_tag T → trimmed (add_tags c T).
Proof.
  revert c. induction T as [|t T IH]; intros c Hc HT; [done|].
  apply Forall_cons in HT as [[Ht Hne] HT].
  rewrite add_tags_cons. apply IH; [|done]. unfold add_tag. destruct (includes c t); [done|].
  by apply trimmed_append.
Qed.

Lemma tagsToAdd_clean g : Forall clean_tag (tagsToAdd g).
Proof.
  unfold tagsToAdd. apply Forall_forall. intros t Ht.
  apply list_elem_of_filter in Ht as [Hne Ht].
  apply list_elem_of_fmap in Ht as (p & -> & _). split; [apply trim_trimmed | done].
Qed.

(** Reading a caption the updater wrote and updating it again changes
    nothing. *)
Lemma retag_fixed g text :
  let caption := add_tags (trim text) (tagsToAdd g) in
  add_tags (trim caption) (tagsToAdd g) = caption.
Proof.
  intros caption.
  rewrite (trimmed_trim caption).
  - apply add_tags_idem.
  - apply add_tags_trimmed; [apply trim_trimmed | apply tagsToAdd_clean].
Qed.

(** ** The tag list: the code trims the whole string first, the
    specification does not; the pieces agree. *)

Local Arguments trimEnd : simpl never.
Local Arguments trimStart : simpl never.

Lemma trimStart_cons c r :
  trimStart (String c r) = if is_white c then trimStart r else String c r.
Proof. reflexivity. Qed.

Lemma blank_cons c r : blank (String c r) ↔ is_white c = true ∧ blank r.
Proof.
  unfold blank. rewrite trimEnd_cons.
  destruct (String.eqb (trimEnd r) "") eqn:E.
  - apply eqb_empty in E. destruct (is_white c); split; try done; by intros [? _].
  - split; [done|]. intros [_ B]. rewrite B in E. done.
Qed.

Lemma white_not_comma c : is_white c = true → Ascii.eqb c "," = false.
Proof.
  intros W. destruct (Ascii.eqb c ",") eqn:E; [|done].
  apply Ascii.eqb_eq in E. subst c. done.
Qed.

Lemma blank_split s : blank s → split_comma s = [s].
Proof.
  induction s as [|c r IH]; [done|].
  intros [W B]%blank_cons. simpl. rewrite (white_not_comma c W), (IH B). done.
Qed.

Lemma split_comma_nonempty s : split_comma s ≠ [].
Proof.
  destruct s as [|c r]; [done|]. simpl.
  destruct (Ascii.eqb c ","); [done|]. by destruct (split_comma r).
Qed.

Lemma split_trimStart s :
  map trimStart (split_comma (trimStart s)) = map trimStart (split_comma s).
Proof.
  induction s as [|c r IH]; [done|]. rewrite trimStart_cons.
  destruct (is_white c) eqn:W; [|done].
  rewrite IH. simpl split_comma. rewrite (white_not_comma c W).
  destruct (split_comma r) as [|p ps] eqn:E; [by apply split_comma_nonempty in E|].
  simpl. by rewrite trimStart_cons, W.
Qed.

Lemma split_trimEnd s :
  map trimEnd (split_comma (trimEnd s)) = map trimEnd (split_comma s).
Proof.
  induction s as [|c r IH]; [done|].
  rewrite trimEnd_cons.
  destruct (String.eqb (trimEnd r) "") eqn:E.
  - apply eqb_empty in E. simpl split_comma at 2. rewrite (blank_split r E).
    destruct (is_white c) eqn:W.
    + rewrite (white_not_comma c W). simpl map. rewrite trimEnd_cons, E, W. done.
    + destruct (Ascii.eqb c ",") eqn:C.
      * simpl. rewrite C. simpl. by rewrite E.
      * simpl. rewrite C. simpl. rewrite !trimEnd_cons, E, W. done.
  - simpl split_comma. destruct (Ascii.eqb c ",") eqn:C.
    + simpl. by rewrite IH.
    + destruct (split_comma (trimEnd r)) as [|p' ps'] eqn:E1;
        [by apply split_comma_nonempty in E1|].
      destruct (split_comma r) as [|p ps] eqn:E2;
        [by apply split_comma_nonempty in E2|].
      simpl in IH. injection IH as Hp Hps.
      simpl map. rewrite !trimEnd_cons, Hp, Hps. done.
Qed.

Lemma map_trim_start (l l' : list string) :
  map trimStart l = map trimStart l' → map trim l = map trim l'.
Proof.
  intros H. unfold trim.
  rewrite <- !(map_map trimStart trimEnd). by rewrite H.
Qed.

Lemma map_trim_end (l l' : list string) :
  map trimEnd l = map trimEnd l' → map trim l = map trim l'.
Proof.
  intros H.
  assert (∀ l0, map trim l0 = map trimStart (map trimEnd l0)) as Hm.
  { intros l0. rewrite map_map. apply map_ext. intros a. apply trim_comm. }
  by rewrite !Hm, H.
Qed.

Lemma split_trim s : map trim (split_comma (trim s)) = map trim (split_comma s).
Proof.
  unfold trim at 2.
  rewrite (map_trim_end _ _ (split_trimEnd (trimStart s))).
  apply map_trim_start, split_trimStart.
Qed.

Lemma tagsToAdd_spec g : tagsToAdd g = spec_tags g.
Proof. unfold tagsToAdd, spec_tags. by rewrite split_trim. Qed.

Lemma append_cons x (a b : string) : String x a +:+ b = String x (a +:+ b).
Proof. reflexivity. Qed.

Lemma append_assoc (a b c : string) : (a +:+ b) +:+ c = a +:+ b +:+ c.
Proof. induction a as [|x a IH]; [done|]. by rewrite !append_cons, IH. Qed.

Lemma append_empty_r (a : string) : a +:+ "" = a.
Proof. induction a as [|x a IH]; [done|]. by rewrite append_cons, IH. Qed.

Lemma add_tags_spec T c : add_tags c T = c +:+ tag_suffix (spec_appended c T).
Proof.
  revert c. induction T as [|t T IH]; intros c.
  - simpl. by rewrite append_empty_r.
  - rewrite add_tags_cons. unfold add_tag. simpl spec_appended.
    destruct (includes c t); [apply IH|].
    rewrite IH, append_assoc. reflexivity.
Qed.

(** ** The tag updater on the results directory *)

Lemma results_dir_lookup fs sid d : results fs !! sid = Some d → results_dir fs sid = d.
Proof. intros H. unfold results_dir. by rewrite H. Qed.

Lemma foldl_step {A B} (f : A → B → A) a x l : foldl f a (x :: l) = foldl f (f a x) l.
Proof. reflexivity. Qed.

Lemma update_caption_file_step e sid g fs ups errs d x text :
  results fs !! sid = Some d → d !! x = Some text →
  update_caption_file e sid g (fs, ups, errs) x =
    match write_error e x with
    | Some message => (fs, ups, errs ++ [FileError x (error_message message)])
    | None =>
        let caption := add_tags (trim text) (tagsToAdd g) in
        (writeFile sid x caption fs, ups ++ [TagUpdate x caption], errs)
    end.
Proof.
  intros Hd Ht. unfold update_caption_file.
  by rewrite (results_dir_lookup fs sid d Hd), Ht.
Qed.

Lemma update_fold e sid g l :
  NoDup l →
  ∀ fs ups errs d,
    results fs !! sid = Some d →
    (∀ f, f ∈ l → is_Some (d !! f)) →
    ∃ d' ups' errs',
      foldl (update_caption_file e sid g) (fs, ups, errs) l
      = (Filesys (uploads fs) (<[sid := d']> (results fs)), ups', errs') ∧
      ∀ name, d' !! name =
              if decide (name ∈ l) then updated_text e g name <$> d !! name else d !! name.
Proof.
  induction 1 as [|x l Hx Hl IH]; intros fs ups errs d Hd Hin.
  - exists d, ups, errs. split; [|done]. simpl. destruct fs as [u r]. simpl in *.
    by rewrite insert_id.
  - destruct (Hin x) as [text Ht]; [apply list_elem_of_here|].
    rewrite foldl_step, (update_caption_file_step e sid g fs ups errs d x text Hd Ht).
    destruct (write_error e x) as [message|] eqn:W.
    + destruct (IH fs ups (errs ++ [FileError x (error_message message)]) d Hd)
        as (d' & ups' & errs' & Hf & Hl').
      { intros f Hf. apply Hin. by apply list_elem_of_further. }
      exists d', ups', errs'. split; [done|]. intros name. rewrite Hl'.
      destruct (decide (name = x)) as [->|Hne].
      * rewrite decide_False by done. rewrite decide_True by apply list_elem_of_here.
        rewrite Ht. simpl. unfold updated_text. by rewrite W.
      * destruct (decide (name ∈ l)).
        -- rewrite decide_True by (by apply list_elem_of_further). done.
        -- rewrite decide_False; [done|]. rewrite elem_of_cons. tauto.
    + cbv zeta. set (caption := add_tags (trim text) (tagsToAdd g)).
      set (d1 := <[x := caption]> d).
      destruct (IH (writeFile sid x caption fs) (ups ++ [TagUpdate x caption]) errs d1)
        as (d' & ups' & errs' & Hf & Hl').
      { unfold writeFile. simpl. rewrite lookup_insert_eq.
        by rewrite (results_dir_lookup fs sid d Hd). }
      { intros f Hf. unfold d1. destruct (decide (f = x)) as [->|Hne].
        - rewrite lookup_insert_eq. eauto.
        - rewrite lookup_insert_ne by done. apply Hin. by apply list_elem_of_further. }
      exists d', ups', errs'. split.
      * rewrite Hf. unfold writeFile. simpl. by rewrite insert_insert_eq.
      * intros name. rewrite Hl'. unfold d1.
        destruct (decide (name = x)) as [->|Hne].
        -- rewrite decide_False by done. rewrite decide_True by apply list_elem_of_here.
           rewrite lookup_insert_eq, Ht. simpl. unfold updated_text. by rewrite W.
        -- rewrite lookup_insert_ne by done. destruct (decide (name ∈ l)).
           ++ rewrite decide_True by (by apply list_elem_of_further). done.
           ++ rewrite decide_False; [done|]. rewrite elem_of_cons. tauto.
Qed.

Lemma readdir_results_NoDup (d : gmap string string) : NoDup (readdir_results d).
Proof. apply NoDup_fst_map_to_list. Qed.

Lemma elem_of_readdir_results (d : gmap string string) name :
  name ∈ readdir_results d ↔ is_Some (d !! name).
Proof.
  unfold readdir_results. rewrite list_elem_of_fmap. split.
  - intros ([k v] & -> & H). apply elem_of_map_to_list in H. eauto.
  - intros [v H]. exists (name, v). split; [done|]. by apply elem_of_map_to_list.
Qed.


Lemma elem_of_caption_files d name :
  name ∈ caption_files d ↔ is_caption_file name = true ∧ is_Some (d !! name).
Proof. unfold caption_files. by rewrite list_elem_of_filter, elem_of_readdir_results. Qed.

Lemma trim_empty_literal : trim "" = "".
Proof. reflexivity. Qed.

(** A request that passes every check updates each caption file in place and
    leaves every other entry alone. *)
Lemma add_global_tags_run e fs sid g d :
  sid ≠ "" → trim g ≠ "" → results fs !! sid = Some d → caption_files d ≠ [] →
  ∃ d' message ups errs,
    add_global_tags e fs sid g
    = (Filesys (uploads fs) (<[sid := d']> (results fs)), TagsOk message ups errs sid) ∧
    ∀ name, d' !! name =
            (λ text, if is_caption_file name then updated_text e g name text else text)
              <$> d !! name.
Proof.
  intros Hsid Hg Hd Hfiles. unfold add_global_tags.
  destruct (String.eqb sid "") eqn:E1; [by apply String.eqb_eq in E1|].
  destruct (String.eqb g "") eqn:E2; [apply String.eqb_eq in E2; by subst g|].
  destruct (String.eqb (trim g) "") eqn:E3; [by apply String.eqb_eq in E3|].
  simpl. rewrite Hd. fold (caption_files d).
  destruct (decide (length (caption_files d) = 0)) as [E4|E4];
    [by destruct (caption_files d)|].
  destruct (update_fold e sid g (caption_files d)) with (fs := fs) (ups := @nil tag_update)
    (errs := @nil file_error) (d := d) as (d' & ups' & errs' & Hf & Hl); [| done | |].
  { apply NoDup_filter, readdir_results_NoDup. }
  { intros f Hf. by apply elem_of_caption_files in Hf as [_ ?]. }
  rewrite Hf. eexists d', _, ups', errs'. split; [done|].
  intros name. rewrite Hl. destruct (d !! name) as [text|] eqn:Hn.
  - destruct (is_caption_file name) eqn:C.
    + rewrite decide_True; [done|]. apply elem_of_caption_files. rewrite Hn. eauto.
    + rewrite decide_False; [done|]. rewrite elem_of_caption_files.
      intros [? _]. congruence.
  - by destruct (decide _).
Qed.

Lemma add_global_tags_cases fs sid g :
  (sid ≠ "" ∧ trim g ≠ "" ∧ ∃ d, results fs !! sid = Some d ∧ caption_files d ≠ [])
  ∨ (∀ e, (add_global_tags e fs sid g).1 = fs).
Proof.
  unfold add_global_tags.
  destruct (String.eqb sid "") eqn:E1; [by right|].
  destruct (String.eqb g "") eqn:E2; [by right|].
  destruct (String.eqb (trim g) "") eqn:E3; [by right|].
  simpl. destruct (results fs !! sid) as [d|] eqn:Hd; [|by right].
  fold (caption_files d).
  destruct (decide (length (caption_files d) = 0)) as [E4|E4]; [by right|].
  left. apply String.eqb_neq in E1, E3. repeat split; [done..|].
  exists d. split; [done|]. intros E. by rewrite E in E4.
Qed.

(** C2: for a session whose results directory holds a caption file and a tag
    string that is not blank, the updater answers 200; each caption file
    whose write succeeds then holds its former text, read trimmed, followed
    by [", <tag>"] for exactly the tags (the pieces between commas, trimmed,
    the empty ones dropped, in order) that the text as it stood did not
    contain; every other entry of the directory keeps its content. *)
Theorem add_global_tags_appends_missing e fs sid g d :
  sid ≠ "" → trim g ≠ "" → results fs !! sid = Some d → caption_files d ≠ [] →
  ∃ message ups errs fs',
    add_global_tags e fs sid g = (fs', TagsOk message ups errs sid) ∧
    (∀ name text,
        d !! name = Some text → is_caption_file name = true → write_error e name = None →
        results_dir fs' sid !! name
        = Some (trim text +:+ tag_suffix (spec_appended (trim text) (spec_tags g)))) ∧
    (∀ name, is_caption_file name = false → results_dir fs' sid !! name = d !! name).
Proof.
  intros Hsid Hg Hd Hfiles.
  destruct (add_global_tags_run e fs sid g d Hsid Hg Hd Hfiles)
    as (d' & message & ups & errs & Hrun & Hl).
  exists message, ups, errs, (Filesys (uploads fs) (<[sid := d']> (results fs))).
  split; [done|].
  assert (results_dir (Filesys (uploads fs) (<[sid := d']> (results fs))) sid = d') as ->.
  { apply results_dir_lookup. simpl. apply lookup_insert_eq. }
  split.
  - intros name text Hn C W. rewrite Hl, Hn, C. simpl. unfold updated_text.
    by rewrite W, add_tags_spec, tagsToAdd_spec.
  - intros name C. rewrite Hl, C. by destruct (d !! name).
Qed.

(** The scenario of the specification: tags [a, b] on a caption file holding
    [a] leave [a, b]. *)
Lemma add_global_tags_scenario :
  ∃ message ups errs fs',
    add_global_tags env_silent fs_one_caption "s" "a, b" = (fs', TagsOk message ups errs "s") ∧
    results_dir fs' "s" !! "a.txt" = Some "a, b".
Proof.
  destruct (add_global_tags_appends_missing env_silent fs_one_caption "s" "a, b"
              {[ "a.txt" := "a" ]})
    as (message & ups & errs & fs' & Hrun & Hcap & _).
  - discriminate.
  - vm_compute. discriminate.
  - reflexivity.
  - vm_compute. discriminate.
  - exists message, ups, errs, fs'. split; [exact Hrun|].
    rewrite (Hcap "a.txt" "a"); reflexivity.
Defined.

(** C3: a second update with the same tag string leaves every file as the
    first update left it, provided a write that threw in the first run does
    not go through in the second. *)
Theorem add_global_tags_idempotent e1 e2 fs sid g :
  (∀ name, write_error e1 name ≠ None → write_error e2 name ≠ None) →
  (add_global_tags e2 (add_global_tags e1 fs sid g).1 sid g).1
  = (add_global_tags e1 fs sid g).1.
Proof.
  intros Hw.
  destruct (add_global_tags_cases fs sid g) as [(Hsid & Hg & d & Hd & Hfiles)|Hfail].
  2: { by rewrite !Hfail. }
  destruct (add_global_tags_run e1 fs sid g d Hsid Hg Hd Hfiles)
    as (d1 & m1 & ups1 & errs1 & Hrun1 & Hl1).
  rewrite Hrun1. simpl.
  set (fs1 := Filesys (uploads fs) (<[sid := d1]> (results fs))).
  assert (results fs1 !! sid = Some d1) as Hd1 by apply lookup_insert_eq.
  assert (caption_files d1 ≠ []) as Hfiles1.
  { destruct (caption_files d) as [|f l] eqn:E; [done|].
    assert (f ∈ caption_files d1) as Hf; [|by destruct (caption_files d1); [inversion Hf|]].
    assert (f ∈ caption_files d) as Hf0 by (rewrite E; apply list_elem_of_here).
    apply elem_of_caption_files in Hf0 as [C [text Ht]].
    apply elem_of_caption_files. split; [done|]. rewrite Hl1, Ht. eauto. }
  destruct (add_global_tags_run e2 fs1 sid g d1 Hsid Hg Hd1 Hfiles1)
    as (d2 & m2 & ups2 & errs2 & Hrun2 & Hl2).
  rewrite Hrun2. simpl. unfold fs1. simpl. rewrite insert_insert_eq.
  do 2 f_equal. apply map_eq. intros name. rewrite Hl2, Hl1.
  destruct (d !! name) as [text|]; [|done]. simpl. f_equal.
  destruct (is_caption_file name); [|done].
  unfold updated_text.
  destruct (write_error e1 name) as [m|] eqn:W1.
  - destruct (write_error e2 name) eqn:W2; [done|].
    exfalso. apply (Hw name); [by rewrite W1 | done].
  - destruct (write_error e2 name); [done|]. apply retag_fixed.
Qed.

Lemma add_global_tags_idempotent_witness :
  (add_global_tags env_silent (add_global_tags env_silent fs_one_caption "s" "a, b").1 "s" "a, b").1
  = (add_global_tags env_silent fs_one_caption "s" "a, b").1.
Proof.
  apply (add_global_tags_idempotent env_silent env_silent fs_one_caption "s" "a, b").
  intros name H. exact H.
Defined.

(** ** Presence in the raw text and in the trimmed text *)

Lemma prefix_empty s : String.prefix "" s = true.
Proof. by destruct s. Qed.

Lemma prefix_cons b t a r :
  String.prefix (String b t) (String a r) = if ascii_dec b a then String.prefix t r else false.
Proof. reflexivity. Qed.

Lemma prefix_of_empty t : t ≠ "" → String.prefix t "" = false.
Proof. by destruct t. Qed.

Lemma includes_empty t : t ≠ "" → includes "" t = false.
Proof. intros H. rewrite includes_unfold, prefix_of_empty by done. done. Qed.

Lemma trimEnd_fixed_cons b t :
  trimEnd (String b t) = String b t → (t = "" ∧ is_white b = false) ∨ (t ≠ "" ∧ trimEnd t = t).
Proof.
  rewrite trimEnd_cons. destruct (String.eqb (trimEnd t) "") eqn:E.
  - destruct (is_white b); [done|]. intros [= <-]. by left.
  - intros [= H]. right. split; [|done]. intros ->. by rewrite H in E.
Qed.

Lemma prefix_trimEnd s : ∀ t, trimEnd t = t → t ≠ "" →
  String.prefix t (trimEnd s) = String.prefix t s.
Proof.
  induction s as [|a r IH]; intros t Ht Hne; [done|].
  destruct t as [|b t]; [done|].
  rewrite trimEnd_cons, prefix_cons.
  destruct (trimEnd_fixed_cons b t Ht) as [[-> Wb]|[Hne' Ht']].
  - rewrite prefix_empty.
    destruct (String.eqb (trimEnd r) ""); [|by rewrite prefix_cons, prefix_empty].
    destruct (is_white a) eqn:Wa; [|by rewrite prefix_cons, prefix_empty].
    destruct (ascii_dec b a) as [->|]; [congruence|done].
  - specialize (IH t Ht' Hne').
    destruct (String.eqb (trimEnd r) "") eqn:E.
    + apply eqb_empty in E. rewrite E, prefix_of_empty in IH by done. rewrite <- IH.
      destruct (is_white a); [by destruct (ascii_dec b a)|].
      rewrite prefix_cons, prefix_of_empty by done. by destruct (ascii_dec b a).
    + by rewrite prefix_cons, IH.
Qed.

Lemma includes_trimEnd s t : trimEnd t = t → t ≠ "" → includes (trimEnd s) t = includes s t.
Proof.
  intros Ht Hne. induction s as [|a r IH]; [done|].
  rewrite (includes_unfold (String a r)), <- (prefix_trimEnd (String a r) t Ht Hne), <- IH.
  rewrite trimEnd_cons. destruct (String.eqb (trimEnd r) "") eqn:E.
  - apply eqb_empty in E. rewrite E. rewrite (includes_empty t Hne), orb_false_r.
    destruct (is_white a).
    + by rewrite includes_unfold, orb_false_r.
    + by rewrite includes_unfold, (includes_empty t Hne), orb_false_r.
  - by rewrite includes_unfold.
Qed.

Lemma includes_trimStart s t : trimStart t = t → t ≠ "" → includes (trimStart s) t = includes s t.
Proof.
  intros Ht Hne.
  destruct (trimStart_fixed t Ht) as [->|(b & t' & -> & Wb)]; [done|].
  induction s as [|a r IH]; [done|].
  rewrite trimStart_cons. destruct (is_white a) eqn:Wa; [|done].
  rewrite IH, (includes_unfold (String a r)), prefix_cons.
  destruct (ascii_dec b a) as [->|]; [congruence|done].
Qed.

(** A tag of [tagsToAdd] occurs in the text of a file exactly when it occurs
    in the trimmed text the updater works on. *)
Lemma includes_trim s t : clean_tag t → includes (trim s) t = includes s t.
Proof.
  intros [[H1 H2] Hne]. unfold trim.
  by rewrite includes_trimEnd, includes_trimStart.
Qed.

(** ** Status *)

Lemma caption_status_found fs sid entries :
  uploads fs !! sid = Some entries →
  ∃ body, caption_status fs sid = StatusOk body ∧
    totalImages body = length (filter (λ f, is_image f = true) entries) ∧
    processedImages body = length (caption_files (results_dir fs sid)) ∧
    progress body = compute_progress (processedImages body) (totalImages body) ∧
    isComplete body = (totalImages body <=? processedImages body)%nat && (0 <? totalImages body)%nat.
Proof.
  intros H. unfold caption_status. rewrite H. eexists. split; [reflexivity|]. simpl.
  unfold results_dir. destruct (results fs !! sid); repeat split; reflexivity.
Qed.

Lemma compute_progress_no_images processed : compute_progress processed 0 = 0%Z.
Proof. reflexivity. Qed.

(** C4 at 29 captions for 50 images: the quotient 0.58 is rounded to a
    double, its product with 100 is 57.99999999999999, and the handler
    reports 57 where the floor of the exact percentage is 58. *)
Theorem caption_status_29_of_50 :
  caption_status fs_partial "s"
  = StatusOk {| st_sessionId := "s"; totalImages := 50; processedImages := 29;
                progress := 57; isComplete := false; status := "in-progress" |}
  ∧ spec_progress 29 50 = 58%Z.
Proof. split; vm_compute; reflexivity. Qed.

(** Up to a hundred images and no more captions than images, these four
    counts are the only ones where the rounding shows. *)
Lemma progress_divergences_up_to_100 :
  filter (λ x, compute_progress x.1 x.2 ≠ spec_progress x.1 x.2) (pairs_up_to 100)
  = [(29, 50); (29, 100); (57, 100); (58, 100)].
Proof. vm_compute. reflexivity. Qed.

(** The scenario of the specification: three images, no caption yet; then
    a run in which every file succeeds. *)
Example status_before_and_after_run :
  caption_status fs_three "s"
  = StatusOk {| st_sessionId := "s"; totalImages := 3; processedImages := 0;
                progress := 0; isComplete := false; status := "in-progress" |}
  ∧ caption_status (generate env_echo [] fs_three rq_plain).1.1 "s"
  = StatusOk {| st_sessionId := "s"; totalImages := 3; processedImages := 3;
                progress := 100; isComplete := true; status := "complete" |}.
Proof. split; vm_compute; reflexivity. Qed.

(** ** Download *)

(** C9 for the paired layout at an uncaptioned image named
    [constructor.jpg]: the lookup [captionMap["constructor"]] finds the
    inherited constructor, [path.join] throws on it and the handler answers
    with its error instead of an archive holding [constructor/constructor.jpg]. *)
Theorem download_paired_constructor :
  download_all fs_constructor "s" "paired" = DownloadError "Error downloading all files".
Proof. vm_compute. reflexivity. Qed.

Lemma download_separate fs sid entries :
  uploads fs !! sid = Some entries →
  ∃ attachment zip,
    download_all fs sid "separate" = DownloadZip attachment zip ∧
    map ze_name zip
    = map (λ f, "images/" +:+ f) (filter (λ f, is_image f = true) entries)
      ++ map (λ f, "captions/" +:+ f) (caption_files (results_dir fs sid)).
Proof.
  intros H. unfold download_all. rewrite H. simpl. eexists _, _. split; [reflexivity|].
  rewrite map_app, !map_map. simpl. unfold results_dir, caption_files.
  by destruct (results fs !! sid).
Qed.

Lemma download_flat fs sid entries :
  uploads fs !! sid = Some entries →
  ∃ attachment zip,
    download_all fs sid "flat" = DownloadZip attachment zip ∧
    map ze_name zip
    = filter (λ f, is_image f = true) entries ++ caption_files (results_dir fs sid).
Proof.
  intros H. unfold download_all. rewrite H. simpl. eexists _, _. split; [reflexivity|].
  rewrite map_app, !map_map. simpl. rewrite !map_id. unfold results_dir, caption_files.
  by destruct (results fs !! sid).
Qed.

(** ** One group of the batch processor *)

Section Group.
Variable e : env.
Variable rq : caption_request.

Let sid := rq_sessionId rq.

Lemma settle_some p st p' st' :
  settle e rq p st = (Some p', st') →
  pending_info e rq p' = pending_info e rq p ∧
  S (pending_weight p') = pending_weight p ∧
  st' = RunState (rs_fs st) (rs_results st) (rs_errors st)
                 (rs_trace st ++ [Requested (pending_id p)]).
Proof.
  destruct p as [id file|id file md]; simpl.
  - unfold task_outcome. fold sid.
    destruct (sharp_metadata e id (join (uploadsDir sid) file)) as [md|m];
      intros [= <- <-]; done.
  - destruct (chat_completion e id (chat_messages md) (rq_maxTokens rq)) as [[|[c|] cs]|m];
      try done.
    destruct (write_error e (outputName file)); done.
Qed.

Lemma settle_none p st st' :
  settle e rq p st = (None, st') →
  let i := pending_info e rq p in
  rs_fs st' = write_info sid (rs_fs st) i ∧
  rs_results st' = rs_results st ++ option_list (result_of sid i) ∧
  rs_errors st' = rs_errors st ++ option_list (error_of i) ∧
  rs_trace st' = rs_trace st ++ [Settled (pending_id p)].
Proof.
  destruct p as [id file|id file md]; simpl.
  - unfold task_outcome. fold sid.
    destruct (sharp_metadata e id (join (uploadsDir sid) file)) as [md|m];
      intros [= <-]; simpl. by rewrite app_nil_r.
  - unfold completion_outcome.
    destruct (chat_completion e id (chat_messages md) (rq_maxTokens rq)) as [[|[c|] cs]|m].
    + intros [= <-]; simpl. by rewrite app_nil_r.
    + destruct (write_error e (outputName file)); intros [= <-]; simpl;
        by rewrite app_nil_r.
    + intros [= <-]; simpl. by rewrite app_nil_r.
    + intros [= <-]; simpl. by rewrite app_nil_r.
Qed.

Lemma pending_info_id p : (pending_info e rq p).1.1 = pending_id p.
Proof. by destruct p. Qed.

Lemma weight_pos p : 1 ≤ pending_weight p.
Proof. destruct p; simpl; lia. Qed.

Lemma weight_nil pend : weight pend = 0 → pend = [].
Proof.
  destruct pend as [|p pend]; [done|]. unfold weight. simpl.
  pose proof (weight_pos p). lia.
Qed.

Lemma weight_split pend k p :
  pend !! k = Some p →
  weight pend = weight (take k pend) + pending_weight p + weight (drop (S k) pend).
Proof.
  intros H. rewrite <- (take_drop_middle pend k p H) at 1.
  unfold weight. rewrite sum_list_with_app. simpl. lia.
Qed.

Lemma weight_insert pend k p p' :
  pend !! k = Some p → S (pending_weight p') = pending_weight p →
  S (weight (<[k := p']> pend)) = weight pend.
Proof.
  intros H Hw. rewrite (weight_split pend k p H).
  assert (k < length pend) as Hk by (apply lookup_lt_is_Some; eauto).
  rewrite insert_take_drop by done.
  unfold weight. rewrite sum_list_with_app. simpl. lia.
Qed.

Lemma weight_delete pend k p :
  pend !! k = Some p → weight (delete k pend) < weight pend.
Proof.
  intros H. rewrite (weight_split pend k p H), delete_take_drop.
  unfold weight. rewrite sum_list_with_app. pose proof (weight_pos p). lia.
Qed.

Lemma run_state_eta st :
  st = RunState (rs_fs st) (rs_results st ++ []) (rs_errors st ++ []) (rs_trace st ++ []).
Proof. destruct st. simpl. by rewrite !app_nil_r. Qed.

(** Whatever the order of settling, awaiting a set of pending promises
    ends with none pending; the files that succeed are written and
    reported, the others are recorded as errors, each exactly once. *)
Lemma settle_all_spec fuel : ∀ choices pend st,
  weight pend ≤ fuel →
  ∃ choices' order tr,
    settle_all e rq fuel choices pend st
    = (choices', [],
       RunState (foldl (write_info sid) (rs_fs st) order)
                (rs_results st ++ omap (result_of sid) order)
                (rs_errors st ++ omap error_of order)
                (rs_trace st ++ tr)) ∧
    order ≡ₚ pending_info e rq <$> pend ∧
    settles (pending_id <$> pend) ((λ i, i.1.1) <$> order) tr.
Proof.
  induction fuel as [|fuel IH]; intros choices pend st Hw.
  - assert (pend = []) as -> by (apply weight_nil; lia).
    exists choices, [], []. simpl. split; [by rewrite <- run_state_eta|].
    split; [done|]. split; [by apply Forall_nil|done].
  - simpl settle_all.
    set (k := hd 0 choices `mod` length pend).
    destruct (pend !! k) as [p|] eqn:Hp.
    2: { assert (pend = []) as ->.
         { destruct pend as [|q pend]; [done|].
           apply lookup_ge_None in Hp. pose proof (Nat.mod_upper_bound (hd 0 choices)
             (length (q :: pend))). simpl in *. unfold k in Hp. simpl in Hp. lia. }
         exists choices, [], []. simpl. split; [by rewrite <- run_state_eta|].
         split; [done|]. split; [by apply Forall_nil|done]. }
    destruct (settle e rq p st) as [[p'|] st1] eqn:Hs.
    + destruct (settle_some p st p' st1 Hs) as (Hi & Hwp & ->).
      destruct (IH (tl choices) (<[k := p']> pend)
                   (RunState (rs_fs st) (rs_results st) (rs_errors st)
                             (rs_trace st ++ [Requested (pending_id p)])))
        as (choices' & order & tr & Hrun & Hperm & Hall & Hset).
      { pose proof (weight_insert pend k p p' Hp Hwp). lia. }
      assert (pending_id p' = pending_id p) as Hid.
      { by rewrite <- !pending_info_id, Hi. }
      rewrite list_fmap_insert, Hi, list_insert_id in Hperm
        by (by rewrite list_lookup_fmap, Hp).
      rewrite list_fmap_insert, Hid, list_insert_id in Hall
        by (by rewrite list_lookup_fmap, Hp).
      exists choices', order, (Requested (pending_id p) :: tr).
      split; [|split; [done|split]].
      * rewrite Hrun. simpl. by rewrite <- app_assoc.
      * apply Forall_cons. split; [|done]. split; [done|]. simpl.
        apply list_elem_of_fmap. exists p. split; [done|].
        by apply list_elem_of_lookup_2 in Hp.
      * done.
    + destruct (settle_none p st st1 Hs) as (Hfs & Hres & Herr & Htr).
      destruct (IH (tl choices) (delete k pend) st1)
        as (choices' & order & tr & Hrun & Hperm & Hall & Hset).
      { pose proof (weight_delete pend k p Hp). lia. }
      exists choices', (pending_info e rq p :: order), (Settled (pending_id p) :: tr).
      split; [|split; [|split]].
      * rewrite Hrun, Hfs, Hres, Herr, Htr. simpl.
        rewrite <- !app_assoc. do 2 f_equal.
        -- f_equal. by destruct (result_of sid (pending_info e rq p)).
        -- f_equal. by destruct (error_of (pending_info e rq p)).
      * rewrite Hperm, list_fmap_delete.
        symmetry. apply delete_Permutation. by rewrite list_lookup_fmap, Hp.
      * apply Forall_cons. split.
        -- split; [done|]. simpl. apply list_elem_of_fmap. exists p. split; [done|].
           by apply list_elem_of_lookup_2 in Hp.
        -- eapply Forall_impl; [exact Hall|]. intros ev [Hst Hin]. split; [done|].
           apply list_elem_of_fmap in Hin as (q & -> & Hq).
           apply list_elem_of_fmap. exists q. split; [done|].
           by apply list_elem_of_delete_inv in Hq.
      * change (omap settled_id (Settled (pending_id p) :: tr))
          with (pending_id p :: omap settled_id tr).
        by rewrite fmap_cons, pending_info_id, Hset.
Qed.
(** One step of a pending promise shows one event of its file, the next of
    those still to be seen. *)
Lemma settle_events p st :
  ∃ ev,
    rs_trace (settle e rq p st).2 = rs_trace st ++ [ev] ∧
    event_id ev = pending_id p ∧
    match (settle e rq p st).1 with
    | Some p' => pending_id p' = pending_id p ∧
                 pending_events e rq p = ev :: pending_events e rq p'
    | None => pending_events e rq p = [ev]
    end.
Proof.
  destruct p as [id file|id file md]; simpl;
    unfold pending_events, pending_request, metadata_read; simpl; fold sid.
  - destruct (sharp_metadata e id (join (uploadsDir sid) file)) as [md|m]; simpl.
    + by exists (Requested id).
    + by exists (Settled id).
  - exists (Settled id).
    destruct (chat_completion e id (chat_messages md) (rq_maxTokens rq)) as [[|[c|] cs]|m];
      try done.
    destruct (write_error e (outputName file)); done.
Qed.

Lemma events_of_cons_ne id ev tr : event_id ev ≠ id → events_of id (ev :: tr) = events_of id tr.
Proof. intros H. unfold events_of. by rewrite filter_cons_False. Qed.

Lemma events_of_cons_eq id ev tr :
  event_id ev = id → events_of id (ev :: tr) = ev :: events_of id tr.
Proof. intros H. unfold events_of. by rewrite filter_cons_True. Qed.

Lemma events_of_none id tr : Forall (λ ev, event_id ev ≠ id) tr → events_of id tr = [].
Proof.
  induction 1 as [|ev tr H _ IH]; [done|]. by rewrite events_of_cons_ne.
Qed.

(** Whatever the order of settling, what is seen of each pending promise
    while a set of them is awaited is what was still to be seen of it. *)
Lemma settle_all_events fuel : ∀ choices pend st,
  weight pend ≤ fuel → NoDup (pending_id <$> pend) →
  ∃ tr,
    rs_trace (settle_all e rq fuel choices pend st).2 = rs_trace st ++ tr ∧
    Forall (λ ev, event_id ev ∈ pending_id <$> pend) tr ∧
    ∀ p, p ∈ pend → events_of (pending_id p) tr = pending_events e rq p.
Proof.
  induction fuel as [|fuel IH]; intros choices pend st Hw Hnd.
  - assert (pend = []) as -> by (apply weight_nil; lia).
    exists []. simpl. rewrite app_nil_r. split; [done|]. split; [done|].
    intros p Hp. by apply elem_of_nil in Hp.
  - simpl settle_all.
    set (k := hd 0 choices `mod` length pend).
    destruct (pend !! k) as [p|] eqn:Hp.
    2: { assert (pend = []) as ->.
         { destruct pend as [|q pend]; [done|].
           apply lookup_ge_None in Hp. pose proof (Nat.mod_upper_bound (hd 0 choices)
             (length (q :: pend))). simpl in *. unfold k in Hp. simpl in Hp. lia. }
         exists []. simpl. rewrite app_nil_r. split; [done|]. split; [done|].
         intros p Hp'. by apply elem_of_nil in Hp'. }
    assert (k < length pend) as Hk by (by apply lookup_lt_Some in Hp).
    pose proof (take_drop_middle pend k p Hp) as Hsplit.
    set (l1 := take k pend) in *. set (l2 := drop (S k) pend) in *.
    assert (pending_id p ∉ pending_id <$> (l1 ++ l2)) as Hfresh.
    { rewrite <- Hsplit in Hnd. rewrite fmap_app, fmap_cons in Hnd.
      apply NoDup_app in Hnd as (_ & Hd & Hn2). apply NoDup_cons in Hn2 as [Hn2 _].
      rewrite fmap_app, elem_of_app. intros [H|H]; [|done].
      apply (Hd _ H). apply list_elem_of_here. }
    assert (NoDup (pending_id <$> (l1 ++ l2))) as Hnd'.
    { rewrite <- Hsplit in Hnd. rewrite fmap_app, fmap_cons in Hnd.
      apply NoDup_app in Hnd as (Hn1 & Hd & Hn2). apply NoDup_cons in Hn2 as [_ Hn2].
      rewrite fmap_app. apply NoDup_app. split; [done|]. split; [|done].
      intros x Hx Hx'. apply (Hd x Hx). by apply list_elem_of_further. }
    destruct (settle_events p st) as (ev & Htr & Hid & Hnext).
    destruct (settle e rq p st) as [[p'|] st1] eqn:Hs; simpl in Htr, Hnext.
    + destruct (settle_some p st p' st1 Hs) as (_ & Hwp & _).
      destruct Hnext as [Hid' Hev].
      assert (<[k := p']> pend = l1 ++ p' :: l2) as Hins by (by apply insert_take_drop).
      destruct (IH (tl choices) (<[k := p']> pend) st1) as (tr & Hrun & Hall & Hper).
      { pose proof (weight_insert pend k p p' Hp Hwp). lia. }
      { rewrite Hins, fmap_app, fmap_cons, Hid'.
        rewrite <- Hsplit, fmap_app, fmap_cons in Hnd. done. }
      assert (pending_id <$> <[k := p']> pend = pending_id <$> pend) as Hids.
      { rewrite Hins, <- Hsplit, !fmap_app, !fmap_cons. by rewrite Hid'. }
      exists (ev :: tr). split; [|split].
      * rewrite Hrun, Htr. by rewrite <- app_assoc.
      * apply Forall_cons. split.
        -- rewrite Hid. apply list_elem_of_fmap. exists p. split; [done|].
           by apply list_elem_of_lookup_2 in Hp.
        -- by rewrite <- Hids.
      * intros q Hq. rewrite <- Hsplit in Hq.
        apply elem_of_app in Hq as [Hq|Hq]; [|apply elem_of_cons in Hq as [->|Hq]].
        -- rewrite events_of_cons_ne.
           ++ apply Hper. rewrite Hins. apply elem_of_app. by left.
           ++ rewrite Hid. intros E. apply Hfresh. rewrite E.
              apply list_elem_of_fmap. exists q. split; [done|]. apply elem_of_app. by left.
        -- rewrite events_of_cons_eq by done. rewrite Hev. f_equal.
           rewrite <- Hid'. apply Hper. rewrite Hins. apply elem_of_app. right.
           apply list_elem_of_here.
        -- rewrite events_of_cons_ne.
           ++ apply Hper. rewrite Hins. apply elem_of_app. right.
              by apply list_elem_of_further.
           ++ rewrite Hid. intros E. apply Hfresh. rewrite E.
              apply list_elem_of_fmap. exists q. split; [done|]. apply elem_of_app. by right.
    + assert (delete k pend = l1 ++ l2) as Hdel by apply delete_take_drop.
      destruct (IH (tl choices) (delete k pend) st1) as (tr & Hrun & Hall & Hper).
      { pose proof (weight_delete pend k p Hp). lia. }
      { by rewrite Hdel. }
      exists (ev :: tr). split; [|split].
      * rewrite Hrun, Htr. by rewrite <- app_assoc.
      * apply Forall_cons. split.
        -- rewrite Hid. apply list_elem_of_fmap. exists p. split; [done|].
           by apply list_elem_of_lookup_2 in Hp.
        -- eapply Forall_impl; [exact Hall|]. intros x Hx. rewrite Hdel in Hx.
           rewrite <- Hsplit. rewrite fmap_app in Hx. rewrite fmap_app, fmap_cons.
           apply elem_of_app in Hx as [Hx|Hx]; apply elem_of_app; [by left|].
           right. by apply list_elem_of_further.
      * intros q Hq. rewrite <- Hsplit in Hq.
        apply elem_of_app in Hq as [Hq|Hq]; [|apply elem_of_cons in Hq as [->|Hq]].
        -- rewrite events_of_cons_ne.
           ++ apply Hper. rewrite Hdel. apply elem_of_app. by left.
           ++ rewrite Hid. intros E. apply Hfresh. rewrite E.
              apply list_elem_of_fmap. exists q. split; [done|]. apply elem_of_app. by left.
        -- rewrite events_of_cons_eq by done. rewrite Hnext. f_equal.
           apply events_of_none. eapply Forall_impl; [exact Hall|].
           intros x Hx E. apply Hfresh. rewrite <- E. by rewrite <- Hdel.
        -- rewrite events_of_cons_ne.
           ++ apply Hper. rewrite Hdel. apply elem_of_app. by right.
           ++ rewrite Hid. intros E. apply Hfresh. rewrite E.
              apply list_elem_of_fmap. exists q. split; [done|]. apply elem_of_app. by right.
Qed.
(** *** All calls of a group in flight *)

Lemma settle_all_nil fuel choices st : settle_all e rq fuel choices [] st = (choices, [], st).
Proof. by destruct fuel. Qed.

Lemma settle_all_step fuel k choices pend st p :
  pend !! (k `mod` length pend) = Some p →
  settle_all e rq (S fuel) (k :: choices) pend st
  = match settle e rq p st with
    | (Some p', st') => settle_all e rq fuel choices (<[k `mod` length pend := p']> pend) st'
    | (None, st') => settle_all e rq fuel choices (delete (k `mod` length pend) pend) st'
    end.
Proof. intros H. cbn [settle_all hd tl]. by rewrite H. Qed.

(** The metadata reads settle in order: each file issues its call. *)
Lemma settle_all_metadata rem : ∀ done fuel rest st,
  Forall (resolves e rq) rem →
  ∃ awaiting,
    settle_all e rq (length rem + fuel) (seq (length done) (length rem) ++ rest)
               (done ++ ((λ t, AwaitMetadata t.1 t.2) <$> rem)) st
    = settle_all e rq fuel rest (done ++ awaiting)
        (RunState (rs_fs st) (rs_results st) (rs_errors st)
                  (rs_trace st ++ ((λ t, Requested t.1) <$> rem))) ∧
    pending_id <$> awaiting = rem.*1 ∧
    Forall (λ p, pending_weight p = 1) awaiting.
Proof.
  induction rem as [|x rem IH]; intros done fuel rest st Hres.
  - exists []. simpl. rewrite !app_nil_r. by destruct st.
  - apply Forall_cons in Hres as [[md Hmd] Hres].
    cbn [length Nat.add]. rewrite fmap_cons.
    change (seq (length done) (S (length rem)) ++ rest)
      with (length done :: (seq (S (length done)) (length rem) ++ rest)).
    assert (length done `mod` length (done ++ AwaitMetadata x.1 x.2
              :: ((λ t, AwaitMetadata t.1 t.2) <$> rem)) = length done) as Hk.
    { apply Nat.mod_small. rewrite length_app. simpl. lia. }
    rewrite (settle_all_step _ _ _ _ _ (AwaitMetadata x.1 x.2))
      by (by rewrite Hk, list_lookup_middle).
    rewrite Hk. cbn [settle]. rewrite Hmd.
    assert (<[length done := AwaitCompletion x.1 x.2 md]>
              (done ++ AwaitMetadata x.1 x.2 :: ((λ t, AwaitMetadata t.1 t.2) <$> rem))
            = (done ++ [AwaitCompletion x.1 x.2 md]) ++ ((λ t, AwaitMetadata t.1 t.2) <$> rem))
      as ->.
    { rewrite insert_app_r_alt by lia. rewrite Nat.sub_diag. simpl.
      by rewrite <- app_assoc. }
    destruct (IH (done ++ [AwaitCompletion x.1 x.2 md]) fuel rest
                 (RunState (rs_fs st) (rs_results st) (rs_errors st)
                           (rs_trace st ++ [Requested x.1]))) as (aw & Hrun & Hids & Hw);
      [done|].
    rewrite length_app in Hrun. simpl in Hrun.
    replace (length done + 1) with (S (length done)) in Hrun by lia.
    exists (AwaitCompletion x.1 x.2 md :: aw). split; [|split].
    + rewrite Hrun. simpl. rewrite <- !app_assoc. done.
    + rewrite !fmap_cons, Hids. done.
    + by apply Forall_cons.
Qed.

(** The completions settle in order. *)
Lemma settle_all_completions awaiting : ∀ fuel rest st,
  Forall (λ p, pending_weight p = 1) awaiting →
  ∃ st',
    settle_all e rq (length awaiting + fuel) (replicate (length awaiting) 0 ++ rest)
               awaiting st
    = (rest, [], st') ∧
    rs_trace st' = rs_trace st ++ (Settled <$> (pending_id <$> awaiting)).
Proof.
  induction awaiting as [|p awaiting IH]; intros fuel rest st Hw.
  - exists st. simpl. rewrite settle_all_nil, app_nil_r. done.
  - apply Forall_cons in Hw as [Hp Hw].
    cbn [length Nat.add replicate].
    change ((0 :: replicate (length awaiting) 0) ++ rest)
      with (0 :: (replicate (length awaiting) 0 ++ rest)).
    rewrite (settle_all_step _ _ _ _ _ p) by (by rewrite Nat.Div0.mod_0_l).
    rewrite Nat.Div0.mod_0_l.
    destruct (settle e rq p st) as [[p'|] st1] eqn:Hs.
    { destruct (settle_some p st p' st1 Hs) as (_ & Hwp & _).
      pose proof (weight_pos p'). lia. }
    destruct (settle_none p st st1 Hs) as (_ & _ & _ & Htr).
    destruct (IH fuel rest st1 Hw) as (st' & Hrun & Htr').
    exists st'. split; [exact Hrun|]. rewrite Htr', Htr. rewrite !fmap_cons.
    by rewrite <- app_assoc.
Qed.
End Group.

(** ** Chunking *)

Section Chunks.
Context {A : Type}.
Implicit Types (files : list A) (size : nat).

Lemma slice_take_drop i size files : slice i (i + size) files = take size (drop i files).
Proof. unfold slice. by replace (i + size - i) with size by lia. Qed.

Lemma chunk_loop_concat size files : 1 ≤ size → ∀ fuel i,
  length files - i ≤ fuel → concat (chunk_loop fuel size files i) = drop i files.
Proof.
  intros Hsize. induction fuel as [|fuel IH]; intros i Hfuel.
  - simpl. rewrite drop_ge; [done|lia].
  - simpl. destruct (i <? length files) eqn:E.
    + apply Nat.ltb_lt in E. simpl. rewrite IH by lia.
      rewrite slice_take_drop, <- drop_drop.
      apply take_drop.
    + apply Nat.ltb_ge in E. simpl. rewrite drop_ge; [done|lia].
Qed.

Lemma chunks_concat size files : 1 ≤ size → concat (chunks size files) = files.
Proof. intros H. unfold chunks. rewrite chunk_loop_concat; [done|done|lia]. Qed.

Lemma chunk_loop_lookup size files : ∀ fuel i k g,
  chunk_loop fuel size files i !! k = Some g →
  g = take size (drop (i + k * size) files) ∧ i + k * size < length files.
Proof.
  induction fuel as [|fuel IH]; intros i k g H; [done|].
  simpl in H. destruct (i <? length files) eqn:E; [|done].
  apply Nat.ltb_lt in E. destruct k as [|k]; simpl in H.
  - injection H as <-. rewrite slice_take_drop. replace (i + 0 * size) with i by lia.
    done.
  - apply IH in H as [-> H]. replace (i + S k * size) with (i + size + k * size) by lia.
    done.
Qed.

(** Every group but the last is full, and no group is empty. *)
Lemma chunks_sizes size files k g :
  1 ≤ size → chunks size files !! k = Some g →
  1 ≤ length g ≤ size ∧ (S k < length (chunks size files) → length g = size).
Proof.
  intros Hsize H. unfold chunks in *.
  destruct (chunk_loop_lookup size files _ _ _ _ H) as [-> Hk].
  rewrite length_take, length_drop. split; [lia|].
  intros Hnext. destruct (lookup_lt_is_Some_2 _ _ Hnext) as [g' Hg'].
  apply chunk_loop_lookup in Hg' as [_ Hk']. lia.
Qed.
End Chunks.

(** ** The whole run *)

Lemma tasks_of_ids files : (tasks_of files).*1 = seq 0 (length files).
Proof.
  apply list_eq. intros k. unfold tasks_of.
  rewrite list_lookup_fmap, list_lookup_imap.
  destruct (files !! k) as [f|] eqn:E; simpl.
  - symmetry. apply lookup_seq. split; [done|]. by apply lookup_lt_Some in E.
  - symmetry. apply lookup_ge_None. rewrite length_seq. by apply lookup_ge_None in E.
Qed.

Section Run.
Variable e : env.
Variable rq : caption_request.

Let sid := rq_sessionId rq.

Lemma run_group_spec choices st group :
  NoDup group.*1 →
  ∃ choices' order t,
    run_group e rq (choices, st) group
    = (choices',
       RunState (foldl (write_info sid) (rs_fs st) order)
                (rs_results st ++ omap (result_of sid) order)
                (rs_errors st ++ omap error_of order)
                (rs_trace st ++ t)) ∧
    order ≡ₚ task_info_of e rq <$> group ∧
    group_trace e rq group t.
Proof.
  intros Hnd. unfold run_group.
  set (started := RunState _ _ _ _).
  assert ((pending_id ∘ (λ t, AwaitMetadata t.1 t.2)) <$> group = group.*1) as Hids.
  { apply list_fmap_ext. by intros _ [id file] _. }
  destruct (settle_all_spec e rq (2 * length group) choices
              ((λ t, AwaitMetadata t.1 t.2) <$> group) started)
    as (choices' & order & tr & Hrun & Hperm & Hset).
  { clear. unfold weight. induction group as [|t group IH]; csimpl in *; lia. }
  destruct (settle_all_events e rq (2 * length group) choices
              ((λ t, AwaitMetadata t.1 t.2) <$> group) started)
    as (tr' & Htr' & _ & Hev).
  { clear. unfold weight. induction group as [|t group IH]; csimpl in *; lia. }
  { by rewrite <- list_fmap_compose, Hids. }
  rewrite Hrun in Htr'. simpl in Htr'. apply app_inv_head in Htr' as <-.
  rewrite Hrun. exists choices', order, (((λ x, Started x.1) <$> group) ++ tr).
  rewrite <- list_fmap_compose in Hperm, Hset.
  assert ((pending_info e rq ∘ (λ t, AwaitMetadata t.1 t.2)) <$> group
          = task_info_of e rq <$> group) as Hinfo.
  { apply list_fmap_ext. by intros _ [id file] _. }
  assert ((λ i : task_info, i.1.1) <$> (task_info_of e rq <$> group) = group.*1) as Hfst.
  { rewrite <- list_fmap_compose. apply list_fmap_ext. by intros _ [id file] _. }
  rewrite Hinfo in Hperm. rewrite Hids in Hset.
  split; [|split].
  - unfold started. simpl. by rewrite <- app_assoc.
  - done.
  - exists ((λ i, i.1.1) <$> order), tr. split; [done|]. split; [|split; [done|]].
    + rewrite <- Hfst. by apply fmap_Permutation.
    + intros [id file] Hx.
      apply (Hev (AwaitMetadata id file)).
      apply list_elem_of_fmap. by exists (id, file).
Qed.

Lemma run_groups_spec groups : ∀ choices st,
  Forall (λ g : list (nat * string), NoDup g.*1) groups →
  ∃ choices' order traces,
    foldl (run_group e rq) (choices, st) groups
    = (choices',
       RunState (foldl (write_info sid) (rs_fs st) order)
                (rs_results st ++ omap (result_of sid) order)
                (rs_errors st ++ omap error_of order)
                (rs_trace st ++ concat traces)) ∧
    order ≡ₚ task_info_of e rq <$> concat groups ∧
    Forall2 (group_trace e rq) groups traces.
Proof.
  induction groups as [|g groups IH]; intros choices st Hnd.
  - exists choices, [], []. simpl. rewrite <- run_state_eta. done.
  - apply Forall_cons in Hnd as [Hg Hnd]. rewrite foldl_step.
    destruct (run_group_spec choices st g Hg) as (choices1 & order1 & t1 & -> & Hp1 & Ht1).
    destruct (IH choices1 (RunState (foldl (write_info sid) (rs_fs st) order1)
                (rs_results st ++ omap (result_of sid) order1)
                (rs_errors st ++ omap error_of order1)
                (rs_trace st ++ t1)) Hnd)
      as (choices' & order & traces & -> & Hp & Ht).
    exists choices', (order1 ++ order), (t1 :: traces). simpl.
    rewrite foldl_app, !omap_app, <- !app_assoc.
    split; [done|]. split; [|by constructor].
    by rewrite fmap_app, Hp1, Hp.
Qed.

Lemma NoDup_concat_each {A} (groups : list (list (nat * A))) :
  NoDup (concat groups).*1 → Forall (λ g : list (nat * A), NoDup g.*1) groups.
Proof.
  induction groups as [|g groups IH]; intros H; [done|].
  simpl in H. rewrite fmap_app in H. apply NoDup_app in H as (Hg & _ & Hrest).
  apply Forall_cons. split; [done|by apply IH].
Qed.

Lemma process_files_spec size choices fs files :
  1 ≤ size →
  ∃ order traces,
    process_files e rq size choices fs files
    = RunState (foldl (write_info sid) fs order)
               (omap (result_of sid) order) (omap error_of order) (concat traces) ∧
    order ≡ₚ task_info_of e rq <$> tasks_of files ∧
    Forall2 (group_trace e rq) (chunks size (tasks_of files)) traces.
Proof.
  intros Hsize. unfold process_files.
  destruct (run_groups_spec (chunks size (tasks_of files)) choices (RunState fs [] [] []))
    as (choices' & order & traces & -> & Hp & Ht).
  { apply NoDup_concat_each. rewrite chunks_concat by done.
    rewrite tasks_of_ids.
    apply NoDup_seq. }
  exists order, traces. simpl. split; [done|]. split; [|done].
  by rewrite chunks_concat in Hp.
Qed.

(** *** Entries that are no file names *)

Lemma file_tasks_ids (chunk : list (nat * selected)) : (file_tasks chunk).*1 `sublist_of` chunk.*1.
Proof.
  induction chunk as [|[id [file|v]] chunk IH]; [done| |]; csimpl; by constructor.
Qed.

Lemma file_tasks_app (a b : list (nat * selected)) :
  file_tasks (a ++ b) = file_tasks a ++ file_tasks b.
Proof. apply omap_app. Qed.

Lemma value_errors_app (a b : list (nat * selected)) :
  value_errors (a ++ b) = value_errors a ++ value_errors b.
Proof. apply omap_app. Qed.

Lemma run_chunks_spec (groups : list (list (nat * selected))) : ∀ choices st,
  Forall (λ g : list (nat * selected), NoDup g.*1) groups →
  ∃ choices' order errs traces,
    foldl (run_chunk e rq) (choices, st) groups
    = (choices',
       RunState (foldl (write_info sid) (rs_fs st) order)
                (rs_results st ++ omap (result_of sid) order)
                (rs_errors st ++ errs)
                (rs_trace st ++ concat traces)) ∧
    order ≡ₚ task_info_of e rq <$> file_tasks (concat groups) ∧
    errs ≡ₚ value_errors (concat groups) ++ omap error_of order ∧
    Forall2 (λ g t, group_trace e rq (file_tasks g) t) groups traces.
Proof.
  induction groups as [|g groups IH]; intros choices st Hnd.
  - exists choices, [], [], []. simpl. rewrite <- run_state_eta. done.
  - apply Forall_cons in Hnd as [Hg Hnd]. rewrite foldl_step.
    unfold run_chunk at 2.
    destruct (run_group_spec choices
                (RunState (rs_fs st) (rs_results st) (rs_errors st ++ value_errors g)
                          (rs_trace st)) (file_tasks g))
      as (choices1 & order1 & t1 & -> & Hp1 & Ht1).
    { eapply sublist_NoDup; [exact Hg|apply file_tasks_ids]. }
    simpl rs_fs. simpl rs_results. simpl rs_errors. simpl rs_trace.
    destruct (IH choices1 (RunState (foldl (write_info sid) (rs_fs st) order1)
                (rs_results st ++ omap (result_of sid) order1)
                ((rs_errors st ++ value_errors g) ++ omap error_of order1)
                (rs_trace st ++ t1)) Hnd)
      as (choices' & order & errs & traces & -> & Hp & He & Ht).
    exists choices', (order1 ++ order), (value_errors g ++ omap error_of order1 ++ errs),
           (t1 :: traces). simpl.
    rewrite foldl_app, !omap_app, <- !app_assoc.
    split; [done|]. split; [|split; [|by constructor]].
    + by rewrite file_tasks_app, fmap_app, Hp1, Hp.
    + rewrite value_errors_app, He.
      rewrite <- !app_assoc. apply Permutation_app_head.
      rewrite !app_assoc. apply Permutation_app_tail. apply Permutation_app_comm.
Qed.

Lemma entries_of_ids sel : (entries_of sel).*1 = seq 0 (length sel).
Proof.
  apply list_eq. intros k. unfold entries_of.
  rewrite list_lookup_fmap, list_lookup_imap.
  destruct (sel !! k) as [f|] eqn:E; simpl.
  - symmetry. apply lookup_seq. split; [done|]. by apply lookup_lt_Some in E.
  - symmetry. apply lookup_ge_None. rewrite length_seq. by apply lookup_ge_None in E.
Qed.

Lemma process_selected_spec size choices fs sel :
  1 ≤ size →
  ∃ order errs traces,
    process_selected e rq size choices fs sel
    = RunState (foldl (write_info sid) fs order)
               (omap (result_of sid) order) errs (concat traces) ∧
    order ≡ₚ task_info_of e rq <$> file_tasks (entries_of sel) ∧
    errs ≡ₚ value_errors (entries_of sel) ++ omap error_of order ∧
    Forall2 (λ g t, group_trace e rq (file_tasks g) t) (chunks size (entries_of sel)) traces.
Proof.
  intros Hsize. unfold process_selected.
  destruct (run_chunks_spec (chunks size (entries_of sel)) choices (RunState fs [] [] []))
    as (choices' & order & errs & traces & -> & Hp & He & Ht).
  { apply NoDup_concat_each. rewrite chunks_concat by done.
    rewrite entries_of_ids. apply NoDup_seq. }
  exists order, errs, traces. simpl. split; [done|].
  rewrite chunks_concat in Hp, He by done. done.
Qed.

(** *** A list of file names is a selection *)

Lemma entries_of_files files :
  entries_of (SFile <$> files) = (λ t, (t.1, SFile t.2)) <$> tasks_of files.
Proof.
  unfold entries_of, tasks_of. apply list_eq. intros k.
  rewrite list_lookup_imap, !list_lookup_fmap, list_lookup_imap.
  by destruct (files !! k).
Qed.

Lemma chunk_loop_fmap {A B} (f : A → B) size (l : list A) : ∀ fuel i,
  chunk_loop fuel size (f <$> l) i = (fmap f : list A → list B) <$> chunk_loop fuel size l i.
Proof.
  induction fuel as [|fuel IH]; intros i; [done|].
  simpl. rewrite length_fmap. destruct (i <? length l); [|done].
  rewrite fmap_cons, IH. f_equal. unfold slice. by rewrite fmap_take, fmap_drop.
Qed.

Lemma chunks_fmap {A B} (f : A → B) size (l : list A) :
  chunks size (f <$> l) = (fmap f : list A → list B) <$> chunks size l.
Proof. unfold chunks. by rewrite length_fmap, chunk_loop_fmap. Qed.

Lemma file_tasks_files (g : list (nat * string)) :
  file_tasks ((λ t, (t.1, SFile t.2)) <$> g) = g.
Proof. induction g as [|[id file] g IH]; [done|]. csimpl. by rewrite IH. Qed.

Lemma value_errors_files (g : list (nat * string)) :
  value_errors ((λ t, (t.1, SFile t.2)) <$> g) = [].
Proof. induction g as [|[id file] g IH]; [done|]. by csimpl. Qed.

Lemma run_chunk_files acc (g : list (nat * string)) :
  run_chunk e rq acc ((λ t, (t.1, SFile t.2)) <$> g) = run_group e rq acc g.
Proof.
  destruct acc as [choices [fs rs es tr]]. unfold run_chunk.
  rewrite file_tasks_files, value_errors_files. simpl. by rewrite app_nil_r.
Qed.

Lemma process_selected_files size choices fs files :
  process_selected e rq size choices fs (SFile <$> files)
  = process_files e rq size choices fs files.
Proof.
  unfold process_selected, process_files.
  rewrite entries_of_files, chunks_fmap. f_equal.
  generalize (choices, RunState fs [] [] []).
  induction (chunks size (tasks_of files)) as [|g gs IH]; intros acc; [done|].
  rewrite fmap_cons, !foldl_step, run_chunk_files. apply IH.
Qed.

(** *** All calls of a group in flight at once *)

Lemma run_group_together rest st group :
  Forall (resolves e rq) group →
  ∃ st',
    run_group e rq (together (length group) ++ rest, st) group = (rest, st') ∧
    rs_trace st' = rs_trace st ++ in_flight group.
Proof.
  intros Hres. unfold run_group, together.
  set (started := RunState _ _ _ _).
  replace (2 * length group) with (length group + (length group + 0)) by lia.
  rewrite <- app_assoc.
  destruct (settle_all_metadata e rq group [] (length group + 0)
              (replicate (length group) 0 ++ rest) started Hres)
    as (aw & Hrun & Hids & Hw).
  change (length (@nil pending)) with 0 in Hrun. rewrite !app_nil_l in Hrun.
  rewrite Hrun.
  assert (length aw = length group) as Hlen.
  { rewrite <- (length_fmap pending_id aw), Hids. by rewrite length_fmap. }
  rewrite <- Hlen.
  match goal with
  | |- context [settle_all _ _ _ _ aw ?ST] =>
      destruct (settle_all_completions e rq aw 0 rest ST Hw) as (st' & Hrun' & Htr)
  end.
  rewrite Hrun'. exists st'. split; [done|].
  rewrite Htr. unfold started, in_flight. simpl. rewrite Hids.
  rewrite <- !app_assoc. do 2 f_equal. by rewrite <- list_fmap_compose.
Qed.

Lemma run_chunks_together (groups : list (list (nat * selected))) : ∀ st,
  Forall (resolves e rq) (file_tasks (concat groups)) →
  rs_trace (foldl (run_chunk e rq)
              (concat ((λ g, together (length (file_tasks g))) <$> groups), st) groups).2
  = rs_trace st ++ concat ((λ g, in_flight (file_tasks g)) <$> groups).
Proof.
  induction groups as [|g groups IH]; intros st Hres.
  - simpl. by rewrite app_nil_r.
  - simpl concat in Hres. rewrite file_tasks_app in Hres.
    apply Forall_app in Hres as [Hg Hres].
    rewrite !fmap_cons. simpl concat. rewrite foldl_step. unfold run_chunk at 2.
    destruct (run_group_together
                (concat ((λ g, together (length (file_tasks g))) <$> groups))
                (RunState (rs_fs st) (rs_results st) (rs_errors st ++ value_errors g)
                          (rs_trace st)) (file_tasks g) Hg) as (st' & -> & Htr).
    rewrite IH by done. rewrite Htr. simpl. by rewrite <- app_assoc.
Qed.
End Run.

(** ** Output names *)

Lemma string_length_append (a b : string) :
  String.length (a +:+ b) = String.length a + String.length b.
Proof. induction a as [|c a IH]; [done|]. rewrite append_cons. simpl. by rewrite IH. Qed.

Lemma append_inj_l (a b s : string) : a +:+ s = b +:+ s → a = b.
Proof.
  revert b. induction a as [|c a IH]; intros [|d b] H; [done| | |].
  - apply (f_equal String.length) in H. rewrite !string_length_append in H. simpl in H. lia.
  - apply (f_equal String.length) in H. rewrite !string_length_append in H. simpl in H. lia.
  - rewrite !append_cons in H. injection H as -> H. f_equal. by apply IH.
Qed.

Lemma outputName_inj f g : outputName f = outputName g → parse_name f = parse_name g.
Proof. apply append_inj_l. Qed.

Lemma split_last_dot_app a s x y :
  split_last_dot s = Some (x, y) → split_last_dot (a +:+ s) = Some (a +:+ x, y).
Proof.
  intros H. induction a as [|c a IH]; [done|].
  rewrite append_cons. simpl. by rewrite IH.
Qed.

Lemma extname_txt a : a ≠ "" → extname (a +:+ ".txt") = ".txt".
Proof.
  intros Ha. unfold extname.
  rewrite (split_last_dot_app a ".txt" "" "txt") by reflexivity.
  rewrite append_empty_r.
  destruct (String.eqb a "") eqn:E; [by apply String.eqb_eq in E|].
  destruct (String.eqb (a +:+ ".txt") "..") eqn:E'; [|done].
  apply String.eqb_eq in E'. apply (f_equal String.length) in E'.
  rewrite string_length_append in E'. simpl in E'. lia.
Qed.

Lemma parse_name_empty f : parse_name f = "" → extname f = "".
Proof.
  unfold parse_name, extname. destruct (split_last_dot f) as [[a b]|]; [|done].
  destruct (String.eqb a "" || String.eqb f "..") eqn:E; [done|].
  intros ->. done.
Qed.

Lemma is_image_parse_name f : is_image f = true → parse_name f ≠ "".
Proof.
  intros H E. apply parse_name_empty in E. unfold is_image in H. rewrite E in H.
  by vm_compute in H.
Qed.

Lemma outputName_is_caption f : is_image f = true → is_caption_file (outputName f) = true.
Proof.
  intros H. unfold is_caption_file, outputName.
  by rewrite extname_txt by (by apply is_image_parse_name).
Qed.

(** ** The results directory after a run *)

Lemma results_dir_writeFile sid name caption fs n :
  results_dir (writeFile sid name caption fs) sid !! n
  = if String.eqb name n then Some caption else results_dir fs sid !! n.
Proof.
  unfold writeFile, results_dir at 1. simpl. rewrite lookup_insert_eq. simpl.
  destruct (String.eqb name n) eqn:E.
  - apply String.eqb_eq in E as ->. by rewrite lookup_insert_eq.
  - apply String.eqb_neq in E. by rewrite lookup_insert_ne.
Qed.

Lemma uploads_writeFile sid name caption fs : uploads (writeFile sid name caption fs) = uploads fs.
Proof. reflexivity. Qed.

Lemma write_all_lookup sid order : ∀ fs name,
  results_dir (foldl (write_info sid) fs order) sid !! name
  = match written name order with
    | Some caption => Some caption
    | None => results_dir fs sid !! name
    end.
Proof.
  induction order as [|[[id file] outcome] order IH]; intros fs name; [done|].
  rewrite foldl_step, IH. simpl written.
  destruct (written name order); [done|].
  destruct outcome as [m|caption]; simpl; [done|].
  rewrite results_dir_writeFile. by destruct (String.eqb (outputName file) name).
Qed.

Lemma write_all_uploads sid order : ∀ fs,
  uploads (foldl (write_info sid) fs order) = uploads fs.
Proof.
  induction order as [|[[id file] outcome] order IH]; intros fs; [done|].
  rewrite foldl_step, IH. by destruct outcome.
Qed.

Lemma written_Some name order caption :
  written name order = Some caption →
  ∃ id file, (id, file, inr caption) ∈ order ∧ outputName file = name.
Proof.
  induction order as [|[[id file] outcome] order IH]; [done|]. simpl.
  destruct (written name order) as [c|].
  - intros [= ->]. destruct IH as (id' & file' & Hin & Hn); [done|].
    exists id', file'. split; [by apply list_elem_of_further|done].
  - destruct outcome as [m|c]; [done|].
    destruct (String.eqb (outputName file) name) eqn:E; [|done].
    intros [= ->]. apply String.eqb_eq in E. exists id, file.
    split; [apply list_elem_of_here|done].
Qed.

Lemma written_None name order :
  written name order = None →
  ∀ id file caption, (id, file, inr caption) ∈ order → outputName file ≠ name.
Proof.
  induction order as [|[[id file] outcome] order IH]; intros H id' file' caption Hin.
  - by apply elem_of_nil in Hin.
  - simpl in H. destruct (written name order) as [c|] eqn:W; [done|].
    apply elem_of_cons in Hin as [[= -> -> <-]|Hin]; [|by eapply IH].
    destruct (String.eqb (outputName file) name) eqn:E; [done|].
    by apply String.eqb_neq in E.
Qed.

Lemma ensureDir_results_dir sid fs : results_dir (ensureDir sid fs) sid = results_dir fs sid.
Proof.
  unfold ensureDir, results_dir. destruct (results fs !! sid) eqn:E.
  - by rewrite E.
  - simpl. by rewrite lookup_insert_eq.
Qed.

Lemma ensureDir_uploads sid fs : uploads (ensureDir sid fs) = uploads fs.
Proof. unfold ensureDir. by destruct (results fs !! sid). Qed.

(** ** The two endpoints *)

Lemma tasks_of_files files : (tasks_of files).*2 = files.
Proof.
  apply list_eq. intros k. unfold tasks_of.
  rewrite list_lookup_fmap, list_lookup_imap. by destruct (files !! k).
Qed.

Lemma entries_of_values sel : (entries_of sel).*2 = sel.
Proof.
  apply list_eq. intros k. unfold entries_of.
  rewrite list_lookup_fmap, list_lookup_imap. by destruct (sel !! k).
Qed.

Lemma entries_of_lookup sel id t :
  entries_of sel !! id = Some t ↔ ∃ v, t = (id, v) ∧ sel !! id = Some v.
Proof.
  unfold entries_of. rewrite list_lookup_imap. destruct (sel !! id) as [f|]; simpl.
  - split; [intros [= <-]; eauto|]. by intros (v & -> & [= ->]).
  - split; [done|]. by intros (v & _ & ?).
Qed.

Lemma elem_of_entries_of sel id v : (id, v) ∈ entries_of sel ↔ sel !! id = Some v.
Proof.
  rewrite list_elem_of_lookup. split.
  - intros [k Hk]. apply entries_of_lookup in Hk as (f & [= -> ->] & Hf). done.
  - intros H. exists id. apply entries_of_lookup. eauto.
Qed.

Lemma elem_of_file_tasks (group : list (nat * selected)) id file :
  (id, file) ∈ file_tasks group ↔ (id, SFile file) ∈ group.
Proof.
  unfold file_tasks. rewrite list_elem_of_omap. split.
  - intros ([i [f|v]] & Hin & H); [|done]. by injection H as -> ->.
  - intros H. by exists (id, SFile file).
Qed.

Lemma elem_of_infos e rq sel (i : task_info) :
  i ∈ task_info_of e rq <$> file_tasks (entries_of sel) ↔
  sel !! i.1.1 = Some (SFile i.1.2) ∧ i.2 = task_outcome e rq i.1.1 i.1.2.
Proof.
  rewrite list_elem_of_fmap. split.
  - intros ([id file] & -> & Hin). apply elem_of_file_tasks in Hin.
    by apply elem_of_entries_of in Hin.
  - intros [Hf Ho]. exists (i.1.1, i.1.2). split.
    + destruct i as [[id file] o]. simpl in *. by rewrite Ho.
    + by apply elem_of_file_tasks, elem_of_entries_of.
Qed.

(** Every file ends in exactly one of the two arrays. *)
Lemma reported_files sid (order : list task_info) :
  (cr_file <$> omap (result_of sid) order)
  ++ files_of (re_file <$> omap error_of order)
  ≡ₚ (λ i, i.1.2) <$> order.
Proof.
  induction order as [|[[id file] [m|c]] order IH]; [done| |]; csimpl.
  - rewrite <- IH. by rewrite Permutation_middle.
  - by rewrite <- IH.
Qed.

Lemma reported_values sid (order : list task_info) :
  (SFile <$> (cr_file <$> omap (result_of sid) order)) ++ (re_file <$> omap error_of order)
  ≡ₚ SFile <$> ((λ i, i.1.2) <$> order).
Proof.
  induction order as [|[[id file] [m|c]] order IH]; [done| |]; csimpl.
  - rewrite <- IH. by rewrite Permutation_middle.
  - by rewrite <- IH.
Qed.

(** The entries of a group are its files and its other values. *)
Lemma group_values (group : list (nat * selected)) :
  (SFile <$> (file_tasks group).*2) ++ (re_file <$> value_errors group) ≡ₚ group.*2.
Proof.
  induction group as [|[id [file|v]] group IH]; [done| |]; csimpl.
  - by rewrite IH.
  - rewrite <- IH. by rewrite Permutation_middle.
Qed.

(** Every selected entry ends in exactly one of the two arrays. *)
Lemma reported_entries e rq sid sel (order : list task_info) errs :
  order ≡ₚ task_info_of e rq <$> file_tasks (entries_of sel) →
  errs ≡ₚ value_errors (entries_of sel) ++ omap error_of order →
  (SFile <$> (cr_file <$> omap (result_of sid) order)) ++ (re_file <$> errs) ≡ₚ sel.
Proof.
  intros Hperm Herr.
  transitivity ((SFile <$> (file_tasks (entries_of sel)).*2)
                ++ (re_file <$> value_errors (entries_of sel))).
  2: { rewrite group_values. by rewrite entries_of_values. }
  rewrite Herr, fmap_app.
  rewrite (Permutation_app_comm (re_file <$> value_errors (entries_of sel))).
  rewrite app_assoc, reported_values. apply Permutation_app_tail.
  rewrite Hperm. rewrite <- !list_fmap_compose.
  assert (∀ l : list (nat * string),
            (SFile ∘ (λ i : task_info, i.1.2) ∘ task_info_of e rq) <$> l
            = (SFile ∘ snd) <$> l) as ->; [|done].
  intros l. apply list_fmap_ext. by intros _ [id file] _.
Qed.

(** *** The selection *)

Lemma array_get_file files key f : array_get files key = Some (SFile f) → f ∈ files.
Proof.
  unfold array_get.
  destruct (List.find _ _) as [i|].
  - destruct (files !! i) as [g|] eqn:E; [|done]. intros [= <-].
    by apply list_elem_of_lookup_2 in E.
  - destruct (String.eqb key "length"); [done|].
    by destruct (bool_decide (key ∈ array_prototype_keys)).
Qed.

Lemma select_value_file files index f : select_value files index = Some (SFile f) → f ∈ files.
Proof.
  unfold select_value. destruct (index_key_of index) as [key| |]; [|done|done].
  destruct (array_get files key) as [v|] eqn:E; [|done].
  destruct (truthy v); [|done]. intros [= ->]. by apply array_get_file in E.
Qed.

Lemma select_values_files files indices sel f :
  select_values files indices = Some sel → SFile f ∈ sel → f ∈ files.
Proof.
  unfold select_values. destruct (existsb to_string_throws indices); [done|].
  intros [= <-] H. apply list_elem_of_omap in H as (i & _ & H).
  by apply select_value_file in H.
Qed.

Lemma selection_all ep rq entries :
  ep = Generate ∨ rq_fileIndices rq = None →
  selection ep rq entries = Some (SFile <$> filter (λ f, is_image f = true) entries).
Proof. unfold selection. intros [->| ->]; [done|by destruct ep]. Qed.

Lemma selection_images ep rq entries sel f :
  selection ep rq entries = Some sel → SFile f ∈ sel → is_image f = true.
Proof.
  unfold selection. intros Hsel Hf.
  assert (f ∈ filter (λ f, is_image f = true) entries) as Hin.
  { assert (Some sel = Some (SFile <$> filter (λ f, is_image f = true) entries) →
            f ∈ filter (λ f, is_image f = true) entries) as Hall.
    { intros [= ->]. apply list_elem_of_fmap in Hf as (g & [= ->] & Hg). done. }
    destruct ep; [by apply Hall|].
    destruct (rq_fileIndices rq) as [[|i rest]|]; [by apply Hall| |by apply Hall].
    by apply (select_values_files _ _ _ _ Hsel). }
  by apply list_elem_of_filter in Hin as [? _].
Qed.

(** A request with a session id and an API key, for a session that was
    uploaded: the selection throws, or nothing is selected, or the selected
    entries are processed. *)
Lemma handler_run ep e choices fs rq entries :
  rq_sessionId rq ≠ "" → rq_apiKey rq ≠ "" →
  uploads fs !! rq_sessionId rq = Some entries →
  let sid := rq_sessionId rq in
  handler ep e choices fs rq
  = match selection ep rq entries with
    | None =>
        (ensureDir sid fs, [], CaptionError "Error generating captions"
                                            "Cannot convert object to primitive value")
    | Some sel =>
        if decide (length sel = 0)
        then (ensureDir sid fs, [], CaptionFailure 400 (no_files_message ep))
        else let st := process_selected e rq (group_size ep) choices (ensureDir sid fs) sel in
             (rs_fs st, rs_trace st, completed_response rq st)
    end.
Proof.
  intros Hsid Hkey Hup. apply String.eqb_neq in Hsid, Hkey.
  destruct ep; unfold handler, generate, batch, selection; simpl;
    rewrite Hsid, Hkey, Hup.
  - rewrite process_selected_files, length_fmap.
    by destruct (decide (length (filter (λ f, is_image f = true) entries) = 0)).
  - by destruct (rq_fileIndices rq) as [[|i rest]|].
Qed.

Section Endpoints.
Variable ep : endpoint.
Variable e : env.
Variable choices : list nat.
Variable fs : filesys.
Variable rq : caption_request.
Variable entries : list string.
Variable sel : list selected.

Let sid := rq_sessionId rq.
Let infos := task_info_of e rq <$> file_tasks (entries_of sel).

Hypothesis Hsid : rq_sessionId rq ≠ "".
Hypothesis Hkey : rq_apiKey rq ≠ "".
Hypothesis Hup : uploads fs !! rq_sessionId rq = Some entries.
Hypothesis Hsel : selection ep rq entries = Some sel.

Lemma group_size_pos : 1 ≤ group_size ep.
Proof. destruct ep; unfold group_size, batchSize, concurrencyLimit; lia. Qed.

(** What a run that finds something to process returns, up to the order of
    settling. *)
Lemma handler_processes :
  sel ≠ [] →
  ∃ order errs traces,
    handler ep e choices fs rq
    = (foldl (write_info sid) (ensureDir sid fs) order,
       concat traces,
       completed_response rq
         (RunState (foldl (write_info sid) (ensureDir sid fs) order)
                   (omap (result_of sid) order) errs (concat traces))) ∧
    order ≡ₚ infos ∧
    errs ≡ₚ value_errors (entries_of sel) ++ omap error_of order ∧
    Forall2 (λ g t, group_trace e rq (file_tasks g) t)
            (chunks (group_size ep) (entries_of sel)) traces.
Proof.
  intros Hne. rewrite (handler_run ep e choices fs rq entries Hsid Hkey Hup), Hsel.
  fold sid. destruct (decide (length sel = 0)) as [E|_]; [by destruct sel|].
  destruct (process_selected_spec e rq (group_size ep) choices (ensureDir sid fs) sel
              group_size_pos) as (order & errs & traces & Hrun & Hperm & Herr & Htr).
  exists order, errs, traces. cbv zeta. rewrite Hrun. done.
Qed.
End Endpoints.

(** A 200 answer is only given to a request with a session id and an API
    key, for a session that was uploaded, that selects something. *)
Lemma handler_ok_inv ep e choices fs rq fs' tr message rs es s :
  handler ep e choices fs rq = (fs', tr, CaptionOk message rs es s) →
  rq_sessionId rq ≠ "" ∧ rq_apiKey rq ≠ "" ∧
  ∃ entries sel, uploads fs !! rq_sessionId rq = Some entries ∧
                 selection ep rq entries = Some sel ∧ sel ≠ [].
Proof.
  intros H.
  destruct (String.eqb (rq_sessionId rq) "") eqn:E1;
    [destruct ep; unfold handler, generate, batch in H; cbv zeta in H; by rewrite E1 in H|].
  destruct (String.eqb (rq_apiKey rq) "") eqn:E2;
    [destruct ep; unfold handler, generate, batch in H; cbv zeta in H; by rewrite E1, E2 in H|].
  destruct (uploads fs !! rq_sessionId rq) as [entries|] eqn:E3;
    [|destruct ep; unfold handler, generate, batch in H; cbv zeta in H;
      by rewrite E1, E2, E3 in H].
  apply String.eqb_neq in E1, E2. split; [done|]. split; [done|].
  exists entries. rewrite (handler_run ep e choices fs rq entries E1 E2 E3) in H.
  destruct (selection ep rq entries) as [sel|]; [|done].
  exists sel. split; [done|]. split; [done|]. intros ->. done.
Qed.

(** The results and the errors of a run, read off its answer. *)
Lemma handler_ok_run ep e choices fs rq fs' tr message rs es :
  handler ep e choices fs rq = (fs', tr, CaptionOk message rs es (rq_sessionId rq)) →
  let sid := rq_sessionId rq in
  ∃ entries sel order,
    uploads fs !! sid = Some entries ∧
    selection ep rq entries = Some sel ∧
    order ≡ₚ task_info_of e rq <$> file_tasks (entries_of sel) ∧
    fs' = foldl (write_info sid) (ensureDir sid fs) order ∧
    rs = omap (result_of sid) order ∧
    es ≡ₚ value_errors (entries_of sel) ++ omap error_of order.
Proof.
  intros Hrun sid.
  destruct (handler_ok_inv _ _ _ _ _ _ _ _ _ _ _ Hrun)
    as (Hsid & Hkey & entries & sel & Hup & Hsel & Hne).
  destruct (handler_processes ep e choices fs rq entries sel Hsid Hkey Hup Hsel Hne)
    as (order & errs & traces & Hrun' & Hperm & Herr & _).
  rewrite Hrun' in Hrun. fold sid in Hrun. injection Hrun as <- _ _ <- <-.
  by exists entries, sel, order.
Qed.

(** C8: a run that finds something to process answers 200 whatever fails;
    its [results] hold one entry per file that succeeds and its [errors]
    one [{file, error}] entry per file whose metadata read, completion or
    write fails (and one per selected entry that is no file name), so that
    every entry is in exactly one of the two; a caption file that was there
    before is still there, with its content unless a file that succeeded
    wrote to it; and the caption file of every file that succeeded is there
    when the run is over, whatever failed for the other files, holding the
    caption reported for it or the caption reported for a file with the
    same output path. *)
Theorem batch_partial_success ep e choices fs rq entries sel :
  rq_sessionId rq ≠ "" → rq_apiKey rq ≠ "" →
  uploads fs !! rq_sessionId rq = Some entries →
  selection ep rq entries = Some sel → sel ≠ [] →
  let sid := rq_sessionId rq in
  let infos := task_info_of e rq <$> file_tasks (entries_of sel) in
  ∃ fs' tr message rs es,
    handler ep e choices fs rq = (fs', tr, CaptionOk message rs es sid) ∧
    rs ≡ₚ omap (result_of sid) infos ∧
    es ≡ₚ omap error_of infos ++ value_errors (entries_of sel) ∧
    (SFile <$> (cr_file <$> rs)) ++ (re_file <$> es) ≡ₚ sel ∧
    (∀ name, is_Some (results_dir fs sid !! name) → is_Some (results_dir fs' sid !! name)) ∧
    (∀ name, (∀ r, r ∈ rs → cr_outputPath r ≠ join (resultsDir sid) name) →
             results_dir fs' sid !! name = results_dir fs sid !! name) ∧
    (∀ r, r ∈ rs →
          ∃ r', r' ∈ rs ∧ cr_outputPath r' = cr_outputPath r ∧
                results_dir fs' sid !! outputName (cr_file r) = Some (cr_caption r')).
Proof.
  intros Hsid Hkey Hup Hsel Hne sid infos.
  destruct (handler_processes ep e choices fs rq entries sel Hsid Hkey Hup Hsel Hne)
    as (order & errs & traces & Hrun & Hperm & Herr & _).
  fold sid infos in Hrun, Hperm.
  eexists _, _, _, _, _. split; [exact Hrun|]. simpl.
  split; [by apply omap_Permutation|].
  split; [|split; [|split; [|split]]].
  - rewrite Herr, Permutation_app_comm. apply Permutation_app_tail.
    by apply omap_Permutation.
  - by apply (reported_entries e rq).
  - intros name Hn. rewrite write_all_lookup, ensureDir_results_dir.
    by destruct (written name order).
  - intros name Hn. rewrite write_all_lookup, ensureDir_results_dir.
    destruct (written name order) as [c|] eqn:W; [|done].
    apply written_Some in W as (id & file & Hin & Hout). exfalso.
    apply (Hn (CaptionResult file (join (resultsDir sid) (outputName file)) c)).
    + apply list_elem_of_omap. by exists (id, file, inr c).
    + simpl. by rewrite Hout.
  - intros r Hr. apply list_elem_of_omap in Hr as ([[id file] [m|c]] & Hin & Hres); [done|].
    injection Hres as <-. simpl. rewrite write_all_lookup.
    destruct (written (outputName file) order) as [c'|] eqn:W.
    + apply written_Some in W as (id' & file' & Hin' & Hout).
      exists (CaptionResult file' (join (resultsDir sid) (outputName file')) c').
      split; [|split; [by rewrite <- Hout|done]].
      apply list_elem_of_omap. by exists (id', file', inr c').
    + exfalso. by apply (written_None _ _ W id file c Hin).
Qed.

Lemma batch_partial_success_witness :
  ∃ fs' tr message rs es,
    generate env_flaky [] fs_three rq_plain = (fs', tr, CaptionOk message rs es "s") ∧
    (SFile <$> (cr_file <$> rs)) ++ (re_file <$> es)
    ≡ₚ [SFile "a.jpg"; SFile "b.png"; SFile "c.gif"].
Proof.
  destruct (batch_partial_success Generate env_flaky [] fs_three rq_plain
              ["a.jpg"; "b.png"; "notes.md"; "c.gif"]
              [SFile "a.jpg"; SFile "b.png"; SFile "c.gif"])
    as (fs' & tr & message & rs & es & Hrun & _ & _ & Hfiles & _).
  - discriminate.
  - discriminate.
  - reflexivity.
  - vm_compute. reflexivity.
  - discriminate.
  - exists fs', tr, message, rs, es. split; [exact Hrun | exact Hfiles].
Defined.

Example flaky_run_reports_the_failure :
  (generate env_flaky [] fs_three rq_plain).2
  = CaptionOk "Caption generation completed for 2 files. 1 errors."
      [CaptionResult "a.jpg" "results/s/a.txt" "a cat, sitting";
       CaptionResult "c.gif" "results/s/c.txt" "a cat, sitting"]
      [RunError (SFile "b.png") "Input file is missing"] "s".
Proof. vm_compute. reflexivity. Qed.

(** ** What a run without failures leaves on disk *)

Lemma error_of_None (i : task_info) : error_of i = None → ∃ caption, i.2 = inr caption.
Proof. destruct i as [[id file] [m|c]]; [done|]. eauto. Qed.

Lemma omap_nil_inv {A B} (f : A → option B) l : omap f l = [] → ∀ x, x ∈ l → f x = None.
Proof.
  induction l as [|y l IH]; intros H x Hx; [by apply elem_of_nil in Hx|].
  csimpl in H. destruct (f y) eqn:E; [done|].
  apply elem_of_cons in Hx as [->|Hx]; [done|by apply IH].
Qed.

Lemma results_of_successes sid (order : list task_info) :
  (∀ i, i ∈ order → ∃ caption, i.2 = inr caption) →
  cr_file <$> omap (result_of sid) order = (λ i, i.1.2) <$> order.
Proof.
  induction order as [|[[id file] o] order IH]; intros H; [done|].
  destruct (H (id, file, o)) as [c Hc]; [apply list_elem_of_here|].
  simpl in Hc. subst o. csimpl. rewrite IH; [done|].
  intros i Hi. apply H. by apply list_elem_of_further.
Qed.

(** A run that reports no error went through file names only, and every
    one of them succeeded. *)
Lemma run_without_errors ep e choices fs rq fs' tr message rs :
  handler ep e choices fs rq = (fs', tr, CaptionOk message rs [] (rq_sessionId rq)) →
  let sid := rq_sessionId rq in
  ∃ entries sel order,
    uploads fs !! sid = Some entries ∧
    selection ep rq entries = Some sel ∧
    order ≡ₚ task_info_of e rq <$> file_tasks (entries_of sel) ∧
    fs' = foldl (write_info sid) (ensureDir sid fs) order ∧
    rs = omap (result_of sid) order ∧
    (∀ i, i ∈ order → ∃ caption, i.2 = inr caption) ∧
    cr_file <$> rs ≡ₚ (file_tasks (entries_of sel)).*2.
Proof.
  intros Hrun sid.
  destruct (handler_ok_run _ _ _ _ _ _ _ _ _ _ Hrun)
    as (entries & sel & order & Hup & Hsel & Hperm & Hfs & Hrs & Herr).
  exists entries, sel, order. fold sid in Hup, Hfs, Hrs.
  apply Permutation_nil_l in Herr. symmetry in Herr.
  apply app_eq_nil in Herr as [Hv He].
  assert (∀ i, i ∈ order → ∃ caption, i.2 = inr caption) as Hok.
  { intros i Hi. apply error_of_None. by apply (omap_nil_inv _ _ He). }
  repeat (split; [done|]).
  rewrite Hrs, (results_of_successes sid order Hok), Hperm.
  rewrite <- list_fmap_compose. apply eq_subrelation; [apply _|].
  apply list_fmap_ext. by intros _ [id file] _.
Qed.

(** C1, as the code has it: after a run in which no file failed, the
    caption files of the results directory are those that were there before
    and [<basename>.txt] for every image the run processed; the images
    processed are images of the session, all of them in [/generate] and in
    [/batch] without file indices; and the caption files are as many as the
    images when the run processed every image, no caption file was there
    before and no two images share their basename. *)
Theorem caption_files_after_run ep e choices fs rq entries fs' tr message rs :
  uploads fs !! rq_sessionId rq = Some entries →
  handler ep e choices fs rq = (fs', tr, CaptionOk message rs [] (rq_sessionId rq)) →
  let sid := rq_sessionId rq in
  let images := filter (λ f, is_image f = true) entries in
  let processed := cr_file <$> rs in
  (∀ f, f ∈ processed → f ∈ images) ∧
  (ep = Generate ∨ rq_fileIndices rq = None → processed ≡ₚ images) ∧
  (∀ name, name ∈ caption_files (results_dir fs' sid) ↔
           name ∈ caption_files (results_dir fs sid) ∨ name ∈ outputName <$> processed) ∧
  (processed ≡ₚ images →
   caption_files (results_dir fs sid) = [] → NoDup (parse_name <$> images) →
   length (caption_files (results_dir fs' sid)) = length images).
Proof.
  intros Hup Hrun sid images processed.
  destruct (run_without_errors _ _ _ _ _ _ _ _ _ Hrun)
    as (entries' & sel & order & Hup' & Hsel & Hperm & -> & Hrs & Hok & Hfiles).
  fold sid in Hup, Hup', Hrs. rewrite Hup in Hup'. injection Hup' as <-.
  fold processed in Hfiles.
  assert (∀ f, f ∈ processed → f ∈ images) as Himages.
  { intros f Hf. rewrite Hfiles in Hf.
    apply list_elem_of_fmap in Hf as ([id g] & -> & Hin).
    apply elem_of_file_tasks, elem_of_entries_of, list_elem_of_lookup_2 in Hin. simpl.
    apply list_elem_of_filter. split.
    - by apply (selection_images ep rq entries sel).
    - unfold selection in Hsel.
      assert (Some sel = Some (SFile <$> images) → g ∈ entries) as Hall.
      { intros [= ->]. apply list_elem_of_fmap in Hin as (h & [= ->] & Hh).
        by apply list_elem_of_filter in Hh as [_ ?]. }
      destruct ep; [by apply Hall|].
      destruct (rq_fileIndices rq) as [[|i rest]|]; [by apply Hall| |by apply Hall].
      apply (select_values_files _ _ _ _ Hsel) in Hin.
      by apply list_elem_of_filter in Hin as [_ ?]. }
  assert (∀ name, name ∈ caption_files (results_dir
            (foldl (write_info sid) (ensureDir sid fs) order) sid) ↔
          name ∈ caption_files (results_dir fs sid) ∨ name ∈ outputName <$> processed) as Hiff.
  { intros name. rewrite !elem_of_caption_files, write_all_lookup, ensureDir_results_dir.
    split.
    - intros [C Hs]. destruct (written name order) as [c|] eqn:W; [|by left].
      right. apply written_Some in W as (id & file & Hin & <-).
      apply list_elem_of_fmap. exists file. split; [done|].
      unfold processed. rewrite Hrs. apply list_elem_of_fmap.
      exists (CaptionResult file (join (resultsDir sid) (outputName file)) c).
      split; [done|]. apply list_elem_of_omap. by exists (id, file, inr c).
    - intros [[C Hs]|Hin].
      + split; [done|]. by destruct (written name order).
      + apply list_elem_of_fmap in Hin as (f & -> & Hf). split.
        * apply outputName_is_caption. apply Himages in Hf.
          by apply list_elem_of_filter in Hf as [? _].
        * destruct (written (outputName f) order) as [c|] eqn:W; [eauto|]. exfalso.
          unfold processed in Hf. rewrite Hrs in Hf.
          apply list_elem_of_fmap in Hf as (r & -> & Hr).
          apply list_elem_of_omap in Hr as ([[id file] [m|c]] & Hin & Hres); [done|].
          injection Hres as <-. simpl in W.
          by apply (written_None _ _ W id file c Hin). }
  split; [exact Himages|]. split; [|split; [exact Hiff|]].
  - intros Hall. rewrite Hfiles.
    rewrite (selection_all ep rq entries Hall) in Hsel. injection Hsel as <-.
    by rewrite entries_of_files, file_tasks_files, tasks_of_files.
  - intros Hall Hold Hnodup.
    rewrite <- (length_fmap outputName images).
    apply Permutation_length, NoDup_Permutation.
    + apply NoDup_filter, readdir_results_NoDup.
    + assert (outputName <$> images = (λ s, s +:+ ".txt") <$> (parse_name <$> images)) as ->.
      { by rewrite <- list_fmap_compose. }
      apply NoDup_fmap_2; [|done]. intros a b. apply append_inj_l.
    + intros name. split.
      * intros H. apply Hiff in H. rewrite Hold in H.
        destruct H as [H|H]; [by apply elem_of_nil in H|]. by rewrite <- Hall.
      * intros H. apply Hiff. right. by rewrite Hall.
Qed.

Lemma caption_files_after_run_witness :
  length (caption_files (results_dir (generate env_echo [] fs_three rq_plain).1.1 "s")) = 3.
Proof.
  destruct (generate env_echo [] fs_three rq_plain) as [[fs' tr] resp] eqn:Hrun.
  assert (resp = CaptionOk "Caption generation completed for 3 files. 0 errors."
                   (omap (result_of "s")
                      (task_info_of env_echo rq_plain <$> tasks_of ["a.jpg"; "b.png"; "c.gif"]))
                   [] "s") as ->.
  { apply (f_equal snd) in Hrun. simpl in Hrun. rewrite <- Hrun. vm_compute. reflexivity. }
  pose proof (caption_files_after_run Generate env_echo [] fs_three rq_plain
                ["a.jpg"; "b.png"; "notes.md"; "c.gif"] fs' tr _ _ eq_refl Hrun)
    as (_ & Hall & _ & Hlen).
  simpl. apply Hlen.
  - apply Hall. by left.
  - vm_compute. reflexivity.
  - apply (bool_decide_unpack _). vm_compute. reflexivity.
Defined.

(** The claim as stated fails for two images with one basename: both are
    captioned without error and one caption file exists afterwards. *)
Lemma clash_leaves_one_caption_file :
  uploads fs_clash !! "s" = Some ["a.jpg"; "a.png"] ∧
  length (filter (λ f, is_image f = true) ["a.jpg"; "a.png"]) = 2 ∧
  (generate env_echo [] fs_clash rq_plain).2
  = CaptionOk "Caption generation completed for 2 files. 0 errors."
      [CaptionResult "a.jpg" "results/s/a.txt" "a cat, sitting";
       CaptionResult "a.png" "results/s/a.txt" "a cat, sitting"] [] "s" ∧
  caption_files (results_dir (generate env_echo [] fs_clash rq_plain).1.1 "s") = ["a.txt"].
Proof. vm_compute. done. Qed.

(** ** The caption of one file *)


Lemma task_outcome_inr e rq id file caption :
  task_outcome e rq id file = inr caption →
  ∃ md completion rest,
    sharp_metadata e id (join (uploadsDir (rq_sessionId rq)) file) = Resolved md ∧
    chat_completion e id (chat_messages md) (rq_maxTokens rq)
    = Resolved (Some completion :: rest) ∧
    write_error e (outputName file) = None ∧
    caption = build_caption (rq_globalTags rq) completion.
Proof.
  unfold task_outcome, completion_outcome.
  destruct (sharp_metadata _ _ _) as [md|m] eqn:Hmd; [|done].
  destruct (chat_completion _ _ _ _) as [[|[c|] cs]|m] eqn:Hc; [done| |done|done].
  destruct (write_error _ _) eqn:W; [done|]. intros [= <-]. by exists md, c, cs.
Qed.

(** The global tags are appended whether or not the completion already
    holds them. *)
Example build_caption_no_dedup : build_caption " cat " "  cat, dog " = "cat, dog, cat".
Proof. reflexivity. Qed.



(** ** Groups *)

Lemma concat_fmap_snd {A} (groups : list (list (nat * A))) :
  concat ((λ g, g.*2) <$> groups) = (concat groups).*2.
Proof.
  induction groups as [|g groups IH]; [done|]. csimpl. by rewrite fmap_app, IH.
Qed.

(** C6: the entries to process are cut into consecutive groups of five
    ([/generate]) or three ([/batch]) whose concatenation is the list, every
    group but the last full and none empty.  Whatever the order of
    settling, the trace of the run is the trace of the first group, then
    that of the second, and so on; in the trace of a group all its files are
    started before anything else, each file whose metadata read resolves
    calls the captioning service once, after that and before it settles,
    and each file settles once, before the trace of the group ends: no call
    is left pending when the next group starts.  The calls of a group do not
    wait for one another: when the metadata reads resolve, the schedule that
    settles them first has all calls of the group made before any of its
    files settles. *)
Theorem groups_sequential ep e choices fs rq entries sel :
  rq_sessionId rq ≠ "" → rq_apiKey rq ≠ "" →
  uploads fs !! rq_sessionId rq = Some entries →
  selection ep rq entries = Some sel → sel ≠ [] →
  let size := match ep with Generate => 5 | Batch => 3 end in
  let groups := chunks size (entries_of sel) in
  concat ((λ g, g.*2) <$> groups) = sel ∧
  (∀ k g, groups !! k = Some g →
          1 ≤ length g ≤ size ∧ (S k < length groups → length g = size)) ∧
  (∃ traces,
     (handler ep e choices fs rq).1.2 = concat traces ∧
     Forall2 (λ g t, group_trace e rq (file_tasks g) t) groups traces) ∧
  (Forall (resolves e rq) (file_tasks (entries_of sel)) →
   (handler ep e (concat ((λ g, together (length (file_tasks g))) <$> groups)) fs rq).1.2
   = concat ((λ g, in_flight (file_tasks g)) <$> groups)).
Proof.
  intros Hsid Hkey Hup Hsel Hne size groups.
  assert (size = group_size ep) as Hsize by (by destruct ep).
  assert (1 ≤ size) as Hpos by (destruct ep; simpl; lia).
  split; [|split; [|split]].
  - rewrite concat_fmap_snd. unfold groups. rewrite chunks_concat by done.
    apply entries_of_values.
  - intros k g Hg. by apply chunks_sizes.
  - destruct (handler_processes ep e choices fs rq entries sel Hsid Hkey Hup Hsel Hne)
      as (order & errs & traces & Hrun & _ & _ & Htr).
    exists traces. rewrite Hrun. split; [done|]. unfold groups. by rewrite Hsize.
  - intros Hres.
    rewrite (handler_run ep e _ fs rq entries Hsid Hkey Hup), Hsel.
    destruct (decide (length sel = 0)) as [E|_]; [by destruct sel|].
    cbv zeta. simpl. unfold process_selected. rewrite <- Hsize. fold groups.
    rewrite run_chunks_together; [done|].
    unfold groups. by rewrite chunks_concat.
Qed.

Lemma groups_sequential_witness :
  (∃ traces,
     (generate env_echo [2; 0; 1] fs_three rq_plain).1.2 = concat traces ∧
     Forall2 (λ g t, group_trace env_echo rq_plain (file_tasks g) t)
       (chunks 5 (entries_of [SFile "a.jpg"; SFile "b.png"; SFile "c.gif"])) traces) ∧
  (generate env_echo [0; 1; 2; 0; 0; 0] fs_three rq_plain).1.2
  = [Started 0; Started 1; Started 2; Requested 0; Requested 1; Requested 2;
     Settled 0; Settled 1; Settled 2].
Proof.
  pose proof (groups_sequential Generate env_echo [2; 0; 1] fs_three rq_plain
                ["a.jpg"; "b.png"; "notes.md"; "c.gif"]
                [SFile "a.jpg"; SFile "b.png"; SFile "c.gif"]
                ltac:(discriminate) ltac:(discriminate) eq_refl eq_refl ltac:(discriminate))
    as (_ & _ & Htr & Hin).
  split; [exact Htr|]. apply Hin.
  change (Forall (resolves env_echo rq_plain) [(0, "a.jpg"); (1, "b.png"); (2, "c.gif")]).
  repeat (apply Forall_cons; split; [by exists (Metadata 640 480 "png")|]).
  by apply Forall_nil.
Defined.

Example seven_files_in_groups_of_three :
  (λ g, g.*2) <$> chunks 3 (tasks_of ["a"; "b"; "c"; "d"; "e"; "f"; "g"])
  = [["a"; "b"; "c"]; ["d"; "e"; "f"]; ["g"]].
Proof. reflexivity. Qed.

Example all_in_flight :
  (generate env_echo [2; 0; 1] fs_three rq_plain).1.2
  = [Started 0; Started 1; Started 2;
     Requested 2; Requested 0; Requested 1; Settled 0; Settled 1; Settled 2].
Proof. vm_compute. reflexivity. Qed.

Example interleaved_trace :
  (generate env_echo [2; 2; 0; 0] fs_three rq_plain).1.2
  = [Started 0; Started 1; Started 2;
     Requested 2; Settled 2; Requested 0; Settled 0; Requested 1; Settled 1].
Proof. vm_compute. reflexivity. Qed.

(** ** Requests that are turned down *)

Lemma ensureDir_results_dir_any sid fs s : results_dir (ensureDir sid fs) s = results_dir fs s.
Proof.
  unfold ensureDir, results_dir. destruct (results fs !! sid) eqn:E; [done|]. simpl.
  destruct (decide (sid = s)) as [<-|Hne].
  - by rewrite lookup_insert_eq, E.
  - by rewrite lookup_insert_ne.
Qed.

(** C7, as the code has it: a request that carries a session id and an API
    key is turned down with 404 when the upload directory of the session is
    absent, in both endpoints; [/generate] turns it down with 400 when that
    directory holds no image, and [/batch] when nothing is selected (as is
    the case without file indices when the directory holds no image); in
    all these cases no metadata is read, the captioning service is not
    called and no file appears in any results directory. *)
Theorem caption_request_rejected ep e choices fs rq :
  rq_sessionId rq ≠ "" → rq_apiKey rq ≠ "" →
  let sid := rq_sessionId rq in
  (uploads fs !! sid = None →
   handler ep e choices fs rq = (fs, [], CaptionFailure 404 "Session not found")) ∧
  (∀ entries,
      uploads fs !! sid = Some entries → filter (λ f, is_image f = true) entries = [] →
      ∃ fs', generate e choices fs rq
             = (fs', [], CaptionFailure 400 "No image files found in session") ∧
             uploads fs' = uploads fs ∧
             ∀ s, results_dir fs' s = results_dir fs s) ∧
  (∀ entries,
      uploads fs !! sid = Some entries → selection Batch rq entries = Some [] →
      ∃ fs', batch e choices fs rq
             = (fs', [], CaptionFailure 400 "No image files found to process") ∧
             uploads fs' = uploads fs ∧
             ∀ s, results_dir fs' s = results_dir fs s).
Proof.
  intros Hsid Hkey sid. split; [|split].
  - intros Hup. apply String.eqb_neq in Hsid, Hkey. unfold sid in Hup.
    destruct ep; unfold handler, generate, batch; cbv zeta; by rewrite Hsid, Hkey, Hup.
  - intros entries Hup Himg. exists (ensureDir sid fs).
    pose proof (handler_run Generate e choices fs rq entries Hsid Hkey Hup) as Hrun.
    change (handler Generate) with generate in Hrun. rewrite Hrun. fold sid.
    assert (selection Generate rq entries = Some []) as ->.
    { unfold selection. by rewrite Himg. }
    split; [done|]. split; [apply ensureDir_uploads|]. apply ensureDir_results_dir_any.
  - intros entries Hup Hsel. exists (ensureDir sid fs).
    pose proof (handler_run Batch e choices fs rq entries Hsid Hkey Hup) as Hrun.
    change (handler Batch) with batch in Hrun. rewrite Hrun, Hsel. fold sid.
    split; [done|]. split; [apply ensureDir_uploads|]. apply ensureDir_results_dir_any.
Qed.

Lemma caption_request_rejected_witness :
  generate env_echo [] (Filesys ∅ ∅) rq_plain
  = (Filesys ∅ ∅, [], CaptionFailure 404 "Session not found").
Proof.
  apply (caption_request_rejected Generate env_echo [] (Filesys ∅ ∅) rq_plain).
  - discriminate.
  - discriminate.
  - reflexivity.
Defined.

(** The claim as stated fails for a request without an API key: the upload
    directory is absent and the answer is 400, not 404. *)
Lemma missing_key_is_not_404 :
  uploads (Filesys ∅ ∅) !! rq_sessionId rq_no_key = None ∧
  generate env_echo [] (Filesys ∅ ∅) rq_no_key
  = (Filesys ∅ ∅, [], CaptionFailure 400 "OpenAI API key is required").
Proof. split; reflexivity. Qed.

(** Without file indices [/batch] selects every image, so nothing when
    there is none. *)
Lemma selection_without_indices rq entries :
  rq_fileIndices rq = None → filter (λ f, is_image f = true) entries = [] →
  selection Batch rq entries = Some [].
Proof. intros H1 H2. unfold selection. by rewrite H1, H2. Qed.

(** In [/batch] a file index that names a member of arrays selects that
    member also when the session holds no image. *)
Example batch_member_without_images :
  batch env_echo [] (Filesys {[ "s" := ["notes.md"] ]} ∅)
        (CaptionRequest "s" "sk-test" "" (Some [JStr "constructor"]) 300)
  = (ensureDir "s" (Filesys {[ "s" := ["notes.md"] ]} ∅), [],
     CaptionOk "Caption generation completed for 0 files. 1 errors." []
       [RunError (SValue (NMember "constructor"))
                 (path_error (NMember "constructor"))] "s").
Proof. vm_compute. reflexivity. Qed.

(** ** File indices *)

Lemma is_image_nonempty f : is_image f = true → f ≠ "".
Proof. by intros H ->. Qed.

Lemma to_uint_nonnil n : Nat.to_uint n ≠ Decimal.Nil.
Proof.
  rewrite <- (DecimalNat.Unsigned.of_to n) at 1. rewrite DecimalNat.Unsigned.to_of.
  apply DecimalFacts.unorm_nonnil.
Qed.

Lemma string_of_nat_inj a b : string_of_nat a = string_of_nat b → a = b.
Proof.
  unfold string_of_nat. intros H. apply (f_equal NilZero.uint_of_string) in H.
  rewrite !NilZero.usu in H by apply to_uint_nonnil.
  injection H. apply DecimalNat.Unsigned.to_uint_inj.
Qed.

(** The rendering of a natural number starts with a digit. *)
Lemma string_of_nat_digit n :
  ∃ c r, string_of_nat n = String c r ∧
         (48 <=? nat_of_ascii c)%nat && (nat_of_ascii c <=? 57)%nat = true.
Proof.
  unfold string_of_nat, NilZero.string_of_uint.
  destruct (Nat.to_uint n); simpl; eexists _, _; (split; [reflexivity|reflexivity]).
Qed.

Lemma find_position i n : ∀ a,
  List.find (λ j, String.eqb (string_of_nat j) (string_of_nat i)) (seq a n)
  = if (a <=? i)%nat && (i <? a + n)%nat then Some i else None.
Proof.
  induction n as [|n IH]; intros a.
  - simpl. destruct (Nat.leb_spec a i); [|done].
    destruct (Nat.ltb_spec i (a + 0)); [lia|done].
  - simpl. destruct (String.eqb (string_of_nat a) (string_of_nat i)) eqn:E.
    + apply String.eqb_eq, string_of_nat_inj in E as ->.
      rewrite Nat.leb_refl. destruct (Nat.ltb_spec i (i + S n)); [done|lia].
    + rewrite IH. apply String.eqb_neq in E.
      assert (a ≠ i) by (by intros ->).
      destruct (Nat.leb_spec (S a) i); destruct (Nat.leb_spec a i);
        destruct (Nat.ltb_spec i (S a + n)); destruct (Nat.ltb_spec i (a + S n));
        simpl; try done; lia.
Qed.

Lemma find_none {A} (p : A → bool) l : (∀ x, p x = false) → List.find p l = None.
Proof. intros H. induction l as [|x l IH]; [done|]. simpl. by rewrite H. Qed.

(** No member of arrays, and not [length], starts with a digit or with a
    minus sign. *)
Lemma member_heads :
  forallb (λ k, match k with
                | String c _ =>
                    negb ((48 <=? nat_of_ascii c)%nat && (nat_of_ascii c <=? 57)%nat)
                    && negb (Ascii.eqb c "-")
                | "" => false
                end) ("length" :: array_prototype_keys) = true.
Proof. vm_compute. reflexivity. Qed.

Lemma numeric_no_member c r :
  (48 <=? nat_of_ascii c)%nat && (nat_of_ascii c <=? 57)%nat = true ∨ c = "-"%char →
  String.eqb (String c r) "length" = false ∧
  bool_decide (String c r ∈ array_prototype_keys) = false.
Proof.
  intros Hc. pose proof member_heads as H. rewrite forallb_forall in H.
  assert (¬ In (String c r) ("length" :: array_prototype_keys)) as Hnot.
  { intros Hin. apply H in Hin. apply andb_true_iff in Hin as [H1 H2].
    destruct Hc as [Hc| ->]; [by rewrite Hc in H1|done]. }
  split.
  - apply String.eqb_neq. intros E. apply Hnot. left. by rewrite E.
  - apply bool_decide_false. intros Hin. apply Hnot. right. by apply list_elem_of_In.
Qed.

Lemma array_get_nat files i : array_get files (string_of_nat i) = SFile <$> files !! i.
Proof.
  unfold array_get. rewrite find_position.
  destruct (Nat.ltb_spec i (length files)) as [Hlt|Hge].
  - replace ((0 <=? i)%nat && (i <? 0 + length files)%nat) with true; [done|].
    symmetry. apply andb_true_iff. split; [apply Nat.leb_le|apply Nat.ltb_lt]; lia.
  - replace ((0 <=? i)%nat && (i <? 0 + length files)%nat) with false.
    2: { symmetry. apply andb_false_iff. right. apply Nat.ltb_ge. lia. }
    rewrite (lookup_ge_None_2 files i) by done.
    destruct (string_of_nat_digit i) as (c & r & E & Hc). rewrite E.
    destruct (numeric_no_member c r (or_introl Hc)) as [-> ->]. done.
Qed.

Lemma array_get_negative files z : (z < 0)%Z → array_get files (string_of_Z z) = None.
Proof.
  intros Hz. unfold string_of_Z. destruct (Z.ltb_spec z 0); [|lia].
  rewrite append_cons. unfold array_get. rewrite find_none.
  - by destruct (numeric_no_member "-" (String.app "" (string_of_nat (Z.to_nat (- z))))
                   (or_intror eq_refl)) as [-> ->].
  - intros j. apply String.eqb_neq. intros Hj.
    destruct (string_of_nat_digit j) as (c & r & E & Hc).
    rewrite E in Hj. injection Hj as -> _. done.
Qed.

(** An index that is an integer selects the file at that position, and
    nothing when there is none. *)
Lemma select_value_int files z :
  (∀ f, f ∈ files → f ≠ "") →
  select_value files (JInt z)
  = SFile <$> (if ((0 <=? z) && (z <? Z.of_nat (length files)))%Z
               then files !! Z.to_nat z else None).
Proof.
  intros Hne. unfold select_value. cbn [index_key_of to_string_throws].
  destruct (Z.leb_spec 0 z) as [Hpos|Hneg]; simpl.
  - unfold string_of_Z. destruct (Z.ltb_spec z 0); [lia|].
    rewrite array_get_nat.
    destruct (Z.ltb_spec z (Z.of_nat (length files))).
    + destruct (files !! Z.to_nat z) as [f|] eqn:E; [|done]. simpl.
      apply list_elem_of_lookup_2, Hne in E. apply String.eqb_neq in E. by rewrite E.
    + rewrite lookup_ge_None_2; [done|lia].
  - by rewrite array_get_negative.
Qed.

Lemma select_values_int files indices :
  (∀ f, f ∈ files → f ≠ "") →
  select_values files (JInt <$> indices) = Some (SFile <$> spec_selected files indices).
Proof.
  intros Hne. unfold select_values.
  assert (existsb to_string_throws (JInt <$> indices) = false) as ->.
  { induction indices as [|z indices IH]; [done|]. by csimpl. }
  f_equal. unfold spec_selected.
  induction indices as [|z indices IH]; [done|]. csimpl.
  rewrite (select_value_int files z Hne), IH.
  by destruct (if ((0 <=? z) && (z <? Z.of_nat (length files)))%Z
               then files !! Z.to_nat z else None).
Qed.

Lemma started_of_group e rq g t :
  group_trace e rq g t →
  filter (λ ev, is_started ev = true) t = (λ x, Started x.1) <$> g.
Proof.
  intros (settled & tr & -> & _ & [Hall _] & _). rewrite filter_app.
  assert (filter (λ ev, is_started ev = true) tr = []) as ->.
  { clear -Hall. induction Hall as [|ev tr [Hev _] _ IH]; [done|].
    rewrite filter_cons_False; [done|]. by rewrite Hev. }
  rewrite app_nil_r. clear. induction g as [|x g IH]; [done|].
  csimpl. rewrite filter_cons_True by done. by rewrite IH.
Qed.

Lemma started_of_groups e rq (groups : list (list (nat * selected))) traces :
  Forall2 (λ g t, group_trace e rq (file_tasks g) t) groups traces →
  filter (λ ev, is_started ev = true) (concat traces)
  = (λ x, Started x.1) <$> file_tasks (concat groups).
Proof.
  induction 1 as [|g t groups traces Hg _ IH]; [done|].
  simpl. by rewrite filter_app, file_tasks_app, fmap_app, IH, (started_of_group e rq _ t Hg).
Qed.

(** For integer indices the selection is the one the specification
    describes: the files processed are the images at the listed indices that are in
    range, in the order listed, an index out of range contributing nothing:
    they are started in that order and each is reported once; when no index
    is in range the answer is the 400 of an empty selection and no file is
    written. *)
Lemma batch_selects_integers e choices fs rq entries indices :
  rq_sessionId rq ≠ "" → rq_apiKey rq ≠ "" →
  uploads fs !! rq_sessionId rq = Some entries →
  rq_fileIndices rq = Some (JInt <$> indices) → indices ≠ [] →
  let sid := rq_sessionId rq in
  let selected := spec_selected (filter (λ f, is_image f = true) entries) indices in
  (selected = [] →
   batch e choices fs rq
   = (ensureDir sid fs, [], CaptionFailure 400 "No image files found to process") ∧
   ∀ s, results_dir (ensureDir sid fs) s = results_dir fs s) ∧
  (selected ≠ [] →
   ∃ fs' tr message rs es,
     batch e choices fs rq = (fs', tr, CaptionOk message rs es sid) ∧
     (fs', tr) = (let st := process_files e rq 3 choices (ensureDir sid fs) selected in
                  (rs_fs st, rs_trace st)) ∧
     filter (λ ev, is_started ev = true) tr = Started <$> seq 0 (length selected) ∧
     (SFile <$> (cr_file <$> rs)) ++ (re_file <$> es) ≡ₚ SFile <$> selected).
Proof.
  intros Hsid Hkey Hup Hidx Hne sid selected.
  assert (selection Batch rq entries = Some (SFile <$> selected)) as Hsel.
  { unfold selection. rewrite Hidx. destruct indices as [|i rest]; [done|].
    apply (select_values_int _ (i :: rest)).
    intros f Hf. apply list_elem_of_filter in Hf as [Hf _]. by apply is_image_nonempty. }
  pose proof (handler_run Batch e choices fs rq entries Hsid Hkey Hup) as Hrun.
  cbv zeta in Hrun. rewrite Hsel, length_fmap, process_selected_files in Hrun.
  fold sid in Hrun.
  change (handler Batch) with batch in Hrun.
  change (no_files_message Batch) with "No image files found to process" in Hrun.
  change (group_size Batch) with 3 in Hrun.
  split.
  - intros E. rewrite Hrun, E. split; [done|]. apply ensureDir_results_dir_any.
  - intros Hselected.
    destruct (handler_processes Batch e choices fs rq entries (SFile <$> selected)
                Hsid Hkey Hup Hsel) as (order & errs & traces & Hrun' & Hperm & Herr & Htr).
    { by destruct selected. }
    fold sid in Hrun'. change (handler Batch) with batch in Hrun'.
    change (group_size Batch) with 3 in Htr.
    eexists _, _, _, _, _. split; [exact Hrun'|]. split; [|split].
    + rewrite Hrun in Hrun'. destruct (decide (length selected = 0)) as [E|_];
        [by destruct selected|].
      cbv zeta in Hrun' |- *. injection Hrun' as H1 H2 _. by rewrite H1, H2.
    + rewrite (started_of_groups _ _ _ _ Htr), chunks_concat by lia.
      rewrite entries_of_files, file_tasks_files.
      rewrite <- tasks_of_ids, <- list_fmap_compose. done.
    + simpl. by apply (reported_entries e rq).
Qed.

Lemma batch_selects_integers_witness :
  ∃ fs' tr message rs es,
    batch env_echo [] fs_three
          (CaptionRequest "s" "sk-test" "" (Some [JInt 2; JInt 7; JInt (-1); JInt 0]) 300)
    = (fs', tr, CaptionOk message rs es "s") ∧
    (SFile <$> (cr_file <$> rs)) ++ (re_file <$> es) ≡ₚ [SFile "c.gif"; SFile "a.jpg"].
Proof.
  destruct (batch_selects_integers env_echo [] fs_three
              (CaptionRequest "s" "sk-test" "" (Some [JInt 2; JInt 7; JInt (-1); JInt 0]) 300)
              ["a.jpg"; "b.png"; "notes.md"; "c.gif"] [2; 7; -1; 0]%Z)
    as [_ Hsel].
  - discriminate.
  - discriminate.
  - reflexivity.
  - reflexivity.
  - discriminate.
  - destruct Hsel as (fs' & tr & message & rs & es & Hrun & _ & _ & Hfiles).
    + vm_compute. discriminate.
    + exists fs', tr, message, rs, es. split; [exact Hrun | exact Hfiles].
Defined.

Example indices_out_of_range :
  batch env_echo [] fs_three
        (CaptionRequest "s" "sk-test" "" (Some [JInt 3; JInt (-1); JFrac; JNull]) 300)
  = (ensureDir "s" fs_three, [], CaptionFailure 400 "No image files found to process").
Proof. vm_compute. reflexivity. Qed.

(** An index can be the rendering of a position, also inside an array. *)
Example indices_as_strings :
  select_values ["a.jpg"; "b.png"; "c.gif"]
    [JStr "1"; JArr [JInt 2]; JStr "01"; JArr [JInt 0; JInt 1]; JBool true; JObj []]
  = Some [SFile "b.png"; SFile "c.gif"].
Proof. vm_compute. reflexivity. Qed.

(** An object with a member [toString] of its own makes the selection
    throw: the answer is the 500 of the outer [catch]. *)
Example index_that_throws :
  batch env_echo [] fs_three
        (CaptionRequest "s" "sk-test" "" (Some [JInt 0; JObj [("toString", JNull)]]) 300)
  = (ensureDir "s" fs_three, [],
     CaptionError "Error generating captions" "Cannot convert object to primitive value").
Proof. vm_compute. reflexivity. Qed.

Lemma path_error_message v : error_message (path_error v) = path_error v.
Proof. by destruct v. Qed.

Lemma array_get_length files :
  array_get files "length" = Some (SValue (NLength (length files))).
Proof.
  unfold array_get. rewrite find_none; [done|].
  intros j. apply String.eqb_neq. intros E.
  destruct (string_of_nat_digit j) as (c & r & E' & Hc). rewrite E' in E.
  injection E as -> _. done.
Qed.

(** C10, where the code departs from it: a [/batch] request whose
    [fileIndices] is [["length"]], for a session with images, selects no
    file, and yet it is not answered with the 400 of an empty selection:
    [files["length"]] is the number of images, [filter(Boolean)] keeps it,
    and the processor goes through it as if it were a file name; the answer
    is 200 with no result and one error, that of [path.join] for a number.
    No file is started and none is written. *)
Theorem batch_selects_length e choices fs rq entries :
  rq_sessionId rq ≠ "" → rq_apiKey rq ≠ "" →
  uploads fs !! rq_sessionId rq = Some entries →
  rq_fileIndices rq = Some [JStr "length"] →
  let sid := rq_sessionId rq in
  let n := length (filter (λ f, is_image f = true) entries) in
  n ≠ 0 →
  batch e choices fs rq
  = (ensureDir sid fs, [],
     CaptionOk "Caption generation completed for 0 files. 1 errors." []
               [RunError (SValue (NLength n)) (path_error (NLength n))] sid).
Proof.
  intros Hsid Hkey Hup Hidx sid n Hn.
  pose proof (handler_run Batch e choices fs rq entries Hsid Hkey Hup) as Hrun.
  cbv zeta in Hrun. change (handler Batch) with batch in Hrun. rewrite Hrun.
  unfold selection. rewrite Hidx. unfold select_values, select_value.
  cbn [existsb to_string_throws orb omap index_key_of]. csimpl.
  rewrite array_get_length. fold n. cbn [truthy].
  destruct (Nat.eqb_spec n 0) as [E|_]; [done|]. simpl.
  unfold process_selected, completed_response. simpl.
  by rewrite path_error_message.
Qed.

Lemma batch_selects_length_witness :
  batch env_echo [] fs_three (CaptionRequest "s" "sk-test" "" (Some [JStr "length"]) 300)
  = (ensureDir "s" fs_three, [],
     CaptionOk "Caption generation completed for 0 files. 1 errors." []
       [RunError (SValue (NLength 3)) (path_error (NLength 3))] "s").
Proof.
  apply (batch_selects_length env_echo [] fs_three
           (CaptionRequest "s" "sk-test" "" (Some [JStr "length"]) 300)
           ["a.jpg"; "b.png"; "notes.md"; "c.gif"]).
  - discriminate.
  - discriminate.
  - reflexivity.
  - reflexivity.
  - discriminate.
Defined.

(** The message [path.join] gives for the number 3. *)
Example path_error_of_length :
  path_error (NLength 3)
  = "The " +:+ dquote +:+ "path" +:+ dquote
    +:+ " argument must be of type string. Received type number (3)".
Proof. reflexivity. Qed.

(** ** The paired layout away from the members of [Object.prototype] *)

Lemma paired_entries_plain sid (captionMap : gmap string string) images :
  (∀ f, f ∈ images → parse_name f ∉ object_prototype_keys) →
  ∃ zip,
    paired_entries sid captionMap images = Some zip ∧
    ze_name <$> zip
    = images ≫= (λ file,
        (parse_name file +:+ "/" +:+ file) ::
        match captionMap !! parse_name file with
        | Some cap => if String.eqb cap "" then [] else [parse_name file +:+ "/" +:+ cap]
        | None => []
        end).
Proof.
  induction images as [|file images IH]; intros Hplain.
  - by exists [].
  - destruct IH as (zip & Hzip & Hnames).
    { intros f Hf. apply Hplain. by apply list_elem_of_further. }
    rewrite bind_cons. simpl paired_entries. unfold js_get.
    destruct (captionMap !! parse_name file) as [cap|] eqn:E.
    + destruct (String.eqb cap ""); rewrite Hzip; eexists; (split; [reflexivity|]);
        csimpl; by rewrite Hnames.
    + rewrite bool_decide_false by (apply Hplain, list_elem_of_here).
      rewrite Hzip. eexists. split; [reflexivity|]. csimpl. by rewrite Hnames.
Qed.

(** * Further properties *)

(** ** The archives *)

Lemma caption_files_NoDup d : NoDup (caption_files d).
Proof. apply NoDup_filter, readdir_results_NoDup. Qed.

Lemma map_fmap {A B} (f : A → B) (l : list A) : map f l = f <$> l.
Proof. reflexivity. Qed.

(** X1: the archive of all captions holds every caption file of the results
    directory once, under its own name, read from that directory. *)
Theorem all_captions_archive fs sid d :
  results fs !! sid = Some d → caption_files d ≠ [] →
  ∃ zip,
    download_all_captions fs sid = DownloadZip ("captions-" +:+ sid +:+ ".zip") zip ∧
    NoDup (ze_name <$> zip) ∧
    (∀ name, name ∈ ze_name <$> zip ↔ is_caption_file name = true ∧ is_Some (d !! name)) ∧
    (∀ z, z ∈ zip → ze_source z = join (resultsDir sid) (ze_name z)).
Proof.
  intros Hd Hne. unfold download_all_captions. rewrite Hd. fold (caption_files d).
  destruct (decide (length (caption_files d) = 0)) as [E|_]; [by destruct (caption_files d)|].
  eexists. split; [reflexivity|].
  assert (ze_name <$> ((λ file, ZipEntry (join (resultsDir sid) file) file) <$> caption_files d)
          = caption_files d) as ->.
  { rewrite <- list_fmap_compose. apply list_fmap_id. }
  split; [apply caption_files_NoDup|]. split; [apply elem_of_caption_files|].
  intros z Hz. apply list_elem_of_fmap in Hz as (f & -> & _). done.
Qed.

Lemma all_captions_archive_witness :
  ∃ zip,
    download_all_captions fs_one_caption "s" = DownloadZip "captions-s.zip" zip ∧
    NoDup (ze_name <$> zip).
Proof.
  destruct (all_captions_archive fs_one_caption "s" {[ "a.txt" := "a" ]})
    as (zip & Hzip & Hnd & _).
  - reflexivity.
  - vm_compute. discriminate.
  - exists zip. split; [exact Hzip | exact Hnd].
Defined.

Lemma image_not_caption f : is_image f = true → is_caption_file f = false.
Proof.
  unfold is_image, is_caption_file. intros H.
  destruct (String.eqb (toLowerCase (extname f)) ".txt") eqn:E; [|done].
  apply String.eqb_eq in E. rewrite E in H. by vm_compute in H.
Qed.

(** X2: in the separate and in the flat layout no two entries of the archive
    have the same name, the directory entries being distinct. *)
Theorem download_names_distinct fs sid entries format :
  uploads fs !! sid = Some entries → NoDup entries →
  format = "separate" ∨ format = "flat" →
  ∃ attachment zip,
    download_all fs sid format = DownloadZip attachment zip ∧
    NoDup (ze_name <$> zip).
Proof.
  intros Hup Hnd Hformat.
  set (images := filter (λ f, is_image f = true) entries).
  assert (NoDup images) as Himg by (by apply NoDup_filter).
  pose proof (caption_files_NoDup (results_dir fs sid)) as Hcap.
  assert (∀ f, f ∈ images → f ∉ caption_files (results_dir fs sid)) as Hdisj.
  { intros f Hf Hc. apply list_elem_of_filter in Hf as [Hf _].
    apply image_not_caption in Hf.
    apply elem_of_caption_files in Hc as [Hc _]. congruence. }
  destruct Hformat as [-> | ->].
  - destruct (download_separate fs sid entries Hup) as (att & zip & Hzip & Hnames).
    exists att, zip. split; [done|].
    change (ze_name <$> zip) with (map ze_name zip). rewrite Hnames.
    apply NoDup_app. split; [|split].
    + by apply (NoDup_fmap_2 (String.app "images/")).
    + intros x Hx Hy. apply list_elem_of_fmap in Hx as (f & -> & _).
      apply list_elem_of_fmap in Hy as (g & Hg & _). discriminate.
    + by apply (NoDup_fmap_2 (String.app "captions/")).
  - destruct (download_flat fs sid entries Hup) as (att & zip & Hzip & Hnames).
    exists att, zip. split; [done|].
    change (ze_name <$> zip) with (map ze_name zip). rewrite Hnames.
    apply NoDup_app. split; [done|]. split; [done|done].
Qed.

Lemma download_names_distinct_witness :
  ∃ attachment zip,
    download_all fs_three "s" "flat" = DownloadZip attachment zip ∧
    NoDup (ze_name <$> zip).
Proof.
  apply (download_names_distinct fs_three "s" ["a.jpg"; "b.png"; "notes.md"; "c.gif"] "flat").
  - reflexivity.
  - apply (bool_decide_unpack _). vm_compute. reflexivity.
  - by right.
Defined.

(** ** Nothing but the results directory of the session is written *)

Lemma results_writeFile_other sid name caption fs s :
  s ≠ sid → results (writeFile sid name caption fs) !! s = results fs !! s.
Proof. intros H. unfold writeFile. simpl. by rewrite lookup_insert_ne. Qed.

Lemma write_all_other sid order s : s ≠ sid → ∀ fs,
  results (foldl (write_info sid) fs order) !! s = results fs !! s.
Proof.
  intros Hs. induction order as [|[[id file] [m|c]] order IH]; intros fs; [done| |].
  - rewrite foldl_step. apply IH.
  - rewrite foldl_step, IH. by apply results_writeFile_other.
Qed.

Lemma ensureDir_other sid fs s : s ≠ sid → results (ensureDir sid fs) !! s = results fs !! s.
Proof.
  intros H. unfold ensureDir. destruct (results fs !! sid); [done|]. simpl.
  by rewrite lookup_insert_ne.
Qed.

(** The handler's file system in each of its answers. *)
Lemma handler_fs_cases ep e choices fs rq :
  (handler ep e choices fs rq).1.1 = fs ∨
  (handler ep e choices fs rq).1.1 = ensureDir (rq_sessionId rq) fs ∨
  ∃ order, (handler ep e choices fs rq).1.1
           = foldl (write_info (rq_sessionId rq)) (ensureDir (rq_sessionId rq) fs) order.
Proof.
  destruct (String.eqb (rq_sessionId rq) "") eqn:E1;
    [left; destruct ep; unfold handler, generate, batch; cbv zeta; by rewrite E1|].
  destruct (String.eqb (rq_apiKey rq) "") eqn:E2;
    [left; destruct ep; unfold handler, generate, batch; cbv zeta; by rewrite E1, E2|].
  destruct (uploads fs !! rq_sessionId rq) as [entries|] eqn:E3;
    [|left; destruct ep; unfold handler, generate, batch; cbv zeta; by rewrite E1, E2, E3].
  apply String.eqb_neq in E1, E2.
  destruct (selection ep rq entries) as [sel|] eqn:Hsel.
  2: { right. left. rewrite (handler_run ep e choices fs rq entries E1 E2 E3).
       by rewrite Hsel. }
  destruct (decide (sel = [])) as [E|E].
  - right. left. rewrite (handler_run ep e choices fs rq entries E1 E2 E3).
    by rewrite Hsel, E.
  - right. right.
    destruct (handler_processes ep e choices fs rq entries sel E1 E2 E3 Hsel E)
      as (order & errs & traces & Hrun & _). exists order. by rewrite Hrun.
Qed.

(** X3: whatever the environment answers and in whatever order the promises
    settle, a captioning request whose session id is a plain name leaves the
    upload directories as they were and touches no results directory but
    that of its own session. *)
Theorem handler_frame ep e choices fs rq :
  plain_name (rq_sessionId rq) = true →
  let fs' := (handler ep e choices fs rq).1.1 in
  uploads fs' = uploads fs ∧
  ∀ s, s ≠ rq_sessionId rq → results fs' !! s = results fs !! s.
Proof.
  intros _. cbv zeta. destruct (handler_fs_cases ep e choices fs rq) as [-> | [-> | [order ->]]].
  - done.
  - split; [apply ensureDir_uploads|]. intros s Hs. by apply ensureDir_other.
  - split; [by rewrite write_all_uploads, ensureDir_uploads|].
    intros s Hs. rewrite write_all_other by done. by apply ensureDir_other.
Qed.

Lemma handler_frame_witness :
  results (generate env_echo [] fs_three rq_plain).1.1 !! "t" = results fs_three !! "t".
Proof. by apply (handler_frame Generate env_echo [] fs_three rq_plain). Defined.

(** A session id that is no plain name is joined to another directory. *)
Example plain_name_samples :
  map plain_name ["s"; "7f3a-11"; ""; "."; ".."; "../uploads/s"; "./s"; "a/b"]
  = [true; true; false; false; false; false; false; false].
Proof. reflexivity. Qed.

(** ** The tag updater never adds or removes a file *)

Lemma add_global_tags_fs e fs sid g :
  (add_global_tags e fs sid g).1 = fs ∨
  ∃ d d', results fs !! sid = Some d ∧
          (add_global_tags e fs sid g).1 = Filesys (uploads fs) (<[sid := d']> (results fs)) ∧
          ∀ name, d' !! name =
                  (λ text, if is_caption_file name then updated_text e g name text else text)
                    <$> d !! name.
Proof.
  destruct (add_global_tags_cases fs sid g) as [(Hsid & Hg & d & Hd & Hfiles)|Hfail];
    [|left; apply Hfail].
  right. destruct (add_global_tags_run e fs sid g d Hsid Hg Hd Hfiles)
    as (d' & message & ups & errs & Hrun & Hl).
  exists d, d'. rewrite Hrun. done.
Qed.

(** X4: the tag updater, called with a session id that is a plain name,
    leaves the upload directories and the results directories of the other
    sessions as they were, and in the results directory of its session it
    keeps the set of file names: it creates no file and removes none. *)
Theorem add_global_tags_frame e fs sid g :
  plain_name sid = true →
  let fs' := (add_global_tags e fs sid g).1 in
  uploads fs' = uploads fs ∧
  (∀ s, s ≠ sid → results fs' !! s = results fs !! s) ∧
  (∀ name, is_Some (results_dir fs' sid !! name) ↔ is_Some (results_dir fs sid !! name)).
Proof.
  intros _. cbv zeta. destruct (add_global_tags_fs e fs sid g) as [-> | (d & d' & Hd & -> & Hl)]; [done|].
  split; [done|]. split.
  - intros s Hs. simpl. by rewrite lookup_insert_ne.
  - intros name. rewrite (results_dir_lookup fs sid d Hd).
    unfold results_dir. simpl. rewrite lookup_insert_eq. simpl. rewrite Hl.
    by rewrite fmap_is_Some.
Qed.

Lemma add_global_tags_frame_witness :
  results (add_global_tags env_silent fs_one_caption "s" "a, b").1 !! "t"
  = results fs_one_caption !! "t".
Proof. by apply (add_global_tags_frame env_silent fs_one_caption "s" "a, b"). Defined.

(** ** Download status *)

Lemma parse_name_txt a : a ≠ "" → parse_name (a +:+ ".txt") = a.
Proof.
  intros Ha. unfold parse_name.
  rewrite (split_last_dot_app a ".txt" "" "txt") by reflexivity.
  rewrite append_empty_r.
  destruct (String.eqb a "") eqn:E; [by apply String.eqb_eq in E|].
  destruct (String.eqb (a +:+ ".txt") "..") eqn:E'; [|done].
  apply String.eqb_eq in E'. apply (f_equal String.length) in E'.
  rewrite string_length_append in E'. simpl in E'. lia.
Qed.

Lemma parse_name_outputName f : is_image f = true → parse_name (outputName f) = parse_name f.
Proof. intros H. apply parse_name_txt. by apply is_image_parse_name. Qed.

(** What the download status reports, read off its body. *)
Lemma download_status_found size_of fs sid entries :
  uploads fs !! sid = Some entries →
  ∃ body,
    download_status size_of fs sid = DownloadStatusOk body ∧
    il_name <$> ds_imageFiles body = filter (λ f, is_image f = true) entries ∧
    cl_name <$> ds_captionFiles body = caption_files (results_dir fs sid) ∧
    imageCount body = length (filter (λ f, is_image f = true) entries) ∧
    captionCount body = length (caption_files (results_dir fs sid)) ∧
    (allCaptioned body = true ↔
       filter (λ f, is_image f = true) entries ≠ [] ∧
       ∀ img, img ∈ filter (λ f, is_image f = true) entries →
              ∃ cap, cap ∈ caption_files (results_dir fs sid) ∧ parse_name cap = parse_name img).
Proof.
  intros Hup. unfold download_status. rewrite Hup.
  set (images := filter (λ f, is_image f = true) entries).
  set (imageFiles := (λ file, ImageLink file _ _) <$> images).
  assert (il_name <$> imageFiles = images) as Himg.
  { unfold imageFiles. rewrite <- list_fmap_compose. apply list_fmap_id. }
  set (captionFiles := match results fs !! sid with Some d => _ | None => [] end).
  assert (cl_name <$> captionFiles = caption_files (results_dir fs sid)) as Hcap.
  { unfold captionFiles, results_dir. destruct (results fs !! sid) as [d|]; [|done].
    simpl. rewrite <- list_fmap_compose. apply list_fmap_id. }
  assert (length imageFiles = length images) as Hlen1.
  { unfold imageFiles. apply length_fmap. }
  assert (length captionFiles = length (caption_files (results_dir fs sid))) as Hlen2.
  { rewrite <- Hcap. symmetry. apply length_fmap. }
  eexists. split; [reflexivity|].
  cbn [imageCount captionCount allCaptioned ds_imageFiles ds_captionFiles].
  split; [done|]. split; [done|]. split; [done|]. split; [done|].
  rewrite andb_true_iff, Nat.ltb_lt, forallb_forall, Hlen1.
  rewrite <- Hcap. split.
  - intros [Hlen Hall]. split; [intros E; rewrite E in Hlen; simpl in Hlen; lia|].
    intros img Hin. rewrite <- Himg in Hin.
    apply list_elem_of_fmap in Hin as (il & -> & Hil).
    apply list_elem_of_In, Hall, existsb_exists in Hil as (cl & Hcl & Heq).
    apply String.eqb_eq in Heq. exists (cl_name cl). split; [|done].
    apply list_elem_of_fmap. exists cl. split; [done|]. by apply list_elem_of_In.
  - intros [Hne Hall]. split.
    + destruct images; [done|simpl; lia].
    + intros il Hil. apply list_elem_of_In in Hil. apply existsb_exists.
      destruct (Hall (il_name il)) as (cap & Hcap' & Heq).
      { rewrite <- Himg. apply list_elem_of_fmap. by exists il. }
      apply list_elem_of_fmap in Hcap' as (cl & -> & Hcl).
      exists cl. split; [by apply list_elem_of_In|]. by apply String.eqb_eq.
Qed.

(** After a run in which no file failed every image has its caption. *)
Lemma run_writes_every_output ep e choices fs rq entries fs' tr message rs :
  uploads fs !! rq_sessionId rq = Some entries →
  ep = Generate ∨ rq_fileIndices rq = None →
  handler ep e choices fs rq = (fs', tr, CaptionOk message rs [] (rq_sessionId rq)) →
  uploads fs' = uploads fs ∧
  filter (λ f, is_image f = true) entries ≠ [] ∧
  ∀ f, f ∈ filter (λ f, is_image f = true) entries →
       outputName f ∈ caption_files (results_dir fs' (rq_sessionId rq)).
Proof.
  intros Hup Hall Hrun. set (sid := rq_sessionId rq) in *.
  set (images := filter (λ f, is_image f = true) entries).
  destruct (handler_ok_inv _ _ _ _ _ _ _ _ _ _ _ Hrun)
    as (_ & _ & entries0 & sel0 & Hup0 & Hsel0 & Hne0).
  fold sid in Hup0. rewrite Hup in Hup0. injection Hup0 as <-.
  rewrite (selection_all ep rq entries Hall) in Hsel0. injection Hsel0 as <-.
  fold images in Hne0.
  destruct (run_without_errors _ _ _ _ _ _ _ _ _ Hrun)
    as (entries' & sel & order & Hup' & Hsel & Hperm & -> & Hrs & Hok & _).
  fold sid in Hup'. rewrite Hup in Hup'. injection Hup' as <-.
  rewrite (selection_all ep rq entries Hall) in Hsel. injection Hsel as <-.
  fold images in Hperm.
  split; [by rewrite write_all_uploads, ensureDir_uploads|].
  split; [by destruct images|].
  intros f Hf. apply elem_of_caption_files. split.
  - apply outputName_is_caption. by apply list_elem_of_filter in Hf as [? _].
  - rewrite write_all_lookup.
    destruct (written (outputName f) order) as [c|] eqn:W; [eauto|]. exfalso.
    apply list_elem_of_lookup in Hf as [id Hid].
    assert ((id, f, task_outcome e rq id f) ∈ order) as Hin.
    { rewrite Hperm. apply elem_of_infos. split; [|done]. simpl.
      by rewrite list_lookup_fmap, Hid. }
    destruct (Hok _ Hin) as [c Hc].
    simpl in Hc. rewrite Hc in Hin.
    by apply (written_None _ _ W id f c Hin).
Qed.

(** X5: after a run of [/generate] (or of [/batch] on all files) in which no
    file failed, the download status reports every image as captioned, also
    when images share a basename or captions of an earlier run are left. *)
Theorem all_captioned_after_run size_of ep e choices fs rq entries fs' tr message rs :
  uploads fs !! rq_sessionId rq = Some entries →
  ep = Generate ∨ rq_fileIndices rq = None →
  handler ep e choices fs rq = (fs', tr, CaptionOk message rs [] (rq_sessionId rq)) →
  ∃ body,
    download_status size_of fs' (rq_sessionId rq) = DownloadStatusOk body ∧
    allCaptioned body = true ∧
    imageCount body = length (filter (λ f, is_image f = true) entries).
Proof.
  intros Hup Hall Hrun.
  destruct (run_writes_every_output _ _ _ _ _ _ _ _ _ _ Hup Hall Hrun) as (Hup' & Hne & Hout).
  rewrite <- Hup' in Hup.
  destruct (download_status_found size_of fs' (rq_sessionId rq) entries Hup)
    as (body & Hbody & _ & _ & Hcount & _ & Hcap).
  exists body. split; [done|]. split; [|done].
  apply Hcap. split; [done|]. intros img Himg. exists (outputName img).
  split; [by apply Hout|]. apply parse_name_outputName.
  by apply list_elem_of_filter in Himg as [? _].
Qed.

Lemma all_captioned_after_run_witness :
  ∃ body,
    download_status (λ _, 0) (generate env_echo [] fs_clash rq_plain).1.1 "s"
    = DownloadStatusOk body ∧
    allCaptioned body = true.
Proof.
  destruct (generate env_echo [] fs_clash rq_plain) as [[fs' tr] resp] eqn:Hrun.
  assert (resp = CaptionOk "Caption generation completed for 2 files. 0 errors."
                   [CaptionResult "a.jpg" "results/s/a.txt" "a cat, sitting";
                    CaptionResult "a.png" "results/s/a.txt" "a cat, sitting"] [] "s") as ->.
  { apply (f_equal snd) in Hrun. simpl in Hrun. rewrite <- Hrun. vm_compute. reflexivity. }
  destruct (all_captioned_after_run (λ _, 0) Generate env_echo [] fs_clash rq_plain
              ["a.jpg"; "a.png"] fs' tr _ _ eq_refl (or_introl eq_refl) Hrun)
    as (body & Hbody & Hall & _).
  exists body. split; [exact Hbody | exact Hall].
Defined.

(** X6: when no two images share a basename, a session that the download status
    reports as fully captioned is one that the caption status reports as
    complete. *)
Theorem all_captioned_is_complete size_of fs sid entries body :
  uploads fs !! sid = Some entries →
  NoDup (parse_name <$> filter (λ f, is_image f = true) entries) →
  download_status size_of fs sid = DownloadStatusOk body →
  allCaptioned body = true →
  ∃ sb, caption_status fs sid = StatusOk sb ∧ isComplete sb = true.
Proof.
  intros Hup Hnd Hbody Hall.
  destruct (download_status_found size_of fs sid entries Hup)
    as (body' & Hbody' & _ & _ & _ & _ & Hcap).
  rewrite Hbody in Hbody'. injection Hbody' as <-.
  apply Hcap in Hall as [Hne Hall].
  destruct (caption_status_found fs sid entries Hup) as (sb & Hsb & Htot & Hproc & _ & Hcomp).
  exists sb. split; [done|]. rewrite Hcomp, Htot, Hproc.
  set (images := filter (λ f, is_image f = true) entries) in *.
  apply andb_true_iff. split.
  - apply Nat.leb_le.
    rewrite <- (length_fmap parse_name images),
            <- (length_fmap parse_name (caption_files (results_dir fs sid))).
    apply submseteq_length, NoDup_submseteq; [done|].
    intros x Hx. apply list_elem_of_fmap in Hx as (img & -> & Himg).
    destruct (Hall img Himg) as (cap & Hcap' & <-).
    apply list_elem_of_fmap. by exists cap.
  - apply Nat.ltb_lt. destruct images; [done|simpl; lia].
Qed.

Lemma all_captioned_is_complete_witness :
  ∃ sb, caption_status (generate env_echo [] fs_three rq_plain).1.1 "s" = StatusOk sb ∧
        isComplete sb = true.
Proof.
  destruct (download_status (λ _, 0) (generate env_echo [] fs_three rq_plain).1.1 "s")
    as [m|body] eqn:Hbody; [vm_compute in Hbody; discriminate|].
  apply (all_captioned_is_complete (λ _, 0) _ "s" ["a.jpg"; "b.png"; "notes.md"; "c.gif"] body).
  - vm_compute. reflexivity.
  - apply (bool_decide_unpack _). vm_compute. reflexivity.
  - exact Hbody.
  - vm_compute in Hbody. injection Hbody as <-. reflexivity.
Defined.

(** ** Deleting a session *)

(** The tag updater only looks at the results directories. *)
Lemma add_global_tags_results_only e fs1 fs2 sid g :
  results fs1 = results fs2 →
  (add_global_tags e fs1 sid g).2 = (add_global_tags e fs2 sid g).2 ∧
  results (add_global_tags e fs1 sid g).1 = results (add_global_tags e fs2 sid g).1.
Proof.
  intros Hres. unfold add_global_tags. rewrite Hres.
  destruct (String.eqb sid ""); [done|].
  destruct (String.eqb g "" || String.eqb (trim g) ""); [done|].
  destruct (results fs2 !! sid) as [d|] eqn:Hd; [|done].
  destruct (decide (length (filter (λ f, is_caption_file f = true) (readdir_results d)) = 0));
    [done|].
  generalize (filter (λ f, is_caption_file f = true) (readdir_results d)). intros l.
  assert (∀ a1 a2 : tags_state,
            results a1.1.1 = results a2.1.1 → a1.1.2 = a2.1.2 → a1.2 = a2.2 →
            let r1 := foldl (update_caption_file e sid g) a1 l in
            let r2 := foldl (update_caption_file e sid g) a2 l in
            results r1.1.1 = results r2.1.1 ∧ r1.1.2 = r2.1.2 ∧ r1.2 = r2.2) as Hfold.
  { induction l as [|x l IH]; intros [[f1 u1] e1] [[f2 u2] e2] H1 H2 H3; simpl in *; [done|].
    apply IH; unfold update_caption_file, results_dir; rewrite H1, H2, H3;
      destruct (default ∅ (results f2 !! sid) !! x); try done;
      destruct (write_error e x); try done.
    simpl. unfold results_dir. by rewrite H1. }
  specialize (Hfold (fs1, [], []) (fs2, [], []) Hres eq_refl eq_refl). cbv zeta in Hfold.
  destruct (foldl (update_caption_file e sid g) (fs1, [], []) l) as [[f1 u1] e1].
  destruct (foldl (update_caption_file e sid g) (fs2, [], []) l) as [[f2 u2] e2].
  simpl in *. destruct Hfold as (H1 & -> & ->). done.
Qed.

Lemma plain_name_nonempty sid : plain_name sid = true → sid ≠ "".
Proof. by intros H ->. Qed.

(** X7: deleting a session whose id is a plain name removes its upload
    directory and nothing else: the caption status and a captioning request
    then answer that the session is not found, while the captions stay on
    disk, where the archive of all captions still serves them and the tag
    updater still updates them. *)
Theorem delete_session_keeps_results fs sid :
  plain_name sid = true → is_Some (uploads fs !! sid) →
  let fs' := (delete_session fs sid).1 in
  (delete_session fs sid).2 = DeleteOk "Session deleted successfully" sid ∧
  uploads fs' !! sid = None ∧
  (∀ s, s ≠ sid → uploads fs' !! s = uploads fs !! s) ∧
  results fs' = results fs ∧
  caption_status fs' sid = StatusNotFound "Upload session not found" ∧
  (∀ ep e choices rq,
      rq_sessionId rq = sid → rq_apiKey rq ≠ "" →
      handler ep e choices fs' rq = (fs', [], CaptionFailure 404 "Session not found")) ∧
  download_all_captions fs' sid = download_all_captions fs sid ∧
  (∀ e g, (add_global_tags e fs' sid g).2 = (add_global_tags e fs sid g).2 ∧
          results (add_global_tags e fs' sid g).1 = results (add_global_tags e fs sid g).1).
Proof.
  intros Hplain [entries Hup]. apply plain_name_nonempty in Hplain as Hsid.
  unfold delete_session. rewrite Hup. cbn [fst snd].
  set (fs' := Filesys (delete sid (uploads fs)) (results fs)).
  assert (uploads fs' !! sid = None) as Hgone by apply lookup_delete_eq.
  split; [done|]. split; [done|]. split.
  { intros s Hs. unfold fs'. simpl. by rewrite lookup_delete_ne. }
  split; [done|]. split.
  { unfold caption_status. by rewrite Hgone. }
  split.
  { intros ep e choices rq <- Hkey. apply String.eqb_neq in Hsid, Hkey.
    destruct ep; unfold handler, generate, batch; cbv zeta; by rewrite Hsid, Hkey, Hgone. }
  split; [done|].
  intros e g. by apply add_global_tags_results_only.
Qed.

Lemma delete_session_keeps_results_witness :
  caption_status (delete_session fs_partial "s").1 "s"
  = StatusNotFound "Upload session not found" ∧
  download_all_captions (delete_session fs_partial "s").1 "s"
  = download_all_captions fs_partial "s".
Proof.
  destruct (delete_session_keeps_results fs_partial "s")
    as (_ & _ & _ & _ & Hstatus & _ & Hzip & _).
  - reflexivity.
  - unfold fs_partial. simpl. rewrite lookup_singleton_eq. eauto.
  - split; [exact Hstatus | exact Hzip].
Defined.

(** Deleting a session that has no upload directory changes nothing. *)
Example delete_absent_session :
  delete_session fs_one_caption "s" = (fs_one_caption, DeleteNotFound "Session not found").
Proof. reflexivity. Qed.

(** ** Substrings, pieces and tags *)

Lemma prefix_inv t : ∀ s, String.prefix t s = true → ∃ b, s = t +:+ b.
Proof.
  induction t as [|c t IH]; intros s H; [by exists s|].
  destruct s as [|d s]; [done|]. rewrite prefix_cons in H.
  destruct (ascii_dec c d) as [->|]; [|done].
  destruct (IH s H) as [b ->]. by exists b.
Qed.

Lemma includes_spec s t : includes s t = true ↔ ∃ a b, s = a +:+ t +:+ b.
Proof.
  split.
  - induction s as [|c s IH]; rewrite includes_unfold; intros H.
    + rewrite orb_false_r in H. apply prefix_inv in H as [b ->]. by exists "", b.
    + apply orb_true_iff in H as [H|H].
      * apply prefix_inv in H as [b ->]. by exists "", b.
      * destruct (IH H) as (a & b & ->). by exists (String c a), b.
  - intros (a & b & ->). apply includes_app_r, includes_app_l, includes_self.
Qed.

Lemma includes_trans s t u :
  includes s t = true → includes t u = true → includes s u = true.
Proof.
  rewrite !includes_spec. intros (a & b & ->) (c & d & ->).
  exists (a +:+ c), (d +:+ b). by rewrite !append_assoc.
Qed.

Lemma trimStart_suffix s : ∃ a, s = a +:+ trimStart s.
Proof.
  induction s as [|c s [a IH]]; [by exists ""|]. rewrite trimStart_cons.
  destruct (is_white c); [|by exists ""]. exists (String c a). by rewrite append_cons, <- IH.
Qed.

Lemma trimEnd_prefix s : ∃ b, s = trimEnd s +:+ b.
Proof.
  induction s as [|c s [b IH]]; [by exists ""|]. rewrite trimEnd_cons.
  destruct (String.eqb (trimEnd s) "") eqn:E.
  - apply eqb_empty in E. rewrite E in IH. simpl in IH.
    destruct (is_white c); [by exists (String c s)|]. exists s. done.
  - exists b. by rewrite append_cons, <- IH.
Qed.

Lemma includes_trim_self s : includes s (trim s) = true.
Proof.
  apply includes_spec. destruct (trimStart_suffix s) as [a Ha].
  destruct (trimEnd_prefix (trimStart s)) as [b Hb].
  exists a, b. unfold trim. by rewrite <- Hb.
Qed.

Lemma split_comma_head s p ps : split_comma s = p :: ps → ∃ b, s = p +:+ b.
Proof.
  revert p ps. induction s as [|c s IH]; intros p ps H.
  - injection H as <- _. by exists "".
  - simpl in H. destruct (Ascii.eqb c ",").
    + injection H as <- _. by exists (String c s).
    + destruct (split_comma s) as [|q qs] eqn:E; [by apply split_comma_nonempty in E|].
      injection H as <- _. destruct (IH q qs eq_refl) as [b ->]. by exists b.
Qed.

Lemma split_comma_piece s : ∀ p, p ∈ split_comma s → includes s p = true.
Proof.
  induction s as [|c s IH]; intros p Hp.
  - apply list_elem_of_singleton in Hp as ->. done.
  - simpl in Hp. destruct (Ascii.eqb c ",").
    + apply elem_of_cons in Hp as [->|Hp].
      * apply includes_spec. by exists "", (String c s).
      * apply (includes_app_r (String c "") s). by apply IH.
    + destruct (split_comma s) as [|q qs] eqn:E; [by apply split_comma_nonempty in E|].
      apply elem_of_cons in Hp as [->|Hp].
      * destruct (split_comma_head s q qs E) as [b ->].
        apply includes_spec. by exists "", b.
      * apply (includes_app_r (String c "") s). apply IH. by apply list_elem_of_further.
Qed.

Lemma includes_comma_cons c s :
  includes (String c s) "," = Ascii.eqb c "," || includes s ",".
Proof.
  rewrite includes_unfold, prefix_cons, prefix_empty. f_equal.
  destruct (ascii_dec "," c) as [<-|Hne]; [done|].
  symmetry. apply Ascii.eqb_neq. congruence.
Qed.

Lemma split_comma_no_comma s : ∀ p, p ∈ split_comma s → includes p "," = false.
Proof.
  induction s as [|c s IH]; intros p Hp.
  - apply list_elem_of_singleton in Hp as ->. done.
  - simpl in Hp. destruct (Ascii.eqb c ",") eqn:C.
    + apply elem_of_cons in Hp as [->|Hp]; [done|by apply IH].
    + destruct (split_comma s) as [|q qs] eqn:E; [by apply split_comma_nonempty in E|].
      apply elem_of_cons in Hp as [->|Hp].
      * rewrite includes_comma_cons, C. apply IH, list_elem_of_here.
      * apply IH. by apply list_elem_of_further.
Qed.

(** X8: every tag the updater works with is non-empty, has no white space at
    either end, holds no comma and occurs in the tag string it was cut from. *)
Theorem tagsToAdd_tags g t :
  t ∈ tagsToAdd g →
  t ≠ "" ∧ trim t = t ∧ includes t "," = false ∧ includes g t = true.
Proof.
  intros Ht. pose proof (tagsToAdd_clean g) as Hclean.
  rewrite Forall_forall in Hclean. destruct (Hclean t Ht) as [Htrim Hne].
  split; [done|]. split; [by apply trimmed_trim|].
  unfold tagsToAdd in Ht. apply list_elem_of_filter in Ht as [_ Ht].
  change (map trim (split_comma (trim g))) with (trim <$> split_comma (trim g)) in Ht.
  apply list_elem_of_fmap in Ht as (p & -> & Hp).
  split.
  - destruct (includes (trim p) ",") eqn:E; [|done].
    rewrite <- (split_comma_no_comma (trim g) p Hp).
    symmetry. by apply (includes_trans p (trim p) ","); [apply includes_trim_self|].
  - apply (includes_trans g (trim g)); [apply includes_trim_self|].
    apply (includes_trans (trim g) p); [by apply split_comma_piece|apply includes_trim_self].
Qed.

Lemma tagsToAdd_tags_witness :
  includes "b c" "," = false ∧ includes " a,  b c ,, " "b c" = true.
Proof.
  destruct (tagsToAdd_tags " a,  b c ,, " "b c") as (_ & _ & H1 & H2).
  - apply (bool_decide_unpack _). vm_compute. reflexivity.
  - split; [exact H1 | exact H2].
Defined.

Example tagsToAdd_sample : tagsToAdd " a,  b c ,, " = ["a"; "b c"].
Proof. reflexivity. Qed.

(** ** Captions as the processor writes them and as the updater finds them *)

Lemma build_caption_trimmed g c : trimmed (build_caption g c).
Proof.
  unfold build_caption.
  destruct (negb (String.eqb g "") && negb (String.eqb (trim g) "")) eqn:E;
    [|apply trim_trimmed].
  apply andb_true_iff in E as [_ E]. apply negb_true_iff, String.eqb_neq in E.
  apply trimmed_append; [apply trim_trimmed | apply trim_trimmed | done].
Qed.

Lemma build_caption_has_tags g c t : t ∈ tagsToAdd g → includes (build_caption g c) t = true.
Proof.
  intros Ht.
  assert (trim g ≠ "") as Hg.
  { intros E. unfold tagsToAdd in Ht. rewrite E in Ht.
    change (filter (λ tag, tag ≠ "") (map trim (split_comma ""))) with (@nil string) in Ht.
    by apply elem_of_nil in Ht. }
  unfold build_caption. apply String.eqb_neq in Hg as Hg'.
  assert (String.eqb g "" = false) as ->.
  { apply String.eqb_neq. by intros ->. }
  rewrite Hg'. simpl. apply includes_app_r, includes_app_r.
  unfold tagsToAdd in Ht. apply list_elem_of_filter in Ht as [_ Ht].
  change (map trim (split_comma (trim g))) with (trim <$> split_comma (trim g)) in Ht.
  apply list_elem_of_fmap in Ht as (p & -> & Hp).
  apply (includes_trans (trim g) p); [by apply split_comma_piece|apply includes_trim_self].
Qed.

(** A caption generated with global tags is left as it is by an update with
    the same tag string. *)
Lemma retag_generated g c :
  add_tags (trim (build_caption g c)) (tagsToAdd g) = build_caption g c.
Proof.
  rewrite (trimmed_trim _ (build_caption_trimmed g c)).
  apply add_tags_fixed. intros t Ht. by apply build_caption_has_tags.
Qed.

(** What a run leaves in a file it wrote: the caption of one of its
    results. *)
Lemma run_file_content ep e choices fs rq fs' tr message rs es r :
  handler ep e choices fs rq = (fs', tr, CaptionOk message rs es (rq_sessionId rq)) →
  r ∈ rs →
  is_caption_file (outputName (cr_file r)) = true ∧
  (∃ completion, cr_caption r = build_caption (rq_globalTags rq) completion) ∧
  ∃ completion,
    results_dir fs' (rq_sessionId rq) !! outputName (cr_file r)
    = Some (build_caption (rq_globalTags rq) completion).
Proof.
  intros Hrun Hr. set (sid := rq_sessionId rq) in *.
  destruct (handler_ok_run _ _ _ _ _ _ _ _ _ _ Hrun)
    as (entries & sel & order & Hup & Hsel & Hperm & -> & -> & _).
  fold sid in Hr |- *.
  assert (∀ id file c, (id, file, inr c) ∈ order →
            is_image file = true ∧ ∃ completion, c = build_caption (rq_globalTags rq) completion)
    as Hinfo.
  { intros id file c Hin. rewrite Hperm in Hin.
    apply elem_of_infos in Hin as [Hf Hout]. simpl in Hf, Hout. split.
    - apply list_elem_of_lookup_2 in Hf. by apply (selection_images ep rq entries sel).
    - symmetry in Hout.
      apply task_outcome_inr in Hout as (md & completion & rest & _ & _ & _ & ->). eauto. }
  apply list_elem_of_omap in Hr as ([[id file] [m|c]] & Hin & Hres); [done|].
  injection Hres as <-. simpl.
  destruct (Hinfo id file c Hin) as [Himg Hc].
  split; [by apply outputName_is_caption|]. split; [done|].
  rewrite write_all_lookup.
  destruct (written (outputName file) order) as [c'|] eqn:W.
  - apply written_Some in W as (id' & file' & Hin' & _).
    destruct (Hinfo id' file' c' Hin') as [_ [completion ->]]. eauto.
  - exfalso. by apply (written_None _ _ W id file c Hin).
Qed.

(** X9: every caption a run reports, and every file it leaves behind, has no
    white space at either end: reading it back and trimming it changes
    nothing. *)
Theorem written_captions_trimmed ep e choices fs rq fs' tr message rs es r :
  handler ep e choices fs rq = (fs', tr, CaptionOk message rs es (rq_sessionId rq)) →
  r ∈ rs →
  trim (cr_caption r) = cr_caption r ∧
  ∃ text, results_dir fs' (rq_sessionId rq) !! outputName (cr_file r) = Some text ∧
          trim text = text.
Proof.
  intros Hrun Hr.
  destruct (run_file_content _ _ _ _ _ _ _ _ _ _ _ Hrun Hr) as (_ & [c ->] & [c' Hc']).
  split; [apply trimmed_trim, build_caption_trimmed|].
  eexists. split; [exact Hc'|]. apply trimmed_trim, build_caption_trimmed.
Qed.

(** X10: the tag updater, called after a run with the tag string of that run,
    leaves every file the run wrote as it is: tags given at generation time
    are not appended a second time. *)
Theorem retag_after_run ep e choices fs rq fs' tr message rs es e' r :
  handler ep e choices fs rq = (fs', tr, CaptionOk message rs es (rq_sessionId rq)) →
  r ∈ rs →
  let sid := rq_sessionId rq in
  results_dir (add_global_tags e' fs' sid (rq_globalTags rq)).1 sid !! outputName (cr_file r)
  = results_dir fs' sid !! outputName (cr_file r).
Proof.
  intros Hrun Hr sid.
  destruct (run_file_content _ _ _ _ _ _ _ _ _ _ _ Hrun Hr) as (Hcap & _ & [c Hc]).
  fold sid in Hc.
  destruct (add_global_tags_fs e' fs' sid (rq_globalTags rq))
    as [-> | (d & d' & Hd & -> & Hl)]; [done|].
  rewrite (results_dir_lookup fs' sid d Hd) in Hc |- *.
  unfold results_dir. simpl. rewrite lookup_insert_eq. simpl.
  rewrite Hl, Hc, Hcap. simpl. f_equal. unfold updated_text.
  destruct (write_error e' (outputName (cr_file r))); [done|]. apply retag_generated.
Qed.

Lemma tagged_run_response :
  (generate env_echo [] fs_three rq_tagged).2
  = CaptionOk "Caption generation completed for 3 files. 0 errors."
      [CaptionResult "a.jpg" "results/s/a.txt" "a cat, sitting, cat";
       CaptionResult "b.png" "results/s/b.txt" "a cat, sitting, cat";
       CaptionResult "c.gif" "results/s/c.txt" "a cat, sitting, cat"] [] "s".
Proof. vm_compute. reflexivity. Qed.

Lemma written_captions_trimmed_witness :
  trim "a cat, sitting, cat" = "a cat, sitting, cat".
Proof.
  destruct (generate env_echo [] fs_three rq_tagged) as [[fs' tr] resp] eqn:Hrun.
  pose proof tagged_run_response as Hresp. rewrite Hrun in Hresp. simpl in Hresp. subst resp.
  apply (written_captions_trimmed Generate env_echo [] fs_three rq_tagged fs' tr _ _ _
           (CaptionResult "a.jpg" "results/s/a.txt" "a cat, sitting, cat") Hrun).
  apply list_elem_of_here.
Defined.

Lemma retag_after_run_witness :
  results_dir (add_global_tags env_silent
                 (generate env_echo [] fs_three rq_tagged).1.1 "s" " cat ").1 "s" !! "a.txt"
  = results_dir (generate env_echo [] fs_three rq_tagged).1.1 "s" !! "a.txt".
Proof.
  destruct (generate env_echo [] fs_three rq_tagged) as [[fs' tr] resp] eqn:Hrun.
  pose proof tagged_run_response as Hresp. rewrite Hrun in Hresp. simpl in Hresp. subst resp.
  apply (retag_after_run Generate env_echo [] fs_three rq_tagged fs' tr _ _ _ env_silent
           (CaptionResult "a.jpg" "results/s/a.txt" "a cat, sitting, cat") Hrun).
  apply list_elem_of_here.
Defined.

(** ** What an update guarantees *)

Lemma add_tag_prefix c t : String.prefix c (add_tag c t) = true.
Proof.
  unfold add_tag. destruct (includes c t); [apply prefix_refl|].
  apply prefix_app_r, prefix_refl.
Qed.

Lemma prefix_trans a b c :
  String.prefix a b = true → String.prefix b c = true → String.prefix a c = true.
Proof.
  intros [x ->]%prefix_inv [y ->]%prefix_inv. rewrite append_assoc.
  apply prefix_app_r, prefix_refl.
Qed.

Lemma add_tags_prefix T : ∀ c, String.prefix c (add_tags c T) = true.
Proof.
  induction T as [|t T IH]; intros c; [apply prefix_refl|].
  rewrite add_tags_cons. eapply prefix_trans; [apply add_tag_prefix | apply IH].
Qed.

(** X11: after an update, every caption file whose write went through starts
    with its former text (trimmed) and holds every tag of the tag string. *)
Theorem add_global_tags_postcondition e fs sid g d :
  sid ≠ "" → trim g ≠ "" → results fs !! sid = Some d → caption_files d ≠ [] →
  let fs' := (add_global_tags e fs sid g).1 in
  ∀ name text,
    d !! name = Some text → is_caption_file name = true → write_error e name = None →
    ∃ text',
      results_dir fs' sid !! name = Some text' ∧
      String.prefix (trim text) text' = true ∧
      ∀ t, t ∈ tagsToAdd g → includes text' t = true.
Proof.
  intros Hsid Hg Hd Hfiles fs' name text Hn C W. unfold fs'.
  destruct (add_global_tags_run e fs sid g d Hsid Hg Hd Hfiles)
    as (d' & message & ups & errs & -> & Hl).
  exists (add_tags (trim text) (tagsToAdd g)). split; [|split].
  - unfold results_dir. simpl. rewrite lookup_insert_eq. simpl.
    rewrite Hl, Hn, C. simpl. unfold updated_text. by rewrite W.
  - apply add_tags_prefix.
  - intros t Ht. by apply add_tags_includes.
Qed.

Lemma add_global_tags_postcondition_witness :
  ∃ text',
    results_dir (add_global_tags env_silent fs_one_caption "s" "a, b").1 "s" !! "a.txt"
    = Some text' ∧
    includes text' "b" = true.
Proof.
  destruct (add_global_tags_postcondition env_silent fs_one_caption "s" "a, b"
              {[ "a.txt" := "a" ]}) with (name := "a.txt") (text := "a")
    as (text' & Hfile & _ & Htags).
  - discriminate.
  - vm_compute. discriminate.
  - reflexivity.
  - vm_compute. discriminate.
  - reflexivity.
  - reflexivity.
  - reflexivity.
  - exists text'. split; [exact Hfile|]. apply Htags.
    apply (bool_decide_unpack _). vm_compute. reflexivity.
Defined.

(** ** How many groups *)

Lemma chunk_loop_length {A} size (files : list A) : 1 ≤ size → ∀ fuel i,
  length files - i ≤ fuel →
  length (chunk_loop fuel size files i) = (length files - i + size - 1) / size.
Proof.
  intros Hsize. induction fuel as [|fuel IH]; intros i Hfuel.
  - simpl. symmetry. apply Nat.div_small. lia.
  - simpl. destruct (i <? length files) eqn:E.
    + apply Nat.ltb_lt in E. simpl. rewrite IH by lia.
      destruct (decide (i + size ≤ length files)) as [Hle|Hgt].
      * replace (length files - i + size - 1) with (length files - (i + size) + size - 1 + 1 * size)
          by lia.
        rewrite Nat.div_add by lia. lia.
      * replace (length files - (i + size) + size - 1) with (size - 1) by lia.
        rewrite (Nat.div_small (size - 1)) by lia.
        simpl. apply (Nat.div_unique _ _ 1 (length files - i - 1)); lia.
    + apply Nat.ltb_ge in E. symmetry. apply Nat.div_small. lia.
Qed.

(** X12: the loop that cuts the file list makes as many groups as the size goes
    into the number of files, rounded up: that many rounds of requests run
    one after the other. *)
Theorem chunks_count {A} size (files : list A) :
  1 ≤ size → length (chunks size files) = (length files + size - 1) / size.
Proof.
  intros Hsize. unfold chunks. rewrite chunk_loop_length by (done || lia).
  by rewrite Nat.sub_0_r.
Qed.

Lemma chunks_count_witness :
  length (chunks batchSize (tasks_of (numbered "img" ".png" 12))) = 3.
Proof.
  rewrite (chunks_count batchSize (tasks_of (numbered "img" ".png" 12))).
  - reflexivity.
  - unfold batchSize. lia.
Defined.

(** ** Names and extensions *)

Lemma split_last_dot_join s a b : split_last_dot s = Some (a, b) → s = a +:+ String "." b.
Proof.
  revert a b. induction s as [|c s IH]; intros a b H; [done|]. simpl in H.
  destruct (split_last_dot s) as [[a' b']|].
  - injection H as <- <-. by rewrite append_cons, <- (IH a' b' eq_refl).
  - destruct (Ascii.eqb c ".") eqn:E; [|done]. injection H as <- <-.
    apply Ascii.eqb_eq in E. by subst c.
Qed.

Lemma parse_name_extname file : parse_name file +:+ extname file = file.
Proof.
  unfold parse_name, extname.
  destruct (split_last_dot file) as [[a b]|] eqn:E; [|apply append_empty_r].
  destruct (String.eqb a "" || String.eqb file ".."); [apply append_empty_r|].
  symmetry. by apply split_last_dot_join.
Qed.

Lemma split_last_dot_None s : split_last_dot s = None → includes s "." = false.
Proof.
  induction s as [|c s IH]; [done|]. simpl split_last_dot.
  destruct (split_last_dot s) as [[a b]|]; [done|].
  destruct (Ascii.eqb c ".") eqn:E; [done|]. intros _.
  rewrite includes_unfold, IH by done. rewrite prefix_cons.
  destruct (ascii_dec "." c) as [<-|]; [done|]. done.
Qed.

Lemma split_last_dot_after s : ∀ a b, split_last_dot s = Some (a, b) → includes b "." = false.
Proof.
  induction s as [|c s IH]; intros a b H; [done|]. simpl in H.
  destruct (split_last_dot s) as [[a' b']|] eqn:E.
  - injection H as <- <-. by apply (IH a').
  - destruct (Ascii.eqb c "."); [|done]. injection H as <- <-.
    by apply split_last_dot_None.
Qed.

(** [path.parse(file).name] and [path.extname(file)] put together give the
    file name back; the extension is empty or a dot followed by no further
    dot, and it never takes the whole name. *)
Theorem name_parts file :
  parse_name file +:+ extname file = file ∧
  (extname file = "" ∨ ∃ b, extname file = String "." b ∧ includes b "." = false) ∧
  (extname file ≠ "" → parse_name file ≠ "").
Proof.
  split; [apply parse_name_extname|]. unfold parse_name, extname.
  destruct (split_last_dot file) as [[a b]|] eqn:E; [|split; [by left|done]].
  destruct (String.eqb a "") eqn:Ea; [split; [by left|done]|].
  destruct (String.eqb file ".."); [split; [by left|done]|]. simpl. split.
  - right. exists b. split; [done|]. by apply (split_last_dot_after file a).
  - intros _. by apply String.eqb_neq in Ea.
Qed.

(** ** Progress *)

Lemma progress_close_up_to_100 : forallb progress_close (pairs_up_to 100) = true.
Proof. vm_compute. reflexivity. Qed.

Lemma elem_of_pairs_up_to n p t : 1 ≤ t ≤ n → p ≤ t → (p, t) ∈ pairs_up_to n.
Proof.
  intros Ht Hp. unfold pairs_up_to. apply list_elem_of_bind. exists t. split.
  - apply list_elem_of_fmap. exists p. split; [done|]. apply elem_of_seq. lia.
  - apply elem_of_seq. lia.
Qed.

(** X13: for up to a hundred images and no more captions than images, the
    progress the status reports is the percentage rounded down or one
    less. *)
Theorem progress_within_one processed total :
  1 ≤ total ≤ 100 → processed ≤ total →
  (spec_progress processed total - 1 ≤ compute_progress processed total
   ≤ spec_progress processed total)%Z.
Proof.
  intros Ht Hp.
  assert (Hin : In (processed, total) (pairs_up_to 100))
    by by apply list_elem_of_In, elem_of_pairs_up_to.
  pose proof (proj1 (forallb_forall _ _) progress_close_up_to_100 _ Hin) as H.
  unfold progress_close in H. apply andb_true_iff in H as [H1 H2].
  apply Z.leb_le in H1, H2. unfold fst, snd in H1, H2. lia.
Qed.

Lemma progress_within_one_witness :
  (spec_progress 29 50 - 1 ≤ compute_progress 29 50 ≤ spec_progress 29 50)%Z.
Proof. apply (progress_within_one 29 50); lia. Defined.

Lemma progress_ends_up_to_500 : forallb progress_ends (seq 1 500) = true.
Proof. vm_compute. reflexivity. Qed.

(** X14: for up to five hundred images the progress is 0 when nothing is
    captioned and 100 when there are as many captions as images. *)
Theorem progress_ends_exact total :
  1 ≤ total ≤ 500 →
  compute_progress 0 total = 0%Z ∧ compute_progress total total = 100%Z.
Proof.
  intros Ht.
  assert (Hin : In total (seq 1 500)) by (apply list_elem_of_In, elem_of_seq; lia).
  pose proof (proj1 (forallb_forall _ _) progress_ends_up_to_500 _ Hin) as H.
  unfold progress_ends in H. apply andb_true_iff in H as [H1 H2].
  apply Z.eqb_eq in H1, H2. done.
Qed.

Lemma progress_ends_exact_witness :
  compute_progress 0 3 = 0%Z ∧ compute_progress 3 3 = 100%Z.
Proof. apply (progress_ends_exact 3). lia. Defined.

(** ** Calls of the captioning service *)

Section Requests.
Variable e : env.
Variable rq : caption_request.

Lemma settle_request p st :
  omap requested_id (rs_trace (settle e rq p st).2)
  = omap requested_id (rs_trace st) ++ option_list (pending_request e rq p) ∧
  match (settle e rq p st).1 with
  | Some p' => pending_request e rq p' = None ∧ pending_request e rq p ≠ None
  | None => pending_request e rq p = None
  end.
Proof.
  destruct p as [id file|id file md]; simpl; unfold metadata_read; simpl.
  - destruct (sharp_metadata e id _) as [md|m]; simpl; rewrite omap_app; simpl.
    + done.
    + by rewrite app_nil_r.
  - destruct (chat_completion e id (chat_messages md) (rq_maxTokens rq)) as [[|[c|] cs]|m];
      try destruct (write_error e (outputName file)); simpl; rewrite omap_app; done.
Qed.

Lemma omap_delete_None {A B} (f : A → option B) (l : list A) (k : nat) x :
  l !! k = Some x → f x = None → omap f (delete k l) = omap f l.
Proof.
  intros Hk Hx. rewrite <- (take_drop_middle l k x Hk) at 2.
  rewrite delete_take_drop, !omap_app. simpl. by rewrite Hx.
Qed.

Lemma omap_insert_None {A B} (f : A → option B) (l : list A) (k : nat) x y b :
  l !! k = Some x → f x = Some b → f y = None →
  b :: omap f (<[k := y]> l) ≡ₚ omap f l.
Proof.
  intros Hk Hx Hy. rewrite <- (take_drop_middle l k x Hk) at 2.
  rewrite insert_take_drop by (by apply lookup_lt_Some in Hk).
  rewrite !omap_app. simpl. rewrite Hx, Hy. by rewrite Permutation_middle.
Qed.

Lemma settle_all_requests fuel : ∀ choices pend st,
  weight pend ≤ fuel →
  omap requested_id (rs_trace (settle_all e rq fuel choices pend st).2)
  ≡ₚ omap requested_id (rs_trace st) ++ omap (pending_request e rq) pend.
Proof.
  induction fuel as [|fuel IH]; intros choices pend st Hw.
  - assert (pend = []) as -> by (apply weight_nil; lia). simpl. by rewrite app_nil_r.
  - simpl settle_all.
    set (k := hd 0 choices `mod` length pend).
    destruct (pend !! k) as [p|] eqn:Hp.
    2: { assert (pend = []) as ->.
         { destruct pend as [|q pend]; [done|].
           apply lookup_ge_None in Hp. pose proof (Nat.mod_upper_bound (hd 0 choices)
             (length (q :: pend))). simpl in *. unfold k in Hp. simpl in Hp. lia. }
         simpl. by rewrite app_nil_r. }
    destruct (settle_request p st) as [Htr Hnext].
    destruct (settle e rq p st) as [[p'|] st1] eqn:Hs; simpl in Htr, Hnext.
    + destruct (settle_some e rq p st p' st1 Hs) as (_ & Hwp & _).
      rewrite IH by (pose proof (weight_insert pend k p p' Hp Hwp); lia).
      rewrite Htr. destruct Hnext as [Hp' Hreq].
      destruct (pending_request e rq p) as [b|] eqn:Hb; [|done]. simpl.
      rewrite <- app_assoc. apply Permutation_app_head. simpl.
      by apply omap_insert_None with p.
    + rewrite IH by (pose proof (weight_delete pend k p Hp); lia).
      rewrite Htr, Hnext. simpl. rewrite app_nil_r.
      by rewrite (omap_delete_None _ pend k p Hp Hnext).
Qed.

Lemma run_group_requests choices st group :
  omap requested_id (rs_trace (run_group e rq (choices, st) group).2)
  ≡ₚ omap requested_id (rs_trace st) ++ omap (metadata_read e rq) group.
Proof.
  unfold run_group. set (started := RunState _ _ _ _).
  pose proof (settle_all_requests (2 * length group) choices
                ((λ t, AwaitMetadata t.1 t.2) <$> group) started) as H.
  destruct (settle_all e rq (2 * length group) choices _ started) as [[choices' pend'] st'].
  simpl in *. rewrite H.
  2: { clear. unfold weight. induction group as [|t group IH]; csimpl in *; lia. }
  unfold started. simpl. rewrite omap_app.
  assert (omap requested_id ((λ t, Started t.1) <$> group) = []) as ->.
  { clear. induction group as [|t group IH]; [done|]. by csimpl. }
  rewrite app_nil_r. apply Permutation_app_head.
  assert (omap (pending_request e rq) ((λ t, AwaitMetadata t.1 t.2) <$> group)
          = omap (metadata_read e rq) group) as ->; [|done].
  clear. induction group as [|[id file] group IH]; [done|]. csimpl. by rewrite IH.
Qed.

Lemma run_groups_requests groups : ∀ choices st,
  omap requested_id (rs_trace (foldl (run_group e rq) (choices, st) groups).2)
  ≡ₚ omap requested_id (rs_trace st) ++ omap (metadata_read e rq) (concat groups).
Proof.
  induction groups as [|g groups IH]; intros choices st.
  - simpl. by rewrite app_nil_r.
  - rewrite foldl_step.
    pose proof (run_group_requests choices st g) as Hg.
    destruct (run_group e rq (choices, st) g) as [choices1 st1].
    rewrite IH. simpl in Hg. rewrite Hg. simpl. by rewrite omap_app, app_assoc.
Qed.

Lemma run_chunks_requests (groups : list (list (nat * selected))) : ∀ choices st,
  omap requested_id (rs_trace (foldl (run_chunk e rq) (choices, st) groups).2)
  ≡ₚ omap requested_id (rs_trace st) ++ omap (metadata_read e rq) (file_tasks (concat groups)).
Proof.
  induction groups as [|g groups IH]; intros choices st.
  - simpl. by rewrite app_nil_r.
  - rewrite foldl_step. unfold run_chunk at 2.
    pose proof (run_group_requests choices
                  (RunState (rs_fs st) (rs_results st) (rs_errors st ++ value_errors g)
                            (rs_trace st)) (file_tasks g)) as Hg.
    destruct (run_group e rq _ (file_tasks g)) as [choices1 st1].
    rewrite IH. simpl in Hg. rewrite Hg. simpl.
    by rewrite file_tasks_app, omap_app, app_assoc.
Qed.

Lemma process_selected_requests size choices fs sel :
  1 ≤ size →
  omap requested_id (rs_trace (process_selected e rq size choices fs sel))
  ≡ₚ omap (metadata_read e rq) (file_tasks (entries_of sel)).
Proof.
  intros Hsize. unfold process_selected.
  rewrite run_chunks_requests. simpl. by rewrite chunks_concat.
Qed.

Lemma metadata_read_sublist tasks : omap (metadata_read e rq) tasks `sublist_of` tasks.*1.
Proof.
  induction tasks as [|[id file] tasks IH]; [done|]. csimpl.
  unfold metadata_read at 1. simpl.
  destruct (sharp_metadata e id _); by constructor.
Qed.
End Requests.

Lemma settled_of_groups e rq (groups : list (list (nat * selected))) traces :
  Forall2 (λ g t, group_trace e rq (file_tasks g) t) groups traces →
  omap settled_id (concat traces) ≡ₚ (file_tasks (concat groups)).*1.
Proof.
  induction 1 as [|g t groups traces Hg _ IH]; [done|].
  simpl. rewrite omap_app, file_tasks_app, fmap_app, IH.
  destruct Hg as (settled & tr & -> & Hperm & [_ Hset] & _).
  rewrite omap_app.
  assert (omap settled_id ((λ x, Started x.1) <$> file_tasks g) = []) as ->.
  { clear. induction (file_tasks g) as [|x l IH]; [done|]. by csimpl. }
  simpl. by rewrite Hset, Hperm.
Qed.

(** X15: in a run, the handler calls [openai.chat.completions.create] once
    for every position of the list to process that holds a file whose
    metadata read resolves, and for nothing else: the positions of the calls
    are those of these files, none twice, whatever the order of settling
    and whatever fails (the handler never calls again for a file that
    failed; what the client library does inside one call is not counted);
    every file of the list is started once, in order, and settles once. *)
Theorem requests_once ep e choices fs rq entries sel :
  rq_sessionId rq ≠ "" → rq_apiKey rq ≠ "" →
  uploads fs !! rq_sessionId rq = Some entries →
  selection ep rq entries = Some sel →
  let tasks := file_tasks (entries_of sel) in
  let tr := (handler ep e choices fs rq).1.2 in
  omap requested_id tr ≡ₚ omap (metadata_read e rq) tasks ∧
  NoDup (omap requested_id tr) ∧
  filter (λ ev, is_started ev = true) tr = (λ t, Started t.1) <$> tasks ∧
  omap settled_id tr ≡ₚ tasks.*1.
Proof.
  intros Hsid Hkey Hup Hsel tasks tr. subst tr.
  rewrite (handler_run ep e choices fs rq entries Hsid Hkey Hup), Hsel.
  assert (NoDup (omap (metadata_read e rq) tasks)) as Hnd.
  { eapply sublist_NoDup; [|apply metadata_read_sublist].
    eapply sublist_NoDup; [|apply file_tasks_ids].
    rewrite entries_of_ids. apply NoDup_seq. }
  destruct (decide (length sel = 0)) as [E|E].
  - unfold tasks. destruct sel; [|done]. simpl. repeat split; (done || constructor).
  - cbv zeta. simpl.
    pose proof (process_selected_requests e rq (group_size ep) choices
                  (ensureDir (rq_sessionId rq) fs) sel (group_size_pos ep rq entries sel Hsel)) as Hreq.
    destruct (process_selected_spec e rq (group_size ep) choices
                (ensureDir (rq_sessionId rq) fs) sel (group_size_pos ep rq entries sel Hsel))
      as (order & errs & traces & Hrun & _ & _ & Htr).
    split; [done|]. split; [by rewrite Hreq|].
    rewrite Hrun. simpl. split.
    + by rewrite (started_of_groups _ _ _ _ Htr), chunks_concat by apply (group_size_pos ep rq entries sel Hsel).
    + by rewrite (settled_of_groups _ _ _ _ Htr), chunks_concat by apply (group_size_pos ep rq entries sel Hsel).
Qed.

Lemma requests_once_witness :
  omap requested_id (generate env_flaky [] fs_three rq_plain).1.2 ≡ₚ [0; 2].
Proof.
  apply (requests_once Generate env_flaky [] fs_three rq_plain
           ["a.jpg"; "b.png"; "notes.md"; "c.gif"]
           [SFile "a.jpg"; SFile "b.png"; SFile "c.gif"]); done.
Defined.

(** A file listed twice is processed at both positions. *)
Example file_listed_twice :
  omap requested_id
    (batch env_echo [] fs_three
       (CaptionRequest "s" "sk-test" "" (Some [JInt 0; JInt 0]) 300)).1.2
  = [0; 1].
Proof. vm_compute. reflexivity. Qed.

(** ** The estimate of the processing page *)

Lemma ceil_minutes_table : forallb (ceil_div_ok 60) (seq 12 708) = true.
Proof. vm_compute. reflexivity. Qed.

Lemma ceil_hours_table : forallb (ceil_div_ok 3600) (seq 720 4281) = true.
Proof. vm_compute. reflexivity. Qed.

Lemma ceil_div_table d lo len (r : Z) :
  forallb (ceil_div_ok d) (seq lo len) = true →
  (Z.of_nat lo ≤ r < Z.of_nat lo + Z.of_nat len)%Z →
  math_ceil (double_div (double_of_Z (r * 5)) (double_of_Z d)) = ((r * 5 + d - 1) / d)%Z.
Proof.
  intros Htable Hr.
  assert (Hin : In (Z.to_nat r) (seq lo len)) by (apply list_elem_of_In, elem_of_seq; lia).
  pose proof (proj1 (forallb_forall _ _) Htable _ Hin) as H.
  unfold ceil_div_ok in H. rewrite Z2Nat.id in H by lia. by apply Z.eqb_eq in H.
Qed.

(** X16: once a file is processed the page estimates five seconds for each file
    that remains: in seconds below a minute (below zero when there are
    more captions than images), in minutes rounded up below an hour, in
    hours rounded up from there, shown here up to five thousand files. *)
Theorem time_remaining processed total :
  1 ≤ processed →
  let r := (Z.of_nat total - Z.of_nat processed)%Z in
  ((r < 12)%Z →
   calculateTimeRemaining processed total
   = "About " +:+ string_of_Z (5 * r) +:+ " seconds remaining") ∧
  ((12 ≤ r < 720)%Z →
   calculateTimeRemaining processed total
   = "About " +:+ string_of_Z ((r + 11) / 12) +:+ " minutes remaining") ∧
  ((720 ≤ r ≤ 5000)%Z →
   calculateTimeRemaining processed total
   = "About " +:+ string_of_Z ((r + 719) / 720) +:+ " hours remaining").
Proof.
  intros Hp r. unfold calculateTimeRemaining. fold r.
  destruct (Nat.eqb_spec processed 0) as [->|_]; [lia|]. cbv zeta.
  split; [|split]; intros Hr.
  - destruct (Z.ltb_spec (r * 5) 60); [|lia]. by rewrite (Z.mul_comm 5 r).
  - destruct (Z.ltb_spec (r * 5) 60); [lia|].
    destruct (Z.ltb_spec (r * 5) 3600); [|lia].
    rewrite (ceil_div_table 60 12 708 r ceil_minutes_table) by lia.
    do 3 f_equal.
    change 60%Z with (5 * 12)%Z at 2. rewrite <- Z.div_div by lia. f_equal.
    symmetry. apply (Z.div_unique _ _ _ 4); lia.
  - destruct (Z.ltb_spec (r * 5) 60); [lia|].
    destruct (Z.ltb_spec (r * 5) 3600); [lia|].
    rewrite (ceil_div_table 3600 720 4281 r ceil_hours_table) by lia.
    do 3 f_equal.
    change 3600%Z with (5 * 720)%Z at 2. rewrite <- Z.div_div by lia. f_equal.
    symmetry. apply (Z.div_unique _ _ _ 4); lia.
Qed.

Lemma time_remaining_witness :
  calculateTimeRemaining 3 50 = "About 4 minutes remaining".
Proof.
  pose proof (time_remaining 3 50 ltac:(lia)) as (_ & H & _).
  rewrite H by lia. reflexivity.
Defined.

Example time_remaining_negative :
  calculateTimeRemaining 3 2 = "About -5 seconds remaining".
Proof. reflexivity. Qed.

(** ** The image shown beside a caption *)

Lemma prefix_txt_app s :
  s ≠ "" → String.prefix ".txt" s = false → String.prefix ".txt" (s +:+ ".txt") = false.
Proof.
  intros Hne H.
  destruct s as [|c0 [|c1 [|c2 [|c3 s]]]]; [done|..];
    rewrite ?append_cons in *; rewrite ?prefix_cons in *;
    repeat (match goal with
            | |- context [ascii_dec ?a ?b] => destruct (ascii_dec a b) as [<-|]; try done
            end).
  by rewrite prefix_empty in H.
Qed.

Lemma replace_first_txt stem :
  includes stem ".txt" = false → replace_first ".txt" "" (stem +:+ ".txt") = stem.
Proof.
  induction stem as [|c stem IH]; intros H; [done|].
  rewrite includes_unfold in H. apply orb_false_iff in H as [Hpre Hrest].
  assert (String.prefix ".txt" (String c (stem +:+ ".txt")) = false) as Hp.
  { rewrite <- append_cons. by apply prefix_txt_app. }
  rewrite append_cons. cbn [replace_first]. by rewrite Hp, IH.
Qed.

Lemma js_find_first {A} (p : A → bool) (l : list A) x :
  x ∈ l → p x = true →
  ∃ before found after,
    l = before ++ found :: after ∧ js_find p l = Some found ∧ p found = true ∧
    ∀ y, y ∈ before → p y = false.
Proof.
  unfold js_find. induction l as [|a l IH]; intros Hx Hp; [by apply elem_of_nil in Hx|].
  simpl. destruct (p a) eqn:Ha.
  - exists [], a, l. repeat split; [done|]. intros y Hy. by apply elem_of_nil in Hy.
  - apply elem_of_cons in Hx as [->|Hx]; [congruence|].
    destruct (IH Hx Hp) as (before & found & after & -> & Hf & Hpf & Hbefore).
    exists (a :: before), found, after. repeat split; [done..|].
    intros y Hy. apply elem_of_cons in Hy as [->|Hy]; [done|by apply Hbefore].
Qed.

(** X17: for the caption file written for an image whose basename holds no
    [.txt], the results page finds an image to show, and it is the first of
    the list, in the list's order, whose name starts with the basename or
    whose name without its extension starts the basename: the list splits
    into images that do not qualify, the image found, which qualifies, and
    the rest. It is the image itself when no other image qualifies. *)
Theorem find_matching_image images captionFile img :
  img ∈ images →
  cl_name captionFile = outputName (il_name img) →
  includes (parse_name (il_name img)) ".txt" = false →
  let baseName := parse_name (il_name img) in
  (∃ before found after,
     images = before ++ found :: after ∧
     findMatchingImage images captionFile = Some found ∧
     matches_image baseName found = true ∧
     ∀ other, other ∈ before → matches_image baseName other = false) ∧
  ((∀ other, other ∈ images → matches_image baseName other = true → other = img) →
   findMatchingImage images captionFile = Some img).
Proof.
  intros Hin Hname Hstem baseName. unfold findMatchingImage.
  rewrite Hname. unfold outputName. rewrite replace_first_txt by done. fold baseName.
  assert (matches_image baseName img = true) as Hm.
  { unfold matches_image, startsWith. apply orb_true_iff. left.
    rewrite <- (parse_name_extname (il_name img)).
    apply prefix_app_r, prefix_refl. }
  destruct (js_find_first (matches_image baseName) images img Hin Hm)
    as (before & y & after & Himages & Hy & Hpy & Hbefore).
  split; [by exists before, y, after|].
  intros Honly. rewrite Hy. f_equal. apply Honly; [|done].
  rewrite Himages. apply elem_of_app. right. apply list_elem_of_here.
Qed.

Lemma find_matching_image_witness :
  findMatchingImage [ImageLink "a.png" "/api/download/image/s/a.png" 10;
                     ImageLink "b.jpg" "/api/download/image/s/b.jpg" 20]
                    (CaptionLink "b.txt" "/api/download/caption/s/b.txt" 5 (Some "b.jpg"))
  = Some (ImageLink "b.jpg" "/api/download/image/s/b.jpg" 20).
Proof.
  apply (find_matching_image
           [ImageLink "a.png" "/api/download/image/s/a.png" 10; ImageLink "b.jpg" "/api/download/image/s/b.jpg" 20]
           (CaptionLink "b.txt" "/api/download/caption/s/b.txt" 5 (Some "b.jpg"))
           (ImageLink "b.jpg" "/api/download/image/s/b.jpg" 20)).
  - apply list_elem_of_further, list_elem_of_here.
  - reflexivity.
  - reflexivity.
  - intros other Hother Hm.
    apply elem_of_cons in Hother as [->|Hother]; [done|].
    apply elem_of_cons in Hother as [->|Hother]; [done|].
    by apply elem_of_nil in Hother.
Defined.

(** A longer name that starts with the basename is found first. *)
Example find_matching_image_other :
  findMatchingImage [ImageLink "a10.png" "/api/download/image/s/a10.png" 10;
                     ImageLink "a1.png" "/api/download/image/s/a1.png" 20]
                    (CaptionLink "a1.txt" "/api/download/caption/s/a1.txt" 5 (Some "a1.png"))
  = Some (ImageLink "a10.png" "/api/download/image/s/a10.png" 10).
Proof. reflexivity. Qed.

(** ** The paired archive *)

Lemma captionMap_sound (files : list string) : ∀ m : gmap string string,
  (∀ b c, m !! b = Some c → c ∈ files ∧ parse_name c = b) →
  ∀ l : list string, (∀ x, x ∈ l → x ∈ files) →
  ∀ b c, foldl (λ m file, js_set m (parse_name file) file) m l !! b = Some c →
         c ∈ files ∧ parse_name c = b.
Proof.
  intros m Hm l. revert m Hm. induction l as [|x l IH]; intros m Hm Hl b c; [apply Hm|].
  simpl. apply IH.
  - intros b' c'. unfold js_set. destruct (String.eqb (parse_name x) "__proto__"); [apply Hm|].
    destruct (decide (b' = parse_name x)) as [->|Hne].
    + rewrite lookup_insert_eq. intros [= <-]. split; [|done]. apply Hl, list_elem_of_here.
    + rewrite lookup_insert_ne by done. apply Hm.
  - intros y Hy. by apply Hl, list_elem_of_further.
Qed.

Lemma captionMap_defined b : b ≠ "__proto__" → ∀ (l : list string) (m : gmap string string),
  is_Some (m !! b) ∨ (∃ f, f ∈ l ∧ parse_name f = b) →
  is_Some (foldl (λ m file, js_set m (parse_name file) file) m l !! b).
Proof.
  intros Hb. induction l as [|x l IH]; intros m H.
  - destruct H as [H|(f & Hf & _)]; [done|by apply elem_of_nil in Hf].
  - simpl. apply IH. unfold js_set.
    destruct (decide (parse_name x = b)) as [Hx|Hx].
    + left. rewrite Hx. apply String.eqb_neq in Hb. rewrite Hb.
      rewrite lookup_insert_eq. by eexists.
    + destruct H as [H|(f & Hf & Hfb)].
      * left. destruct (String.eqb (parse_name x) "__proto__"); [done|].
        by rewrite lookup_insert_ne.
      * apply elem_of_cons in Hf as [->|Hf]; [done|]. right. by exists f.
Qed.

Lemma paired_entries_elems sid (captionMap : gmap string string) images :
  (∀ f, f ∈ images → parse_name f ∉ object_prototype_keys) →
  ∃ zip,
    paired_entries sid captionMap images = Some zip ∧
    ∀ z, z ∈ zip ↔
      ∃ f, f ∈ images ∧
        (z = ZipEntry (join (uploadsDir sid) f) (parse_name f +:+ "/" +:+ f) ∨
         ∃ cap, captionMap !! parse_name f = Some cap ∧ cap ≠ "" ∧
                z = ZipEntry (join (resultsDir sid) cap) (parse_name f +:+ "/" +:+ cap)).
Proof.
  induction images as [|file images IH]; intros Hplain.
  - exists []. split; [done|]. intros z. split.
    + intros Hz. by apply elem_of_nil in Hz.
    + intros (f & Hf & _). by apply elem_of_nil in Hf.
  - destruct IH as (zip & Hzip & Hel).
    { intros f Hf. apply Hplain. by apply list_elem_of_further. }
    simpl paired_entries. unfold js_get.
    destruct (captionMap !! parse_name file) as [cap|] eqn:E.
    + destruct (String.eqb cap "") eqn:Ecap; rewrite Hzip; eexists; (split; [reflexivity|]);
        intros z; rewrite ?elem_of_cons, Hel; split.
      * intros [->|(f & Hf & H)];
          [exists file; split; [apply list_elem_of_here|by left]
          |exists f; split; [by apply list_elem_of_further|done]].
      * intros (f & Hf & H). apply elem_of_cons in Hf as [->|Hf].
        -- destruct H as [->|(cap' & Hcap' & Hne & ->)]; [by left|].
           rewrite E in Hcap'. injection Hcap' as <-.
           by apply String.eqb_eq in Ecap.
        -- right. by exists f.
      * intros [->|[->|(f & Hf & H)]].
        -- exists file. split; [apply list_elem_of_here|by left].
        -- exists file. split; [apply list_elem_of_here|]. right. exists cap.
           split; [done|]. split; [|done]. by apply String.eqb_neq in Ecap.
        -- exists f. split; [by apply list_elem_of_further|done].
      * intros (f & Hf & H). apply elem_of_cons in Hf as [->|Hf].
        -- destruct H as [->|(cap' & Hcap' & Hne & ->)]; [by left|].
           rewrite E in Hcap'. injection Hcap' as <-. right. by left.
        -- do 2 right. by exists f.
    + rewrite bool_decide_false by (apply Hplain, list_elem_of_here).
      rewrite Hzip. eexists. split; [reflexivity|].
      intros z; rewrite ?elem_of_cons, Hel; split.
      * intros [->|(f & Hf & H)];
          [exists file; split; [apply list_elem_of_here|by left]
          |exists f; split; [by apply list_elem_of_further|done]].
      * intros (f & Hf & H). apply elem_of_cons in Hf as [->|Hf].
        -- destruct H as [->|(cap' & Hcap' & Hne & ->)]; [by left|congruence].
        -- right. by exists f.
Qed.

(** X18: when no image's basename is a member of [Object.prototype], the paired
    archive is built: it holds every image in the directory of its
    basename, beside it a caption file of that basename whenever the
    results directory has the image's caption, and nothing but images of
    the session and caption files of the results directory, each in the
    directory of its basename. *)
Theorem paired_archive fs sid entries :
  uploads fs !! sid = Some entries →
  (∀ f, f ∈ entries → is_image f = true → parse_name f ∉ object_prototype_keys) →
  let d := results_dir fs sid in
  ∃ zip,
    download_all fs sid "paired" = DownloadZip ("lora-training-" +:+ sid +:+ ".zip") zip ∧
    (∀ f, f ∈ entries → is_image f = true →
       ZipEntry (join (uploadsDir sid) f) (parse_name f +:+ "/" +:+ f) ∈ zip ∧
       (is_Some (d !! outputName f) →
        ∃ cap, ZipEntry (join (resultsDir sid) cap) (parse_name f +:+ "/" +:+ cap) ∈ zip ∧
               parse_name cap = parse_name f)) ∧
    (∀ z, z ∈ zip →
       ∃ f, (f ∈ entries ∧ is_image f = true ∧ ze_source z = join (uploadsDir sid) f ∨
             f ∈ caption_files d ∧ ze_source z = join (resultsDir sid) f) ∧
            ze_name z = parse_name f +:+ "/" +:+ f).
Proof.
  intros Hup Hplain d. unfold download_all. rewrite Hup.
  change (String.eqb "paired" "separate") with false.
  change (String.eqb "paired" "paired") with true. cbv iota.
  set (images := filter (λ f, is_image f = true) entries).
  assert ((match results fs !! sid with
           | Some d => filter (λ f, is_caption_file f = true) (readdir_results d)
           | None => []
           end) = caption_files d) as ->.
  { unfold d, results_dir, caption_files. by destruct (results fs !! sid). }
  destruct (paired_entries_elems sid (build_captionMap (caption_files d)) images)
    as (zip & -> & Hel).
  { intros f Hf. apply list_elem_of_filter in Hf as [Himg Hf]. by apply Hplain. }
  exists zip. split; [done|].
  assert (∀ b c, build_captionMap (caption_files d) !! b = Some c →
                 c ∈ caption_files d ∧ parse_name c = b) as Hsound.
  { apply (captionMap_sound (caption_files d) ∅); [by intros b c; rewrite lookup_empty|done]. }
  split.
  - intros f Hf Himg.
    assert (f ∈ images) as Hfi by (by apply list_elem_of_filter).
    split; [apply Hel; exists f; split; [done|by left]|].
    intros Hcap.
    assert (parse_name f ≠ "__proto__") as Hproto.
    { intros E. apply (Hplain f Hf Himg). rewrite E.
      apply (bool_decide_unpack _). reflexivity. }
    destruct (captionMap_defined (parse_name f) Hproto (caption_files d) ∅) as [cap Hc].
    { right. exists (outputName f). split; [|by apply parse_name_outputName].
      apply elem_of_caption_files. split; [by apply outputName_is_caption|done]. }
    fold (build_captionMap (caption_files d)) in Hc.
    destruct (Hsound _ _ Hc) as [Hin Hbase].
    exists cap. split; [|done]. apply Hel. exists f. split; [done|]. right.
    exists cap. split; [done|]. split; [|done].
    intros ->. apply elem_of_caption_files in Hin as [Hin _]. done.
  - intros z Hz. apply Hel in Hz as (f & Hf & [->|(cap & Hc & Hne & ->)]).
    + apply list_elem_of_filter in Hf as [Himg Hf]. exists f. split; [|done]. left. done.
    + destruct (Hsound _ _ Hc) as [Hin Hbase]. exists cap. split; [by right|].
      simpl. by rewrite Hbase.
Qed.

Lemma paired_archive_witness :
  ∃ zip, download_all fs_partial "s" "paired" = DownloadZip "lora-training-s.zip" zip.
Proof.
  destruct (paired_archive fs_partial "s" (numbered "img" ".png" 50)) as (zip & H & _).
  - reflexivity.
  - intros f Hf _. apply (bool_decide_unpack _).
    revert f Hf. apply Forall_forall. apply (bool_decide_unpack _). vm_compute. reflexivity.
  - by exists zip.
Defined.

(** ** Grouping an uploaded folder *)

Section Folder.
Variable dirname : string → string.

Let dir_of (file : multer_file) : string := dirname (mf_originalname file).

Lemma group_files_spec (files : list multer_file) :
  (∀ f, f ∈ files → dir_of f ∉ object_prototype_keys) →
  ∃ groups,
    foldl (group_file dirname) (Some ∅) files = Some groups ∧
    ∀ d, match groups !! d with
         | Some l => l ≠ [] ∧ l = file_info_of <$> filter (λ f, dir_of f = d) files
         | None => filter (λ f, dir_of f = d) files = []
         end.
Proof.
  induction files as [|x files IH] using rev_ind; intros Hplain.
  - exists ∅. split; [done|]. intros d. by rewrite lookup_empty.
  - destruct IH as (groups & Hrun & Hgroups).
    { intros f Hf. apply Hplain, elem_of_app. by left. }
    rewrite foldl_app, Hrun. simpl. fold (dir_of x).
    assert (dir_of x ∉ object_prototype_keys) as Hx.
    { apply Hplain, elem_of_app. right. apply list_elem_of_here. }
    pose proof (Hgroups (dir_of x)) as Hdx.
    destruct (groups !! dir_of x) as [l|] eqn:E.
    + eexists. split; [reflexivity|]. intros d. rewrite filter_app.
      destruct (decide (d = dir_of x)) as [->|Hne].
      * rewrite lookup_insert_eq. destruct Hdx as [_ ->].
        rewrite filter_cons_True by done. rewrite fmap_app. split; [|done].
        by destruct (file_info_of <$> filter _ files).
      * rewrite lookup_insert_ne by done.
        rewrite filter_cons_False by (by intros ?). rewrite app_nil_r. apply Hgroups.
    + rewrite bool_decide_false by done.
      eexists. split; [reflexivity|]. intros d. rewrite filter_app.
      destruct (decide (d = dir_of x)) as [->|Hne].
      * rewrite lookup_insert_eq, Hdx. by rewrite filter_cons_True by done.
      * rewrite lookup_insert_ne by done.
        rewrite filter_cons_False by (by intros ?). rewrite app_nil_r. apply Hgroups.
Qed.

(** X19: an uploaded folder none of whose directories is named as a member of
    [Object.prototype] is answered with every file once in [files], in
    upload order, and with the files grouped by directory: the group of a
    directory holds the files of that directory, in upload order, and a
    directory without files has no group. *)
Theorem folder_groups sessionId (files : list multer_file) :
  files ≠ [] →
  (∀ f, f ∈ files → dir_of f ∉ object_prototype_keys) →
  ∃ groups,
    folder_uploaded dirname sessionId None (Some files)
    = FolderOk (string_of_nat (length files) +:+ " files uploaded successfully")
               (file_info_of <$> files) groups sessionId ∧
    (∀ d l, groups !! d = Some l ↔
            l ≠ [] ∧ l = file_info_of <$> filter (λ f, dir_of f = d) files) ∧
    (∀ f, f ∈ files → ∃ l, groups !! dir_of f = Some l ∧ file_info_of f ∈ l).
Proof.
  intros Hne Hplain. destruct (group_files_spec files Hplain) as (groups & Hrun & Hgroups).
  exists groups. unfold folder_uploaded. rewrite Hrun.
  split; [by destruct files|]. split.
  - intros d l. pose proof (Hgroups d) as Hd. destruct (groups !! d) as [l'|].
    + split; [by intros [= <-]|]. intros [_ ->]. by destruct Hd as [_ ->].
    + split; [done|]. intros [Hl ->]. by rewrite Hd in Hl.
  - intros f Hf. pose proof (Hgroups (dir_of f)) as Hd.
    assert (f ∈ filter (λ g, dir_of g = dir_of f) files) as Hin
      by (by apply list_elem_of_filter).
    destruct (groups !! dir_of f) as [l|].
    + exists l. split; [done|]. destruct Hd as [_ ->]. by apply list_elem_of_fmap_2.
    + rewrite Hd in Hin. by apply elem_of_nil in Hin.
Qed.
End Folder.

Lemma folder_groups_witness :
  ∃ groups,
    folder_uploaded posix_dirname "s" None
      (Some [MulterFile "images" "cats/a.png" "7bit" "image/png" "uploads/s" "a.png"
                        "uploads/s/a.png" 10;
             MulterFile "images" "b.png" "7bit" "image/png" "uploads/s" "b.png"
                        "uploads/s/b.png" 20;
             MulterFile "images" "cats/c.png" "7bit" "image/png" "uploads/s" "c.png"
                        "uploads/s/c.png" 30])
    = FolderOk "3 files uploaded successfully"
        [FileInfo "a.png" "cats/a.png" "image/png" 10 "uploads/s/a.png";
         FileInfo "b.png" "b.png" "image/png" 20 "uploads/s/b.png";
         FileInfo "c.png" "cats/c.png" "image/png" 30 "uploads/s/c.png"]
        groups "s" ∧
    groups !! "cats" = Some [FileInfo "a.png" "cats/a.png" "image/png" 10 "uploads/s/a.png";
                             FileInfo "c.png" "cats/c.png" "image/png" 30 "uploads/s/c.png"].
Proof.
  destruct (folder_groups posix_dirname "s"
    [MulterFile "images" "cats/a.png" "7bit" "image/png" "uploads/s" "a.png"
                "uploads/s/a.png" 10;
     MulterFile "images" "b.png" "7bit" "image/png" "uploads/s" "b.png"
                "uploads/s/b.png" 20;
     MulterFile "images" "cats/c.png" "7bit" "image/png" "uploads/s" "c.png"
                "uploads/s/c.png" 30]) as (groups & Hrun & Hgroups & _).
  - done.
  - intros f Hf. apply (bool_decide_unpack _).
    revert f Hf. apply Forall_forall. apply (bool_decide_unpack _). vm_compute. reflexivity.
  - exists groups. split; [exact Hrun|]. apply Hgroups. split; [done|]. reflexivity.
Defined.

(** A directory named as a member of [Object.prototype] makes the
    grouping throw. *)
Example folder_constructor :
  folder_uploaded posix_dirname "s" None
    (Some [MulterFile "images" "constructor/a.png" "7bit" "image/png" "uploads/s" "a.png"
                      "uploads/s/a.png" 10])
  = FolderThrows "filesByDirectory[dirPath].push is not a function".
Proof. reflexivity. Qed.
